(** * kafka-pixy: the HTTP front end and the partition consumer

    A shallow embedding of [server/httpsrv/httpsrv.go] and of the consumer
    code that accompanies it: the route table, the consume handler, the
    choice of the starting offset, the parsing of fetch results, the message
    pump of a partition consumer and the batch executor of a broker consumer.

    Go's fixed-width integers are integers of [Z] with the wrap-around written
    out; a goroutine that waits in a [select] is a step function driven by the
    event that fires; what a goroutine does to the outside (channel sends,
    channel closes, calls on the broker connection) is recorded as a trace.
    What lies outside the file (the sarama library, Go's clock) is modelled as
    far as the code uses it. *)

From Stdlib Require Import ZArith Lia Bool.
From stdpp Require Import gmap strings list pretty sorting.

Local Open Scope Z_scope.

(** ** Fixed-width integers *)

Module Int.

(** The value of a mathematical integer stored in a signed two's
    complement integer of [bits] bits. *)
Definition wrap (bits x : Z) : Z :=
  (x + 2 ^ (bits - 1)) mod 2 ^ bits - 2 ^ (bits - 1).

Definition int32 (x : Z) : Z := wrap 32 x.
Definition int64 (x : Z) : Z := wrap 64 x.

Definition MaxInt32 : Z := 2 ^ 31 - 1.
Definition MinInt32 : Z := - 2 ^ 31.
Definition MaxInt64 : Z := 2 ^ 63 - 1.
Definition MinInt64 : Z := - 2 ^ 63.

Definition is_int32 (x : Z) : Prop := MinInt32 <= x <= MaxInt32.
Definition is_int64 (x : Z) : Prop := MinInt64 <= x <= MaxInt64.

End Int.

(** ** Time

  An instant is a number of nanoseconds counted from Go's zero [Time]; a
  [Duration] is an [int64] number of nanoseconds.  [Time.Sub] saturates at
  the ends of the [Duration] range. *)

Module time.

Definition Time := Z.
Definition Duration := Z.

Definition zero : Time := 0.

Definition Sub (t u : Time) : Duration :=
  if t - u <? Int.MinInt64 then Int.MinInt64
  else if Int.MaxInt64 <? t - u then Int.MaxInt64
  else t - u.

Definition Millisecond : Duration := 1000000.

End time.

(** ** Errors *)

(** Modelled from the spec: the error types [consumer.ErrRequestTimeout] and
    [consumer.ErrTooManyRequests], whose declarations are missing from the
    sources.  The spec names them as the two errors of [Consume] that the
    consume endpoint tells apart from all others; they are taken as two types
    of their own, each wrapping a text. *)
Inductive consumerErr : Type :=
| ErrRequestTimeout (msg : string)
| ErrTooManyRequests (msg : string).

(** The values of Go's [error] interface that the code tells apart.
    [KError] is sarama's numeric Kafka error; [ErrIncompleteResponse] and
    [ErrMessageTooLarge] are sarama's package-level error values;
    [ConfigurationError] is sarama's error type of that name; [OfConsumer]
    holds an error of one of the two types of the consumer package;
    [OtherError] stands for every other error value, such as a network
    failure. *)
Inductive error : Type :=
| KError (code : Z)
| ErrIncompleteResponse
| ErrMessageTooLarge
| ConfigurationError (msg : string)
| OfConsumer (err : consumerErr)
| OtherError (msg : string).

#[global] Instance consumerErr_eq_dec : EqDecision consumerErr.
Proof. solve_decision. Defined.

#[global] Instance error_eq_dec : EqDecision error.
Proof. solve_decision. Defined.

Definition bytes : Type := list Byte.byte.

(** ** The parts of the sarama library that the consumer uses *)

Module sarama.

Definition OffsetNewest : Z := -1.
Definition OffsetOldest : Z := -2.

(** Codes of [KError]. *)
Definition NoError : Z := 0.
Definition OffsetOutOfRange : Z := 1.
Definition UnknownTopicOrPartition : Z := 3.

Definition ErrNoError : error := KError NoError.
Definition ErrOffsetOutOfRange : error := KError OffsetOutOfRange.
Definition ErrUnknownTopicOrPartition : error := KError UnknownTopicOrPartition.

(** The fields of [sarama.Config] that the consumer reads. *)
Record Config : Type := mkConfig {
  Consumer_Fetch_Min : Z;          (* int32 *)
  Consumer_Fetch_Default : Z;      (* int32 *)
  Consumer_Fetch_Max : Z;          (* int32 *)
  Consumer_Retry_Backoff : time.Duration;
  Consumer_MaxWaitTime : time.Duration;
  Consumer_Return_Errors : bool;
  ChannelBufferSize : Z
}.

(** A message of a message set.  A compressed message carries the set of the
    messages packed into it. *)
#[warnings="-register-all"]
Inductive MessageBlock : Type := mkMessageBlock {
  mb_Offset : Z;                   (* int64 *)
  mb_Key : bytes;
  mb_Value : bytes;
  mb_Set : option (list MessageBlock)
}.

(** [MessageBlock.Messages]: the inner messages of a compressed message,
    the message itself otherwise. *)
Definition Messages (msb : MessageBlock) : list MessageBlock :=
  match mb_Set msb with
  | Some inner => inner
  | None => [msb]
  end.

Record MessageSet : Type := mkMessageSet {
  PartialTrailingMessage : bool;
  ms_Messages : list MessageBlock
}.

Record FetchResponseBlock : Type := mkFetchResponseBlock {
  Err : Z;                         (* KError *)
  HighWaterMarkOffset : Z;         (* int64 *)
  MsgSet : MessageSet
}.

Record FetchResponse : Type := mkFetchResponse {
  Blocks : gmap string (gmap Z FetchResponseBlock)
}.

(** [FetchResponse.GetBlock]. *)
Definition GetBlock (r : FetchResponse) (topic : string) (partition : Z)
  : option FetchResponseBlock :=
  match Blocks r !! topic with
  | Some parts => parts !! partition
  | None => None
  end.

(** One block of a [FetchRequest], as handed to [AddBlock]. *)
Record fetchRequestBlock : Type := mkFetchRequestBlock {
  rb_topic : string;
  rb_partition : Z;
  rb_fetchOffset : Z;
  rb_maxBytes : Z
}.

(** A [FetchRequest]: its two settings and the blocks added to it, in the
    order of the [AddBlock] calls. *)
Record FetchRequest : Type := mkFetchRequest {
  MinBytes : Z;
  MaxWaitTime : Z;
  rq_blocks : list fetchRequestBlock
}.

Definition AddBlock (req : FetchRequest) (topic : string) (partition fetchOffset maxBytes : Z)
  : FetchRequest :=
  {| MinBytes := MinBytes req;
     MaxWaitTime := MaxWaitTime req;
     rq_blocks := rq_blocks req ++ [mkFetchRequestBlock topic partition fetchOffset maxBytes] |}.

(** The one method of [sarama.Client] that the consumer calls to choose an
    offset: [GetOffset topic partition time] yields an offset and an error. *)
Record Client : Type := mkClient {
  GetOffset : string -> Z -> Z -> Z * option error
}.

End sarama.

(** ** The consumer package: data *)

Module consumer.

Import sarama.

Record ConsumerMessage : Type := mkConsumerMessage {
  cm_Key : bytes;
  cm_Value : bytes;
  cm_Topic : string;
  cm_Partition : Z;                  (* int32 *)
  cm_Offset : Z;                     (* int64 *)
  cm_HighWaterMark : Z               (* int64 *)
}.

Record ConsumerError : Type := mkConsumerError {
  ce_Topic : string;
  ce_Partition : Z;
  ce_Err : error
}.

Record topicPartition : Type := mkTopicPartition {
  topic : string;
  partition : Z                      (* int32 *)
}.

#[global] Instance topicPartition_eq_dec : EqDecision topicPartition.
Proof. solve_decision. Defined.

#[global] Instance topicPartition_countable : Countable topicPartition.
Proof.
  refine (inj_countable' (fun tp => (topic tp, partition tp))
            (fun p => mkTopicPartition (fst p) (snd p)) _).
  intros []. reflexivity.
Defined.

(** A channel is known by its identity only. *)
Definition chan : Type := nat.

Record fetchResult : Type := mkFetchResult {
  Response : option FetchResponse;
  fr_Err : option error
}.

Record fetchRequest : Type := mkFetchRequestMsg {
  rq_Topic : string;
  rq_Partition : Z;                  (* int32 *)
  rq_Offset : Z;                     (* int64 *)
  rq_MaxBytes : Z;                   (* int32 *)
  rq_Lag : Z;                        (* int64 *)
  ReplyToCh : chan
}.

(** The fields of a [partitionConsumer] that its pump reads and writes; the
    channels of the worker are part of the pump's state below. *)
Record partitionConsumer : Type := mkPartitionConsumer {
  tp : topicPartition;
  fetchSize : Z;                     (* int32 *)
  offset : Z;                        (* int64 *)
  lag : Z                            (* int64 *)
}.

Definition set_fetchSize (v : Z) (pc : partitionConsumer) : partitionConsumer :=
  {| tp := tp pc; fetchSize := v; offset := offset pc; lag := lag pc |}.

Definition set_offset (v : Z) (pc : partitionConsumer) : partitionConsumer :=
  {| tp := tp pc; fetchSize := fetchSize pc; offset := v; lag := lag pc |}.

Definition set_lag (v : Z) (pc : partitionConsumer) : partitionConsumer :=
  {| tp := tp pc; fetchSize := fetchSize pc; offset := offset pc; lag := v |}.

(** ** Parsing a fetch result *)

(** What [parseFetchResult] hands back: the worker with its fields updated,
    the errors it passed to [reportError] on the way, and the pair of the
    messages and the error it returns. *)
Record parsed : Type := mkParsed {
  p_pc : partitionConsumer;
  p_reported : list error;
  p_messages : list ConsumerMessage;
  p_err : option error
}.

(** The body of the inner loop over the messages of a response: a message
    below the worker's offset is skipped, any other is appended and sets the
    lag. *)
Definition parseMessage (block : FetchResponseBlock)
    (st : partitionConsumer * list ConsumerMessage) (msg : MessageBlock)
    : partitionConsumer * list ConsumerMessage :=
  let '(pc, fetchedMessages) := st in
  if mb_Offset msg <? offset pc then (pc, fetchedMessages)
  else
    let consumerMessage :=
      {| cm_Topic := topic (tp pc);
         cm_Partition := partition (tp pc);
         cm_Key := mb_Key msg;
         cm_Value := mb_Value msg;
         cm_Offset := mb_Offset msg;
         cm_HighWaterMark := HighWaterMarkOffset block |} in
    (set_lag (Int.int64 (HighWaterMarkOffset block - mb_Offset msg)) pc,
     fetchedMessages ++ [consumerMessage]).

(** The two nested loops. *)
Definition parseMessages (block : FetchResponseBlock) (pc : partitionConsumer)
    : partitionConsumer * list ConsumerMessage :=
  fold_left
    (fun st msgBlock => fold_left (parseMessage block) (Messages msgBlock) st)
    (ms_Messages (MsgSet block)) (pc, []).

Definition parseFetchResult (cfg : Config) (pc : partitionConsumer)
    (fetchResult : fetchResult) : parsed :=
  match fr_Err fetchResult with
  | Some err => mkParsed pc [] [] (Some err)
  | None =>
    match Response fetchResult with
    | None => mkParsed pc [] [] (Some ErrIncompleteResponse)
    | Some response =>
      match GetBlock response (topic (tp pc)) (partition (tp pc)) with
      | None => mkParsed pc [] [] (Some ErrIncompleteResponse)
      | Some block =>
        if negb (Err block =? NoError) then
          mkParsed pc [] [] (Some (KError (Err block)))
        else if (length (ms_Messages (MsgSet block)) =? 0)%nat then
          if PartialTrailingMessage (MsgSet block) then
            if (0 <? Consumer_Fetch_Max cfg)
               && (fetchSize pc =? Consumer_Fetch_Max cfg) then
              mkParsed (set_offset (Int.int64 (offset pc + 1)) pc)
                       [ErrMessageTooLarge] [] None
            else
              let doubled := Int.int32 (fetchSize pc * 2) in
              let clamped :=
                if (0 <? Consumer_Fetch_Max cfg)
                   && (Consumer_Fetch_Max cfg <? doubled)
                then Consumer_Fetch_Max cfg else doubled in
              mkParsed (set_fetchSize clamped pc) [] [] None
          else mkParsed pc [] [] None
        else
          let pc := set_fetchSize (Consumer_Fetch_Default cfg) pc in
          let '(pc, fetchedMessages) := parseMessages block pc in
          if (length fetchedMessages =? 0)%nat then
            mkParsed pc [] [] (Some ErrIncompleteResponse)
          else mkParsed pc [] fetchedMessages None
      end
    end
  end.

(** ** The message pump of a partition consumer

    [pullMessages] is one goroutine that waits in a [select] whose cases are
    switched on and off through channel variables that are either nil or
    live.  The pump below holds those variables; an [event] names the case
    that fires, together with what the case reads from the outside: the
    executor handed over, the fetch result, the wall clock, and whether
    [errorsCh] can take a value without blocking. *)

Inductive event : Type :=
  | EvAssignment (bw : option chan) (now : time.Time)
  | EvSendRequest
  | EvFetchResult (result : fetchResult) (now : time.Time) (errorsReady : bool)
  | EvPushMessage
  | EvRetryTimer
  | EvClosing.

(** What the pump does to the outside. *)
Inductive action : Type :=
  | ASendRequest (ch : chan) (req : fetchRequest)
  | AReassign
  | ASendError (ce : ConsumerError)
  | APush (msg : ConsumerMessage)
  | ACloseMessages
  | ACloseErrors
  | ACloseClosed.

Record pump : Type := mkPump {
  worker : partitionConsumer;
  fetchResultCh : chan;
  assignedFetchRequestCh : option chan;
  nilOrFetchRequestsCh : option chan;
  nilOrFetchResultsCh : bool;
  nilOrMessagesCh : bool;
  nilOrReassignRetryTimerCh : bool;
  fetchedMessages : list ConsumerMessage;
  currMessage : option ConsumerMessage;
  currMessageIdx : nat;
  lastReassignTime : time.Time;
  exited : bool
}.

Definition with_worker (v : partitionConsumer) (st : pump) : pump :=
  mkPump v (fetchResultCh st) (assignedFetchRequestCh st) (nilOrFetchRequestsCh st)
    (nilOrFetchResultsCh st) (nilOrMessagesCh st) (nilOrReassignRetryTimerCh st)
    (fetchedMessages st) (currMessage st) (currMessageIdx st) (lastReassignTime st)
    (exited st).

Definition with_assigned (v : option chan) (st : pump) : pump :=
  mkPump (worker st) (fetchResultCh st) v (nilOrFetchRequestsCh st)
    (nilOrFetchResultsCh st) (nilOrMessagesCh st) (nilOrReassignRetryTimerCh st)
    (fetchedMessages st) (currMessage st) (currMessageIdx st) (lastReassignTime st)
    (exited st).

Definition with_requests (v : option chan) (st : pump) : pump :=
  mkPump (worker st) (fetchResultCh st) (assignedFetchRequestCh st) v
    (nilOrFetchResultsCh st) (nilOrMessagesCh st) (nilOrReassignRetryTimerCh st)
    (fetchedMessages st) (currMessage st) (currMessageIdx st) (lastReassignTime st)
    (exited st).

Definition with_results (v : bool) (st : pump) : pump :=
  mkPump (worker st) (fetchResultCh st) (assignedFetchRequestCh st)
    (nilOrFetchRequestsCh st) v (nilOrMessagesCh st) (nilOrReassignRetryTimerCh st)
    (fetchedMessages st) (currMessage st) (currMessageIdx st) (lastReassignTime st)
    (exited st).

Definition with_messages (v : bool) (st : pump) : pump :=
  mkPump (worker st) (fetchResultCh st) (assignedFetchRequestCh st)
    (nilOrFetchRequestsCh st) (nilOrFetchResultsCh st) v (nilOrReassignRetryTimerCh st)
    (fetchedMessages st) (currMessage st) (currMessageIdx st) (lastReassignTime st)
    (exited st).

Definition with_timer (v : bool) (st : pump) : pump :=
  mkPump (worker st) (fetchResultCh st) (assignedFetchRequestCh st)
    (nilOrFetchRequestsCh st) (nilOrFetchResultsCh st) (nilOrMessagesCh st) v
    (fetchedMessages st) (currMessage st) (currMessageIdx st) (lastReassignTime st)
    (exited st).

Definition with_fetched (v : list ConsumerMessage) (st : pump) : pump :=
  mkPump (worker st) (fetchResultCh st) (assignedFetchRequestCh st)
    (nilOrFetchRequestsCh st) (nilOrFetchResultsCh st) (nilOrMessagesCh st)
    (nilOrReassignRetryTimerCh st) v (currMessage st) (currMessageIdx st)
    (lastReassignTime st) (exited st).

Definition with_curr (m : option ConsumerMessage) (i : nat) (st : pump) : pump :=
  mkPump (worker st) (fetchResultCh st) (assignedFetchRequestCh st)
    (nilOrFetchRequestsCh st) (nilOrFetchResultsCh st) (nilOrMessagesCh st)
    (nilOrReassignRetryTimerCh st) (fetchedMessages st) m i
    (lastReassignTime st) (exited st).

Definition with_lastReassignTime (v : time.Time) (st : pump) : pump :=
  mkPump (worker st) (fetchResultCh st) (assignedFetchRequestCh st)
    (nilOrFetchRequestsCh st) (nilOrFetchResultsCh st) (nilOrMessagesCh st)
    (nilOrReassignRetryTimerCh st) (fetchedMessages st) (currMessage st)
    (currMessageIdx st) v (exited st).

Definition with_exited (v : bool) (st : pump) : pump :=
  mkPump (worker st) (fetchResultCh st) (assignedFetchRequestCh st)
    (nilOrFetchRequestsCh st) (nilOrFetchResultsCh st) (nilOrMessagesCh st)
    (nilOrReassignRetryTimerCh st) (fetchedMessages st) (currMessage st)
    (currMessageIdx st) (lastReassignTime st) v.

(** [spawnPartitionConsumer]: the worker as it is created, and the pump's
    variables as [pullMessages] declares them. *)
Definition spawnPartitionConsumer (cfg : Config) (tp : topicPartition) (offset : Z)
    : partitionConsumer :=
  {| tp := tp;
     offset := offset;
     fetchSize := Consumer_Fetch_Default cfg;
     lag := 0 |}.

Definition pullMessages_start (pc : partitionConsumer) (fetchResultCh : chan) : pump :=
  {| worker := pc;
     fetchResultCh := fetchResultCh;
     assignedFetchRequestCh := None;
     nilOrFetchRequestsCh := None;
     nilOrFetchResultsCh := false;
     nilOrMessagesCh := false;
     nilOrReassignRetryTimerCh := false;
     fetchedMessages := [];
     currMessage := None;
     currMessageIdx := 0;
     lastReassignTime := time.zero;
     exited := false |}.

(** [reportError]: nothing unless the user asked for errors; otherwise a send
    on [errorsCh] that is dropped when the channel cannot take it. *)
Definition reportError (cfg : Config) (pc : partitionConsumer) (errorsReady : bool)
    (err : error) : list action :=
  if negb (Consumer_Return_Errors cfg) then []
  else
    let ce := {| ce_Topic := topic (tp pc);
                 ce_Partition := partition (tp pc);
                 ce_Err := err |} in
    if errorsReady then [ASendError ce] else [].

(** The closure [triggerOrScheduleReassign] of [pullMessages]. *)
Definition triggerOrScheduleReassign (cfg : Config) (now : time.Time) (st : pump)
    : pump * list action :=
  let st := with_assigned None st in
  if Consumer_Retry_Backoff cfg <? time.Sub now (lastReassignTime st) then
    (with_timer true (with_lastReassignTime now st), [AReassign])
  else
    (with_timer true st, []).

(** The code after the label [done]. *)
Definition closeAll : list action := [ACloseMessages; ACloseErrors; ACloseClosed].

(** One turn of the loop of [pullMessages]: [None] when the case named by the
    event is switched off, or when the goroutine has returned. *)
Definition step (cfg : Config) (ev : event) (st : pump) : option (pump * list action) :=
  if exited st then None
  else
    match ev with
    | EvAssignment None now =>
        Some (triggerOrScheduleReassign cfg now st)
    | EvAssignment (Some requestsCh) _ =>
        let st := with_timer false (with_assigned (Some requestsCh) st) in
        if negb (nilOrFetchResultsCh st) && negb (nilOrMessagesCh st) then
          Some (with_requests (assignedFetchRequestCh st) st, [])
        else Some (st, [])
    | EvSendRequest =>
        match nilOrFetchRequestsCh st with
        | None => None
        | Some ch =>
            let pc := worker st in
            let req := {| rq_Topic := topic (tp pc);
                          rq_Partition := partition (tp pc);
                          rq_Offset := offset pc;
                          rq_MaxBytes := fetchSize pc;
                          rq_Lag := lag pc;
                          ReplyToCh := fetchResultCh st |} in
            Some (with_results true (with_requests None st), [ASendRequest ch req])
        end
    | EvFetchResult result now errorsReady =>
        if negb (nilOrFetchResultsCh st) then None
        else
          let st := with_results false st in
          let p := parseFetchResult cfg (worker st) result in
          let reported :=
            flat_map (reportError cfg (worker st) errorsReady) (p_reported p) in
          let st := with_fetched (p_messages p) (with_worker (p_pc p) st) in
          match p_err p with
          | Some err =>
              let reported := reported ++ reportError cfg (worker st) errorsReady err in
              if decide (err = ErrOffsetOutOfRange) then
                Some (with_exited true st, reported ++ closeAll)
              else
                let '(st, acts) := triggerOrScheduleReassign cfg now st in
                Some (st, reported ++ acts)
          | None =>
              if (length (fetchedMessages st) =? 0)%nat then
                Some (with_requests (assignedFetchRequestCh st) st, reported)
              else
                Some (with_messages true
                        (with_curr (fetchedMessages st !! 0%nat) 0 st), reported)
          end
    | EvPushMessage =>
        if negb (nilOrMessagesCh st) then None
        else
          match currMessage st with
          | None => None
          | Some msg =>
              let st :=
                with_worker (set_offset (Int.int64 (cm_Offset msg + 1)) (worker st)) st in
              let idx := S (currMessageIdx st) in
              if (idx <? length (fetchedMessages st))%nat then
                Some (with_curr (fetchedMessages st !! idx) idx st, [APush msg])
              else
                Some (with_requests (assignedFetchRequestCh st)
                        (with_messages false (with_curr (currMessage st) idx st)),
                      [APush msg])
          end
    | EvRetryTimer =>
        if negb (nilOrReassignRetryTimerCh st) then None
        else Some (with_timer true st, [AReassign])
    | EvClosing =>
        Some (with_exited true st, closeAll)
    end.

(** A run of the pump over a sequence of events, with the trace of what it
    did. *)
Fixpoint run (cfg : Config) (evs : list event) (st : pump)
    : option (pump * list action) :=
  match evs with
  | [] => Some (st, [])
  | ev :: evs =>
      match step cfg ev st with
      | None => None
      | Some (st, acts) =>
          match run cfg evs st with
          | None => None
          | Some (st, trace) => Some (st, acts ++ trace)
          end
      end
  end.

(** The messages pushed on the messages channel, in order. *)
Definition pushed (trace : list action) : list ConsumerMessage :=
  flat_map (fun a => match a with APush msg => [msg] | _ => [] end) trace.

Definition delivered_offsets (trace : list action) : list Z :=
  map cm_Offset (pushed trace).

(** ** The broker consumer

    [executeBatches] ranges over the batches that [batchRequests] hands over.
    For each batch it reads the clock, may call [Fetch] on the broker
    connection, and reads the clock again after a failed call; a [batch]
    holds the requests together with those readings. *)

Record batch : Type := mkBatch {
  fetchRequests : list fetchRequest;
  b_now : time.Time;
  b_Fetch : FetchRequest -> option FetchResponse * option error;
  b_errNow : time.Time
}.

Inductive connAction : Type :=
  | CFetch (req : FetchRequest)
  | CClose
  | CReply (ch : chan) (result : fetchResult).

Record executorState : Type := mkExecutorState {
  lastErr : option error;
  lastErrTime : time.Time
}.

Definition executor_start : executorState :=
  {| lastErr := None; lastErrTime := time.zero |}.

(** The body of the loop of [executeBatches]. *)
Definition executeBatch (cfg : Config) (st : executorState) (b : batch)
    : executorState * list connAction :=
  if time.Sub (b_now b) (lastErrTime st) <? Consumer_Retry_Backoff cfg then
    (st, map (fun fr => CReply (ReplyToCh fr) (mkFetchResult None (lastErr st)))
           (fetchRequests b))
  else
    let req :=
      {| MinBytes := Consumer_Fetch_Min cfg;
         MaxWaitTime := Int.int32 (Z.quot (Consumer_MaxWaitTime cfg) time.Millisecond);
         rq_blocks := [] |} in
    let req :=
      fold_left
        (fun req fr => AddBlock req (rq_Topic fr) (rq_Partition fr) (rq_Offset fr)
                         (rq_MaxBytes fr))
        (fetchRequests b) req in
    let '(res, err) := b_Fetch b req in
    let st' :=
      match err with
      | Some _ => {| lastErr := err; lastErrTime := b_errNow b |}
      | None => {| lastErr := err; lastErrTime := lastErrTime st |}
      end in
    (st',
     [CFetch req]
       ++ (match err with Some _ => [CClose] | None => [] end)
       ++ map (fun fr => CReply (ReplyToCh fr) (mkFetchResult res err)) (fetchRequests b)).

Fixpoint executeBatches (cfg : Config) (st : executorState) (batches : list batch)
    : executorState * list connAction :=
  match batches with
  | [] => (st, [])
  | b :: batches =>
      let '(st, acts) := executeBatch cfg st b in
      let '(st, trace) := executeBatches cfg st batches in
      (st, acts ++ trace)
  end.

(** ** The root consumer *)

Record consumer : Type := mkConsumer {
  config : Config;
  client : Client;
  children : gmap topicPartition partitionConsumer
}.

Definition chooseStartingOffset (c : consumer) (topic : string) (partition offset : Z)
    : Z * option error :=
  match GetOffset (client c) topic partition OffsetNewest with
  | (_, Some err) => (0, Some err)
  | (newestOffset, None) =>
    match GetOffset (client c) topic partition OffsetOldest with
    | (_, Some err) => (0, Some err)
    | (oldestOffset, None) =>
        if (offset =? OffsetNewest) || (newestOffset <? offset) then (newestOffset, None)
        else if (offset =? OffsetOldest) || (offset <? oldestOffset) then (oldestOffset, None)
        else (offset, None)
    end
  end.

(** What [ConsumePartition] returns, together with the consumer as the call
    leaves it.  The worker returned is the one whose pump has been started. *)
Record consumed : Type := mkConsumed {
  cp_consumer : consumer;
  cp_handle : option partitionConsumer;
  cp_offset : Z;
  cp_err : option error
}.

Definition ConsumePartition (c : consumer) (topic : string) (partition offset : Z)
    : consumed :=
  match chooseStartingOffset c topic partition offset with
  | (_, Some err) => mkConsumed c None OffsetNewest (Some err)
  | (concreteOffset, None) =>
      let tp := mkTopicPartition topic partition in
      match children c !! tp with
      | Some _ =>
          mkConsumed c None OffsetNewest
            (Some (ConfigurationError "That topic/partition is already being consumed"))
      | None =>
          let pc := spawnPartitionConsumer (config c) tp concreteOffset in
          mkConsumed (mkConsumer (config c) (client c) (<[tp := pc]> (children c)))
            (Some pc) concreteOffset None
      end
  end.

(** ** Notions for the statements *)

(** The messages of a block as the two loops of [parseFetchResult] visit
    them, and those of them that the worker keeps. *)
Definition blockMessages (block : FetchResponseBlock) : list MessageBlock :=
  flat_map Messages (ms_Messages (MsgSet block)).

Definition survivors (pc : partitionConsumer) (block : FetchResponseBlock)
    : list MessageBlock :=
  filter (fun msg => offset pc <= mb_Offset msg) (blockMessages block).

Definition toConsumerMessage (tp : topicPartition) (block : FetchResponseBlock)
    (msg : MessageBlock) : ConsumerMessage :=
  {| cm_Topic := topic tp;
     cm_Partition := partition tp;
     cm_Key := mb_Key msg;
     cm_Value := mb_Value msg;
     cm_Offset := mb_Offset msg;
     cm_HighWaterMark := HighWaterMarkOffset block |}.

(** A fetch result that reaches the worker's block without an error. *)
Definition carries (pc : partitionConsumer) (result : fetchResult)
    (block : FetchResponseBlock) : Prop :=
  fr_Err result = None
  /\ exists response,
       Response result = Some response
       /\ GetBlock response (topic (tp pc)) (partition (tp pc)) = Some block
       /\ Err block = NoError.

(** The request that the pump sends for a worker. *)
Definition requestOf (pc : partitionConsumer) (replyTo : chan) : fetchRequest :=
  {| rq_Topic := topic (tp pc);
     rq_Partition := partition (tp pc);
     rq_Offset := offset pc;
     rq_MaxBytes := fetchSize pc;
     rq_Lag := lag pc;
     ReplyToCh := replyTo |}.

(** The events of one poll: the request is sent, its result comes back. *)
Definition poll (r : fetchResult * time.Time * bool) : list event :=
  let '(result, now, errorsReady) := r in
  [EvSendRequest; EvFetchResult result now errorsReady].

(** The pump is bound to the executor behind [ch] and about to send it a
    request. *)
Definition armed (st : pump) (ch : chan) : Prop :=
  exited st = false
  /\ nilOrFetchResultsCh st = false
  /\ assignedFetchRequestCh st = Some ch
  /\ nilOrFetchRequestsCh st = Some ch.

(** The offsets of the messages that a fetch result holds for a partition,
    in the order in which the two loops of [parseFetchResult] visit them. *)
Definition resultOffsets (tp : topicPartition) (result : fetchResult) : list Z :=
  match Response result with
  | Some response =>
      match GetBlock response (topic tp) (partition tp) with
      | Some block => map mb_Offset (blockMessages block)
      | None => []
      end
  | None => []
  end.

Definition eventOffsets (tp : topicPartition) (ev : event) : list Z :=
  match ev with
  | EvFetchResult result _ _ => resultOffsets tp result
  | _ => []
  end.

(** The broker answers in log order: within a fetch result the offsets of the
    partition's messages increase strictly; and they lie below [bound]. *)
Definition inLogOrder (tp : topicPartition) (bound : Z) (ev : event) : Prop :=
  StronglySorted Z.lt (eventOffsets tp ev)
  /\ Forall (fun o => o < bound) (eventOffsets tp ev).

(** The messages in hand that the pump has still to push. *)
Definition pending (st : pump) : list ConsumerMessage :=
  drop (currMessageIdx st) (fetchedMessages st).

(** What holds of the pump of a worker on [tp0] that started at offset
    [start], after [k] turns in which it delivered the offsets [delivered],
    when the broker answers in log order below [bound]. *)
Record pumpInv (tp0 : topicPartition) (start bound : Z) (st : pump)
    (delivered : list Z) (k : Z) : Prop := mkPumpInv {
  inv_tp : tp (worker st) = tp0;
  inv_start : Int.MinInt64 <= start;
  inv_offset : start <= offset (worker st) <= bound + k;
  inv_sorted : StronglySorted Z.lt delivered;
  inv_from : Forall (fun o => start <= o) delivered;
  inv_below : Forall (fun o => o < offset (worker st)) delivered;
  inv_request :
    exited st = false -> nilOrFetchRequestsCh st <> None ->
    nilOrFetchResultsCh st = false /\ nilOrMessagesCh st = false;
  inv_result :
    exited st = false -> nilOrFetchResultsCh st = true -> nilOrMessagesCh st = false;
  inv_pending :
    exited st = false -> nilOrMessagesCh st = true ->
    currMessage st = pending st !! 0%nat
    /\ pending st <> []
    /\ StronglySorted Z.lt (map cm_Offset (pending st))
    /\ Forall (fun o => offset (worker st) <= o < bound) (map cm_Offset (pending st))
}.

(** The fetch size of a worker lies between [Fetch.Default] and [Fetch.Max]. *)
Definition bounded (cfg : Config) (pc : partitionConsumer) : Prop :=
  Consumer_Fetch_Default cfg <= fetchSize pc <= Consumer_Fetch_Max cfg.

(** The actions that close a channel of the worker. *)
Definition isClose (a : action) : bool :=
  match a with
  | ACloseMessages | ACloseErrors | ACloseClosed => true
  | _ => false
  end.

Definition noClose (trace : list action) : Prop :=
  Forall (fun a => isClose a = false) trace.

(** An empty message set with the partial-trailing-message flag. *)
Definition emptyPartial (block : FetchResponseBlock) : Prop :=
  ms_Messages (MsgSet block) = []
  /\ PartialTrailingMessage (MsgSet block) = true.

(** The block that a request contributes to the batched [FetchRequest]. *)
Definition blockFor (fr : fetchRequest) : fetchRequestBlock :=
  mkFetchRequestBlock (rq_Topic fr) (rq_Partition fr) (rq_Offset fr) (rq_MaxBytes fr).

(** The replies and the [Fetch] calls among the actions of an executor. *)
Definition repliesOf (acts : list connAction) : list (chan * fetchResult) :=
  flat_map (fun a => match a with CReply ch result => [(ch, result)] | _ => [] end) acts.


(** One reply with the given result to each request of a batch, in order. *)
Definition replyAll (result : fetchResult) (frs : list fetchRequest) : list connAction :=
  map (fun fr => CReply (ReplyToCh fr) result) frs.

(** ** Closing a partition consumer *)

(** [partitionConsumer.Close]: once the pump has closed its channels, the
    errors still in [errorsCh] are drained, the worker is taken out of the
    children of its consumer, and the drained errors are returned, or nil. *)
Definition partitionConsumer_Close (c : consumer) (pc : partitionConsumer)
    (drained : list ConsumerError) : consumer * option (list ConsumerError) :=
  let errors := drained in
  (mkConsumer (config c) (client c) (delete (tp pc) (children c)),
   if (0 <? length errors)%nat then Some errors else None).

(** The children of a consumer are filed under their own partition. *)
Definition wellKeyed (c : consumer) : Prop :=
  forall tp0 pc, children c !! tp0 = Some pc -> tp pc = tp0.

(** ** Batching the requests of a broker consumer

    [batchRequests] is a goroutine with a [select] of two cases: a request
    comes in on [requestsCh] (or the channel is found closed), and the batch
    is handed over on [batchRequestsCh], a case that is switched off while
    the batch is empty. *)

Inductive batcherEvent : Type :=
  | BReceive (fr : fetchRequest)
  | BRequestsClosed
  | BHandOver.

Inductive batcherAction : Type :=
  | BSend (batchRequest : list fetchRequest)
  | BCloseBatches.

Record batcher : Type := mkBatcher {
  batchRequest : list fetchRequest;
  nilOrBatchRequestCh : bool;
  returned : bool
}.

Definition batcher_start : batcher :=
  {| batchRequest := []; nilOrBatchRequestCh := false; returned := false |}.

(** One turn of the loop of [batchRequests]. *)
Definition batcherStep (ev : batcherEvent) (st : batcher)
    : option (batcher * list batcherAction) :=
  if returned st then None
  else
    match ev with
    | BReceive fr =>
        Some ({| batchRequest := batchRequest st ++ [fr];
                 nilOrBatchRequestCh := true;
                 returned := false |}, [])
    | BRequestsClosed =>
        Some ({| batchRequest := batchRequest st;
                 nilOrBatchRequestCh := nilOrBatchRequestCh st;
                 returned := true |}, [BCloseBatches])
    | BHandOver =>
        if nilOrBatchRequestCh st then
          Some ({| batchRequest := [];
                   nilOrBatchRequestCh := false;
                   returned := false |}, [BSend (batchRequest st)])
        else None
    end.

Fixpoint batcherRun (evs : list batcherEvent) (st : batcher)
    : option (batcher * list batcherAction) :=
  match evs with
  | [] => Some (st, [])
  | ev :: evs =>
      match batcherStep ev st with
      | None => None
      | Some (st, acts) =>
          match batcherRun evs st with
          | None => None
          | Some (st, trace) => Some (st, acts ++ trace)
          end
      end
  end.

(** The requests that came in, and the batches that went out. *)
Definition received (evs : list batcherEvent) : list fetchRequest :=
  flat_map (fun ev => match ev with BReceive fr => [fr] | _ => [] end) evs.

Definition handedOver (trace : list batcherAction) : list (list fetchRequest) :=
  flat_map (fun a => match a with BSend b => [b] | _ => [] end) trace.

(** The batches of requests as the executor meets them: each with the clock
    readings and the answer of the connection that go with it. *)
Definition withReadings (frs : list fetchRequest)
    (readings : time.Time * (FetchRequest -> option FetchResponse * option error)
                * time.Time) : batch :=
  {| fetchRequests := frs;
     b_now := readings.1.1;
     b_Fetch := readings.1.2;
     b_errNow := readings.2 |}.

(** The clock of the executor does not run backwards from [t] on. *)
Fixpoint clockOrdered (t : time.Time) (batches : list batch) : Prop :=
  match batches with
  | [] => True
  | b :: batches =>
      t <= b_now b /\ b_now b <= b_errNow b /\ clockOrdered (b_errNow b) batches
  end.

(** [Fetch] answers with a response or with an error, never with both and
    never with neither. *)
Definition fetchAnswers (b : batch) : Prop :=
  forall req, match b_Fetch b req with
              | (Some _, None) | (None, Some _) => True
              | _ => False
              end.

(** The hand-over is switched on exactly while the batch holds a request. *)
Definition batcherInv (st : batcher) : Prop :=
  nilOrBatchRequestCh st = true <-> batchRequest st <> [].

(** While no error is remembered, the backoff since the last one is over. *)
Definition settled (cfg : Config) (t : time.Time) (st : executorState) : Prop :=
  lastErr st = None -> Consumer_Retry_Backoff cfg <= time.Sub t (lastErrTime st).

(** A reply holds a response or an error, and not both. *)
Definition oneOfTwo (result : fetchResult) : Prop :=
  match Response result, fr_Err result with
  | Some _, None | None, Some _ => True
  | _, _ => False
  end.

(** ** More notions for the pump *)

(** Of the three steps of a poll (send the request, wait for the result,
    push the messages) at most one is switched on. *)
Definition onePhase (st : pump) : Prop :=
  (nilOrFetchRequestsCh st <> None ->
   nilOrFetchResultsCh st = false /\ nilOrMessagesCh st = false)
  /\ (nilOrFetchResultsCh st = true -> nilOrMessagesCh st = false).

(** The worker has a broker consumer or a retry timer, and not both. *)
Definition served (st : pump) : Prop :=
  nilOrReassignRetryTimerCh st = true <-> assignedFetchRequestCh st = None.

(** A topic and a partition are those of [tp0]. *)
Definition labelled (tp0 : topicPartition) (topic0 : string) (partition0 : Z) : Prop :=
  topic0 = topic tp0 /\ partition0 = partition tp0.

(** What the pump holds is labelled with the worker's partition and answers
    come back on the pump's own channel. *)
Definition ownLabels (tp0 : topicPartition) (ch : chan) (st : pump) : Prop :=
  tp (worker st) = tp0
  /\ fetchResultCh st = ch
  /\ Forall (fun m => labelled tp0 (cm_Topic m) (cm_Partition m)) (fetchedMessages st)
  /\ (forall m, currMessage st = Some m -> labelled tp0 (cm_Topic m) (cm_Partition m)).

(** The errors sent on the errors channel and the requests sent to the
    executor, in order. *)
Definition errorsSent (trace : list action) : list ConsumerError :=
  flat_map (fun a => match a with ASendError ce => [ce] | _ => [] end) trace.

Definition requestsSent (trace : list action) : list fetchRequest :=
  flat_map (fun a => match a with ASendRequest _ req => [req] | _ => [] end) trace.

(** The fetch results among the events. *)
Definition resultsReceived (evs : list event) : list fetchResult :=
  flat_map (fun ev => match ev with EvFetchResult r _ _ => [r] | _ => [] end) evs.

(** What a turn lets out is labelled with the partition [tp0] and names [ch]
    as the channel for the answer. *)
Definition labels (tp0 : topicPartition) (ch : chan) (acts : list action) : Prop :=
  Forall (fun rq => labelled tp0 (rq_Topic rq) (rq_Partition rq) /\ ReplyToCh rq = ch)
    (requestsSent acts)
  /\ Forall (fun m => labelled tp0 (cm_Topic m) (cm_Partition m)) (pushed acts)
  /\ Forall (fun ce => labelled tp0 (ce_Topic ce) (ce_Partition ce)) (errorsSent acts).

End consumer.

(** ** Go's [strconv.Atoi]

    Decimal digits after an optional sign, with a value in the range of a
    64-bit [int]; [None] stands for the error. *)

Module strconv.

Definition digit (c : Ascii.ascii) : option Z :=
  let n := Z.of_N (Ascii.N_of_ascii c) in
  if (48 <=? n) && (n <=? 57) then Some (n - 48) else None.

Fixpoint digits (s : string) (acc : Z) : option Z :=
  match s with
  | EmptyString => Some acc
  | String c rest =>
      match digit c with
      | Some d => digits rest (acc * 10 + d)
      | None => None
      end
  end.

Definition unsigned (s : string) : option Z :=
  match s with
  | EmptyString => None
  | _ => digits s 0
  end.

Definition Atoi (s : string) : option Z :=
  let value :=
    match s with
    | String c rest =>
        let n := Z.of_N (Ascii.N_of_ascii c) in
        if n =? 43 then unsigned rest              (* a leading + *)
        else if n =? 45 then Z.opp <$> unsigned rest   (* a leading - *)
        else unsigned s
    | EmptyString => unsigned s
    end in
  match value with
  | Some v => if (Int.MinInt64 <=? v) && (v <=? Int.MaxInt64) then Some v else None
  | None => None
  end.

End strconv.

(** ** The HTTP server *)

Module httpsrv.

Import consumer.

Definition prmProxy : string := "proxy".
Definition prmTopic : string := "topic".
Definition prmKey : string := "key".
Definition prmSync : string := "sync".
Definition prmGroup : string := "group".

Definition StatusOK : Z := 200.
Definition StatusBadRequest : Z := 400.
Definition StatusNotFound : Z := 404.
Definition StatusInternalServerError : Z := 500.

Inductive handler : Type :=
  | HandleProduce
  | HandleConsume
  | HandleGetOffsets
  | HandleSetOffsets
  | HandleGetTopicConsumers
  | HandlePing.

#[global] Instance handler_eq_dec : EqDecision handler.
Proof. solve_decision. Defined.

(** One call [router.HandleFunc(pattern, h).Methods(method)]. *)
Record route : Type := mkRoute {
  pattern : string;
  route_handler : handler;
  method : string
}.

(** The registrations that [New] makes, in order. *)
Definition routes : list route :=
  [ mkRoute ("/proxies/{" +:+ prmProxy +:+ "}/topics/{" +:+ prmTopic +:+ "}/messages") HandleProduce "POST";
    mkRoute ("/topics/{" +:+ prmTopic +:+ "}/messages") HandleProduce "POST";
    mkRoute ("/proxies/{" +:+ prmProxy +:+ "}/topics/{" +:+ prmTopic +:+ "}/messages") HandleProduce "POST";
    mkRoute ("/topics/{" +:+ prmTopic +:+ "}/messages") HandleProduce "POST";
    mkRoute ("/proxies/{" +:+ prmProxy +:+ "}/topics/{" +:+ prmTopic +:+ "}/messages") HandleProduce "POST";
    mkRoute ("/topics/{" +:+ prmTopic +:+ "}/messages") HandleConsume "GET";
    mkRoute ("/proxies/{" +:+ prmProxy +:+ "}/topics/{" +:+ prmTopic +:+ "}/messages") HandleConsume "GET";
    mkRoute ("/topics/{" +:+ prmTopic +:+ "}/offsets") HandleGetOffsets "GET";
    mkRoute ("/proxies/{" +:+ prmProxy +:+ "}/topics/{" +:+ prmTopic +:+ "}/offsets") HandleGetOffsets "GET";
    mkRoute ("/topics/{" +:+ prmTopic +:+ "}/offsets") HandleSetOffsets "POST";
    mkRoute ("/proxies/{" +:+ prmProxy +:+ "}/topics/{" +:+ prmTopic +:+ "}/offsets") HandleSetOffsets "POST";
    mkRoute ("/topics/{" +:+ prmTopic +:+ "}/consumers") HandleGetTopicConsumers "GET";
    mkRoute ("/proxies/{" +:+ prmProxy +:+ "}/topics/{" +:+ prmTopic +:+ "}/consumers") HandleGetTopicConsumers "GET";
    mkRoute "/_ping" HandlePing "GET" ].

(** How many registrations carry a given pattern and method. *)
Definition registrations (pat meth : string) (rs : list route) : nat :=
  length (filter (fun r => pattern r = pat /\ method r = meth) rs).

(** What a handler reads of a request: the variables of the matched route and
    the parsed form. *)
Record Request : Type := mkRequest {
  Vars : gmap string string;
  Form : gmap string (list string)
}.



Record consumeHTTPResponse : Type := mkConsumeHTTPResponse {
  Key : bytes;
  Value : bytes;
  Partition : Z;
  Offset : Z
}.

(** The body handed to [respondWithJSON]; [errorHTTPResponse err] stands for
    the response whose text is [err.Error()]. *)
Inductive body : Type :=
  | errorHTTPResponse (err : error)
  | consumeBody (r : consumeHTTPResponse).

Record response : Type := mkResponse {
  status : Z;
  resp_body : body
}.



Definition getGroupParam (r : Request) (opt : bool) : string + error :=
  let groups := default [] (Form r !! prmGroup) in
  if (1 <? length groups)%nat || (negb opt && (length groups =? 0)%nat) then
    inr (OtherError ("one consumer group is expected, but "
                       +:+ pretty (length groups) +:+ " provided"))
  else
    match groups with
    | [] => inl ""
    | g :: _ => inl g
    end.



(** ** The other handlers *)

Definition hdrContentLength : string := "Content-Length".
Definition hdrContentType : string := "Content-Type".

(** A request with its headers and with what [ioutil.ReadAll] makes of its
    body. *)
Record fullRequest : Type := mkFullRequest {
  base : Request;
  Header : gmap string (list string);
  Body : bytes + error
}.

(** [http.Header.Get] of a key that is in canonical form. *)
Definition Header_Get (h : gmap string (list string)) (key : string) : string :=
  match h !! key with
  | Some (v :: _) => v
  | _ => ""
  end.

(** A [sarama.Encoder]: nil, or a [StringEncoder] of some bytes. *)
Definition Encoder : Type := option bytes.

Definition StringEncoder (b : bytes) : Encoder := Some b.

(** [getParamBytes]: a slice of bytes, or nil ([None]). *)
Definition getParamBytes (r : Request) (name : string) : option bytes :=
  match Form r !! name with
  | None => None
  | Some [] => None
  | Some (v :: _) => Some (String.list_byte_of_string v)
  end.

Definition toEncoderPreservingNil (b : option bytes) : Encoder :=
  match b with
  | Some b => StringEncoder b
  | None => None
  end.

(** The fields of a produced message that the produce handler reads. *)
Record produced : Type := mkProduced {
  pm_Partition : Z;                  (* int32 *)
  pm_Offset : Z                      (* int64 *)
}.

(** [admin.PartitionOffset], as far as the handlers use it. *)
Record PartitionOffset : Type := mkPartitionOffset {
  po_Partition : Z;                  (* int32 *)
  po_Begin : Z;                      (* int64 *)
  po_End : Z;                        (* int64 *)
  po_Offset : Z;                     (* int64 *)
  po_Metadata : string
}.

Record partitionOffsetView : Type := mkPartitionOffsetView {
  pov_Partition : Z;
  pov_Begin : Z;
  pov_End : Z;
  pov_Count : Z;
  pov_Offset : Z;
  pov_Lag : Z;
  pov_Metadata : string;
  pov_SparseAcks : string
}.

(** The methods of a proxy that the other handlers call and whose answer they
    read.  [AsyncProduce] returns nothing: it appears among the calls only. *)
Record proxyOps : Type := mkProxyOps {
  Produce : string -> Encoder -> Encoder -> produced + error;
  GetGroupOffsets : string -> string -> list PartitionOffset + error;
  SetGroupOffsets : string -> string -> list PartitionOffset -> option error;
  GetAllTopicConsumers : string -> gmap string (gmap string (list Z)) + error;
  GetTopicConsumers : string -> string -> gmap string (list Z) + error
}.

(** The calls on the proxy that change something. *)
Inductive proxyCall : Type :=
  | CallAsyncProduce (topic : string) (key message : Encoder)
  | CallProduce (topic : string) (key message : Encoder)
  | CallSetGroupOffsets (group topic : string) (offsets : list PartitionOffset).

(** What the handlers need from the packages whose sources are not at hand:
    whether an error is an [admin.ErrQuery], and then its cause; whether it is
    an [admin.ErrInvalidParam]; the text that [offsettrac.SparseAcks2Str]
    makes of an offset and its metadata; what [json.Unmarshal] makes of the
    body of a request to set offsets. *)
Record environment : Type := mkEnvironment {
  asErrQuery : error -> option error;
  isErrInvalidParam : error -> bool;
  SparseAcks2Str : Z -> string -> string;
  Unmarshal : bytes -> list partitionOffsetView + error
}.

(** The body of an answer. *)
Inductive payload : Type :=
  | errorText (text : string)
  | errorOf (err : error)
  | errorReading (prefix : string) (err : error)
  | EmptyResponse
  | produceHTTPResponse (partition offset : Z)
  | offsetViews (views : list partitionOffsetView)
  | consumersJSON (consumers : gmap string (gmap string (list Z)))
  | pong.

Record answer : Type := mkAnswer {
  a_status : Z;
  a_payload : payload
}.

Definition getProxyOps (proxySet : string -> proxyOps + error) (r : Request)
    : proxyOps + error :=
  let pxyAlias := default "" (Vars r !! prmProxy) in
  proxySet pxyAlias.

Definition handleProduce (proxySet : string -> proxyOps + error) (r : fullRequest)
    : answer * list proxyCall :=
  match getProxyOps proxySet (base r) with
  | inr err => (mkAnswer StatusBadRequest (errorOf err), [])
  | inl pxy =>
      let topic := default "" (Vars (base r) !! prmTopic) in
      let key := getParamBytes (base r) prmKey in
      let isSync := match Form (base r) !! prmSync with Some _ => true | None => false end in
      match Header r !! hdrContentLength with
      | None =>
          (mkAnswer StatusBadRequest
             (errorText ("Missing " +:+ hdrContentLength +:+ " header")), [])
      | Some _ =>
          let messageSizeStr := Header_Get (Header r) hdrContentLength in
          match strconv.Atoi messageSizeStr with
          | None =>
              (mkAnswer StatusBadRequest
                 (errorText ("Invalid " +:+ hdrContentLength +:+ " header: "
                               +:+ messageSizeStr)), [])
          | Some messageSize =>
              match Body r with
              | inr err =>
                  (mkAnswer StatusBadRequest
                     (errorReading "Failed to read a message: err=" err), [])
              | inl message =>
                  if negb (Z.of_nat (length message) =? messageSize) then
                    (mkAnswer StatusBadRequest
                       (errorText ("Message size does not match " +:+ hdrContentLength
                                     +:+ ": expected=" +:+ pretty messageSize
                                     +:+ ", actual=" +:+ pretty (length message))), [])
                  else if negb isSync then
                    (mkAnswer StatusOK EmptyResponse,
                     [CallAsyncProduce topic (toEncoderPreservingNil key)
                        (StringEncoder message)])
                  else
                    let call := CallProduce topic (toEncoderPreservingNil key)
                                  (StringEncoder message) in
                    match Produce pxy topic (toEncoderPreservingNil key)
                            (StringEncoder message) with
                    | inr err =>
                        let status :=
                          if decide (err = sarama.ErrUnknownTopicOrPartition)
                          then StatusNotFound else StatusInternalServerError in
                        (mkAnswer status (errorOf err), [call])
                    | inl prodMsg =>
                        (mkAnswer StatusOK
                           (produceHTTPResponse (pm_Partition prodMsg) (pm_Offset prodMsg)),
                         [call])
                    end
              end
          end
      end
  end.

(** The answer of the offset handlers to an error of the proxy. *)
Definition offsetsError (env : environment) (err : error) : answer :=
  match asErrQuery env err with
  | Some cause =>
      if decide (cause = sarama.ErrUnknownTopicOrPartition) then
        mkAnswer StatusNotFound (errorText "Unknown topic")
      else mkAnswer StatusInternalServerError (errorOf err)
  | None => mkAnswer StatusInternalServerError (errorOf err)
  end.

(** The body of the loop of [handleGetOffsets]. *)
Definition offsetView (env : environment) (po : PartitionOffset) : partitionOffsetView :=
  {| pov_Partition := po_Partition po;
     pov_Begin := po_Begin po;
     pov_End := po_End po;
     pov_Count := Int.int64 (po_End po - po_Begin po);
     pov_Offset := po_Offset po;
     pov_Lag :=
       if po_Offset po =? sarama.OffsetNewest then 0
       else if po_Offset po =? sarama.OffsetOldest then
         Int.int64 (po_End po - po_Begin po)
       else Int.int64 (po_End po - po_Offset po);
     pov_Metadata := po_Metadata po;
     pov_SparseAcks := SparseAcks2Str env (po_Offset po) (po_Metadata po) |}.

Definition handleGetOffsets (env : environment) (proxySet : string -> proxyOps + error)
    (r : fullRequest) : answer :=
  match getProxyOps proxySet (base r) with
  | inr err => mkAnswer StatusBadRequest (errorOf err)
  | inl pxy =>
      let topic := default "" (Vars (base r) !! prmTopic) in
      match getGroupParam (base r) false with
      | inr err => mkAnswer StatusBadRequest (errorOf err)
      | inl group =>
          match GetGroupOffsets pxy group topic with
          | inr err => offsetsError env err
          | inl partitionOffsets =>
              mkAnswer StatusOK (offsetViews (map (offsetView env) partitionOffsets))
          end
      end
  end.

(** The body of the second loop of [handleSetOffsets]. *)
Definition viewOffset (pov : partitionOffsetView) : PartitionOffset :=
  {| po_Partition := pov_Partition pov;
     po_Begin := 0;
     po_End := 0;
     po_Offset := pov_Offset pov;
     po_Metadata := pov_Metadata pov |}.

Definition handleSetOffsets (env : environment) (proxySet : string -> proxyOps + error)
    (r : fullRequest) : answer * list proxyCall :=
  match getProxyOps proxySet (base r) with
  | inr err => (mkAnswer StatusBadRequest (errorOf err), [])
  | inl pxy =>
      let topic := default "" (Vars (base r) !! prmTopic) in
      match getGroupParam (base r) false with
      | inr err => (mkAnswer StatusBadRequest (errorOf err), [])
      | inl group =>
          match Body r with
          | inr err =>
              (mkAnswer StatusBadRequest
                 (errorReading "Failed to read the request: err=" err), [])
          | inl body =>
              match Unmarshal env body with
              | inr err =>
                  (mkAnswer StatusBadRequest
                     (errorReading "Failed to parse the request: err=" err), [])
              | inl partitionOffsetViews =>
                  let partitionOffsets := map viewOffset partitionOffsetViews in
                  let call := CallSetGroupOffsets group topic partitionOffsets in
                  match SetGroupOffsets pxy group topic partitionOffsets with
                  | Some err => (offsetsError env err, [call])
                  | None => (mkAnswer StatusOK EmptyResponse, [call])
                  end
              end
          end
      end
  end.

(** [handleGetTopicConsumers] writes its answer itself; [json.MarshalIndent] of
    a map of maps of slices of [int32] is taken not to fail. *)
Definition handleGetTopicConsumers (env : environment)
    (proxySet : string -> proxyOps + error) (r : fullRequest) : answer :=
  match getProxyOps proxySet (base r) with
  | inr err => mkAnswer StatusBadRequest (errorOf err)
  | inl pxy =>
      let topic := default "" (Vars (base r) !! prmTopic) in
      match getGroupParam (base r) true with
      | inr err => mkAnswer StatusBadRequest (errorOf err)
      | inl group =>
          if decide (group = "") then
            match GetAllTopicConsumers pxy topic with
            | inr err => mkAnswer StatusInternalServerError (errorOf err)
            | inl consumers => mkAnswer StatusOK (consumersJSON consumers)
            end
          else
            match GetTopicConsumers pxy group topic with
            | inr err =>
                if isErrInvalidParam env err then
                  mkAnswer StatusBadRequest (errorOf err)
                else mkAnswer StatusInternalServerError (errorOf err)
            | inl groupConsumers =>
                let consumers : gmap string (gmap string (list Z)) :=
                  if (size groupConsumers =? 0)%nat then ∅
                  else {[ group := groupConsumers ]} in
                mkAnswer StatusOK (consumersJSON consumers)
            end
      end
  end.

(** A produce request passes the checks of [handleProduce] with the message
    [message]: the proxy is found, the [Content-Length] header is there and
    is a number, the body can be read and has that many bytes. *)
Definition accepted (proxySet : string -> proxyOps + error) (r : fullRequest)
    (message : bytes) : Prop :=
  (exists pxy, getProxyOps proxySet (base r) = inl pxy)
  /\ is_Some (Header r !! hdrContentLength)
  /\ Body r = inl message
  /\ strconv.Atoi (Header_Get (Header r) hdrContentLength)
       = Some (Z.of_nat (length message)).

(** The values of the group parameter of a request. *)
Definition groupsOf (r : Request) : list string := default [] (Form r !! prmGroup).

(** The registration of the same handler under a named proxy. *)
Definition underProxy (r : route) : route :=
  mkRoute ("/proxies/{" +:+ prmProxy +:+ "}" +:+ pattern r) (route_handler r) (method r).

Definition handlePing : answer := mkAnswer StatusOK pong.

End httpsrv.

(** * Sample inputs *)

Module samples.

Import sarama consumer httpsrv.




(** A partition that holds the offsets 10 to 19, and a consumer with no
    worker yet. *)
Definition tenToTwenty : Client :=
  {| GetOffset := fun _ _ time =>
       if time =? OffsetNewest then (20, None) else (10, None) |}.

Definition sampleConfig : Config :=
  {| Consumer_Fetch_Min := 1;
     Consumer_Fetch_Default := 1024;
     Consumer_Fetch_Max := 4096;
     Consumer_Retry_Backoff := 2000000000;
     Consumer_MaxWaitTime := 250000000;
     Consumer_Return_Errors := true;
     ChannelBufferSize := 256 |}.

(** [Fetch.Default] above [Fetch.Max]. *)
Definition shrunkConfig : Config :=
  {| Consumer_Fetch_Min := 1;
     Consumer_Fetch_Default := 1024;
     Consumer_Fetch_Max := 512;
     Consumer_Retry_Backoff := 2000000000;
     Consumer_MaxWaitTime := 250000000;
     Consumer_Return_Errors := true;
     ChannelBufferSize := 256 |}.

(** Fetch sizes in the upper half of the positive [int32] range. *)
Definition hugeConfig : Config :=
  {| Consumer_Fetch_Min := 1;
     Consumer_Fetch_Default := 1073741825;
     Consumer_Fetch_Max := 2147483647;
     Consumer_Retry_Backoff := 2000000000;
     Consumer_MaxWaitTime := 250000000;
     Consumer_Return_Errors := true;
     ChannelBufferSize := 256 |}.

Definition unboundedConfig : Config :=
  {| Consumer_Fetch_Min := 1;
     Consumer_Fetch_Default := 32768;
     Consumer_Fetch_Max := 0;
     Consumer_Retry_Backoff := 2000000000;
     Consumer_MaxWaitTime := 250000000;
     Consumer_Return_Errors := true;
     ChannelBufferSize := 256 |}.

(** A worker on partition 0 of topic [t]. *)
Definition workerAt (offset fetchSize : Z) : partitionConsumer :=
  {| tp := mkTopicPartition "t" 0; fetchSize := fetchSize; offset := offset; lag := 0 |}.

(** A successful fetch result with one block, for partition 0 of topic [t]. *)
Definition resultOf (block : FetchResponseBlock) : fetchResult :=
  {| Response := Some {| Blocks := {[ "t" := {[ 0 := block ]} ]} |};
     fr_Err := None |}.

(** A block with no message and the partial-trailing-message flag. *)
Definition partialBlock : FetchResponseBlock :=
  {| Err := NoError;
     HighWaterMarkOffset := 20;
     MsgSet := {| PartialTrailingMessage := true; ms_Messages := [] |} |}.

(** A block that carries the Kafka error "offset out of range". *)
Definition outOfRangeBlock : FetchResponseBlock :=
  {| Err := OffsetOutOfRange;
     HighWaterMarkOffset := 0;
     MsgSet := {| PartialTrailingMessage := false; ms_Messages := [] |} |}.

Definition plainMessage (offset : Z) : MessageBlock :=
  {| mb_Offset := offset; mb_Key := []; mb_Value := []; mb_Set := None |}.

(** A block with the plain messages of the given offsets. *)
Definition blockOf (hwm : Z) (offsets : list Z) : FetchResponseBlock :=
  {| Err := NoError;
     HighWaterMarkOffset := hwm;
     MsgSet := {| PartialTrailingMessage := false;
                  ms_Messages := map plainMessage offsets |} |}.

(** The pump of a worker at offset 10, bound to the executor behind channel
    7 and about to send its first request. *)
Definition armedPump (cfg : Config) : pump :=
  with_requests (Some 7%nat)
    (with_assigned (Some 7%nat)
       (pullMessages_start (spawnPartitionConsumer cfg (mkTopicPartition "t" 0) 10)
          1%nat)).

Definition freshConsumer : consumer :=
  {| config := sampleConfig; client := tenToTwenty; children := ∅ |}.

(** A proxy that produces every message into partition 0 at offset 42,
    keeps the offsets of two partitions for every group, and knows one
    member of every group. *)
Definition sampleOffsets : list PartitionOffset :=
  [ mkPartitionOffset 0 10 20 15 "m0"; mkPartitionOffset 1 0 5 OffsetNewest "" ].

Definition sampleOps : proxyOps :=
  {| Produce := fun _ _ _ => inl (mkProduced 0 42);
     GetGroupOffsets := fun _ _ => inl sampleOffsets;
     SetGroupOffsets := fun _ _ _ => None;
     GetAllTopicConsumers := fun _ => inl ∅;
     GetTopicConsumers := fun _ _ => inl {[ "member" := [0; 1] ]} |}.

Definition sampleProxies : string -> proxyOps + error := fun _ => inl sampleOps.

(** An environment in which no error is a query error or an invalid
    parameter, and every body decodes to the views of [sampleOffsets]. *)
Definition sampleEnvironment : environment :=
  {| asErrQuery := fun _ => None;
     isErrInvalidParam := fun _ => false;
     SparseAcks2Str := fun _ _ => "";
     Unmarshal := fun _ =>
       inl (map (offsetView {| asErrQuery := fun _ => None;
                               isErrInvalidParam := fun _ => false;
                               SparseAcks2Str := fun _ _ => "";
                               Unmarshal := fun _ => inl [] |}) sampleOffsets) |}.

(** [POST /topics/t/messages?sync&key=k] with the body [hello]. *)
Definition produceRequest : fullRequest :=
  {| base := {| Vars := {[ prmTopic := "t" ]};
                Form := {[ prmSync := [""]; prmKey := ["k"] ]} |};
     Header := {[ hdrContentLength := ["5"] ]};
     Body := inl (String.list_byte_of_string "hello") |}.

(** A request on [/topics/t/offsets] or [/topics/t/consumers] for group [g]. *)
Definition groupRequest : fullRequest :=
  {| base := {| Vars := {[ prmTopic := "t" ]};
                Form := {[ prmGroup := ["g"] ]} |};
     Header := ∅;
     Body := inl [] |}.

(** Three requests with the reply channels 1, 2 and 3; the first two arrive
    before the executor takes a batch, the third after, and then the requests
    channel is closed. *)
Definition requestFrom (replyTo : chan) : fetchRequest :=
  requestOf (workerAt 10 1024) replyTo.

Definition sampleArrivals : list batcherEvent :=
  [BReceive (requestFrom 1%nat); BReceive (requestFrom 2%nat); BHandOver;
   BReceive (requestFrom 3%nat); BRequestsClosed].

(** A clock far from the zero time, and three batches: a fetch that fails, a
    batch within the backoff, and a fetch that succeeds after it. *)
Definition sampleNow : time.Time := 63000000000000000000.

Definition sampleBatches : list batch :=
  [ {| fetchRequests := [requestFrom 1%nat; requestFrom 2%nat];
       b_now := sampleNow;
       b_Fetch := fun _ => (None, Some (OtherError "broken pipe"));
       b_errNow := sampleNow + 1 |};
    {| fetchRequests := [requestFrom 3%nat];
       b_now := sampleNow + 5;
       b_Fetch := fun _ => (Some {| Blocks := ∅ |}, None);
       b_errNow := sampleNow + 5 |};
    {| fetchRequests := [requestFrom 1%nat];
       b_now := sampleNow + 3000000000;
       b_Fetch := fun _ => (Some {| Blocks := ∅ |}, None);
       b_errNow := sampleNow + 3000000000 |} ].

(** A configuration in which the user does not ask for errors. *)
Definition quietConfig : Config :=
  {| Consumer_Fetch_Min := 1;
     Consumer_Fetch_Default := 1024;
     Consumer_Fetch_Max := 4096;
     Consumer_Retry_Backoff := 2000000000;
     Consumer_MaxWaitTime := 250000000;
     Consumer_Return_Errors := false;
     ChannelBufferSize := 256 |}.

(** The pump of [armedPump] after it has sent its request. *)
Definition waitingPump (cfg : Config) : pump :=
  with_results true (with_requests None (armedPump cfg)).

(** A poll that brings the messages 10, 11 and 12, and their delivery. *)
Definition deliveryRun : list event :=
  [EvAssignment (Some 7%nat) 0; EvSendRequest;
   EvFetchResult (resultOf (blockOf 20 [10; 11; 12])) 0 true;
   EvPushMessage; EvPushMessage; EvPushMessage].

(** A poll whose answer is "offset out of range". *)
Definition outOfRangeRun : list event :=
  [EvAssignment (Some 7%nat) 0; EvSendRequest;
   EvFetchResult (resultOf outOfRangeBlock) 0 true].

Definition sampleStart (cfg : Config) : pump :=
  pullMessages_start (spawnPartitionConsumer cfg (mkTopicPartition "t" 0) 10) 1%nat.

End samples.

(** * Properties *)

(** ** Fixed-width arithmetic *)

Lemma int32_id x : Int.is_int32 x -> Int.int32 x = x.
Proof.
  unfold Int.is_int32, Int.MinInt32, Int.MaxInt32, Int.int32, Int.wrap. intros H.
  change (2 ^ (32 - 1)) with 2147483648. change (2 ^ 32) with 4294967296.
  change (2 ^ 31) with 2147483648 in H.
  rewrite Z.mod_small by lia. lia.
Qed.

Lemma int64_id x : Int.is_int64 x -> Int.int64 x = x.
Proof.
  unfold Int.is_int64, Int.MinInt64, Int.MaxInt64, Int.int64, Int.wrap. intros H.
  change (2 ^ (64 - 1)) with 9223372036854775808.
  change (2 ^ 64) with 18446744073709551616.
  change (2 ^ 63) with 9223372036854775808 in H.
  rewrite Z.mod_small by lia. lia.
Qed.

Lemma int32_range x : Int.is_int32 (Int.int32 x).
Proof.
  unfold Int.is_int32, Int.MinInt32, Int.MaxInt32, Int.int32, Int.wrap.
  change (2 ^ (32 - 1)) with 2147483648. change (2 ^ 32) with 4294967296.
  change (2 ^ 31) with 2147483648.
  pose proof (Z.mod_pos_bound (x + 2147483648) 4294967296 ltac:(lia)). lia.
Qed.

Lemma int64_range x : Int.is_int64 (Int.int64 x).
Proof.
  unfold Int.is_int64, Int.MinInt64, Int.MaxInt64, Int.int64, Int.wrap.
  change (2 ^ (64 - 1)) with 9223372036854775808.
  change (2 ^ 64) with 18446744073709551616.
  change (2 ^ 63) with 9223372036854775808.
  pose proof (Z.mod_pos_bound (x + 9223372036854775808)
                18446744073709551616 ltac:(lia)). lia.
Qed.

(** Wrapping is compatible with multiplication by a constant: doubling a
    wrapped value and wrapping again is wrapping the doubled value. *)
Lemma int32_mul_idemp x k : Int.int32 (Int.int32 x * k) = Int.int32 (x * k).
Proof.
  unfold Int.int32, Int.wrap.
  change (2 ^ (32 - 1)) with 2147483648. change (2 ^ 32) with 4294967296.
  f_equal.
  replace (((x + 2147483648) mod 4294967296 - 2147483648) * k + 2147483648)
    with (((x + 2147483648) mod 4294967296) * k + (2147483648 - 2147483648 * k))
    by lia.
  replace (x * k + 2147483648)
    with ((x + 2147483648) * k + (2147483648 - 2147483648 * k)) by lia.
  rewrite Z.add_mod by lia.
  rewrite Z.mul_mod_idemp_l by lia.
  rewrite <- Z.add_mod by lia. reflexivity.
Qed.

(** ** The route table *)

Section Routes.

Import httpsrv.

(** C9. [New] registers some (pattern, method) pairs more than once: the
    produce route under [/proxies] three times with POST and the produce
    route under [/topics] twice with POST; every registration that shares its
    pattern and method with another one is one of these two. *)
Theorem routes_registered_more_than_once :
  registrations "/proxies/{proxy}/topics/{topic}/messages" "POST" routes = 3%nat
  /\ registrations "/topics/{topic}/messages" "POST" routes = 2%nat
  /\ (exists pat meth, (2 <= registrations pat meth routes)%nat)
  /\ (forall r, In r routes ->
        (2 <= registrations (pattern r) (method r) routes)%nat ->
        method r = "POST" /\ route_handler r = HandleProduce
        /\ (pattern r = "/proxies/{proxy}/topics/{topic}/messages"
            \/ pattern r = "/topics/{topic}/messages")).
Proof.
  split; [vm_compute; reflexivity|].
  split; [vm_compute; reflexivity|].
  split.
  - exists "/topics/{topic}/messages", "POST". vm_compute. lia.
  - intros r Hin Hdup. unfold routes in Hin. simpl in Hin.
    repeat (destruct Hin as [<- | Hin];
            [ first [ vm_compute in Hdup; lia
                    | vm_compute; repeat split; auto ] | ]).
    destruct Hin.
Qed.

End Routes.

(** ** The consume handler *)

Section HandleConsume.

Import sarama consumer httpsrv.






End HandleConsume.

(** ** The starting offset *)

Section StartingOffset.

Import sarama consumer.

Lemma chooseStartingOffset_queried c topic partition offset newest oldest :
  GetOffset (client c) topic partition OffsetNewest = (newest, None) ->
  GetOffset (client c) topic partition OffsetOldest = (oldest, None) ->
  chooseStartingOffset c topic partition offset =
    (if (offset =? OffsetNewest) || (newest <? offset) then newest
     else if (offset =? OffsetOldest) || (offset <? oldest) then oldest
     else offset, None).
Proof.
  intros Hn Ho. unfold chooseStartingOffset. rewrite Hn, Ho.
  destruct ((offset =? OffsetNewest) || (newest <? offset)); [reflexivity|].
  destruct ((offset =? OffsetOldest) || (offset <? oldest)); reflexivity.
Qed.

(** C2. When both offset queries succeed, [chooseStartingOffset] returns the
    newest offset for [OffsetNewest] and for a request above the newest
    offset; failing that, the oldest offset for [OffsetOldest] and for a
    request below the oldest offset; and the request itself otherwise.  On a
    partition whose offsets are ordered (0 <= oldest <= newest) the second
    case needs no proviso but that the request is not the constant
    [OffsetNewest].  [ConsumePartition] hands this offset to its caller, and
    the worker it spawns and registers starts at this offset. *)
Theorem chooseStartingOffset_cases c topic partition offset newest oldest :
  GetOffset (client c) topic partition OffsetNewest = (newest, None) ->
  GetOffset (client c) topic partition OffsetOldest = (oldest, None) ->
  let chosen := chooseStartingOffset c topic partition offset in
  let first := offset = OffsetNewest \/ newest < offset in
  let second := offset = OffsetOldest \/ offset < oldest in
  snd chosen = None
  /\ (first -> fst chosen = newest)
  /\ (~ first -> second -> fst chosen = oldest)
  /\ (0 <= oldest <= newest -> offset <> OffsetNewest -> second ->
        fst chosen = oldest)
  /\ (~ first -> ~ second -> fst chosen = offset)
  /\ (children c !! mkTopicPartition topic partition = None ->
      forall fetchResultCh,
      let r := ConsumePartition c topic partition offset in
      cp_err r = None
      /\ cp_offset r = fst chosen
      /\ exists pc,
           cp_handle r = Some pc
           /\ consumer.offset pc = fst chosen
           /\ consumer.offset (worker (pullMessages_start pc fetchResultCh))
                = fst chosen
           /\ children (cp_consumer r) !! mkTopicPartition topic partition
                = Some pc).
Proof.
  intros Hn Ho chosen first second.
  assert (Hc : chosen =
                 (if (offset =? OffsetNewest) || (newest <? offset) then newest
                  else if (offset =? OffsetOldest) || (offset <? oldest) then oldest
                  else offset, None))
    by (apply chooseStartingOffset_queried; assumption).
  assert (Hfirst : first <-> (offset =? OffsetNewest) || (newest <? offset) = true).
  { unfold first. rewrite orb_true_iff, Z.eqb_eq, Z.ltb_lt. reflexivity. }
  assert (Hsecond : second <-> (offset =? OffsetOldest) || (offset <? oldest) = true).
  { unfold second. rewrite orb_true_iff, Z.eqb_eq, Z.ltb_lt. reflexivity. }
  assert (H2 : ~ first -> second -> fst chosen = oldest).
  { intros H1 H2. rewrite Hc. apply Hsecond in H2. rewrite H2.
    destruct ((offset =? OffsetNewest) || (newest <? offset)) eqn:E; [|reflexivity].
    exfalso. apply H1, Hfirst. reflexivity. }
  split; [rewrite Hc; reflexivity|].
  split; [intros H1; apply Hfirst in H1; rewrite Hc, H1; reflexivity|].
  split; [exact H2|].
  split.
  { intros Hrange Hne Hs. apply H2; [|exact Hs].
    unfold first, second, OffsetNewest, OffsetOldest in *. lia. }
  split.
  { intros H1 H3. rewrite Hc.
    destruct ((offset =? OffsetNewest) || (newest <? offset)) eqn:E1;
      [exfalso; apply H1, Hfirst; reflexivity|].
    destruct ((offset =? OffsetOldest) || (offset <? oldest)) eqn:E2;
      [exfalso; apply H3, Hsecond; reflexivity|].
    reflexivity. }
  intros Hfree fetchResultCh r.
  unfold r, ConsumePartition. fold chosen. rewrite Hc. cbn [fst snd].
  rewrite Hfree. cbn.
  repeat split.
  eexists. repeat split. apply lookup_insert_eq.
Qed.

Lemma chooseStartingOffset_cases_witness :
  fst (chooseStartingOffset samples.freshConsumer "t" 0 OffsetOldest) = 10
  /\ cp_offset (ConsumePartition samples.freshConsumer "t" 0 OffsetOldest) = 10.
Proof.
  pose proof (chooseStartingOffset_cases samples.freshConsumer "t" 0 OffsetOldest
                20 10 eq_refl eq_refl) as H.
  cbv zeta in H.
  destruct H as (_ & _ & Hold & _ & _ & Hcp).
  split.
  - apply Hold; [|left; reflexivity].
    unfold OffsetOldest, OffsetNewest. lia.
  - destruct (Hcp eq_refl 0%nat) as (_ & Hoff & _). rewrite Hoff.
    apply Hold; [|left; reflexivity].
    unfold OffsetOldest, OffsetNewest. lia.
Defined.

End StartingOffset.

(** ** Parsing a fetch result *)

Section ParseFetchResult.

Import sarama consumer.

Variable cfg : Config.

(** The inner loop keeps the worker's offset, fetch size and partition, and
    appends the messages it keeps. *)
Lemma fold_parseMessage block msgs pc acc :
  exists pc',
    fold_left (parseMessage block) msgs (pc, acc)
      = (pc', acc ++ map (toConsumerMessage (tp pc) block)
                       (filter (fun msg => offset pc <= mb_Offset msg) msgs))
    /\ offset pc' = offset pc /\ fetchSize pc' = fetchSize pc /\ tp pc' = tp pc.
Proof.
  revert pc acc. induction msgs as [|msg msgs IH]; intros pc acc.
  - exists pc. cbn. rewrite app_nil_r. auto.
  - cbn [fold_left]. unfold parseMessage at 2. rewrite filter_cons.
    destruct (Z.ltb_spec (mb_Offset msg) (offset pc)) as [Hlt|Hge].
    + destruct (decide (offset pc <= mb_Offset msg)) as [Hle|_]; [lia|].
      apply IH.
    + destruct (decide (offset pc <= mb_Offset msg)) as [_|Hn]; [|lia].
      match goal with
      | |- context [fold_left _ msgs (?pc1, ?acc1)] =>
          destruct (IH pc1 acc1) as (pc' & Heq & Ho & Hf & Ht)
      end.
      exists pc'. rewrite Heq. cbn in *. rewrite <- app_assoc. auto.
Qed.

Lemma fold_parseMessages block blocks pc acc :
  exists pc',
    fold_left (fun st msgBlock => fold_left (parseMessage block) (Messages msgBlock) st)
      blocks (pc, acc)
      = (pc', acc ++ map (toConsumerMessage (tp pc) block)
                       (filter (fun msg => offset pc <= mb_Offset msg)
                          (flat_map Messages blocks)))
    /\ offset pc' = offset pc /\ fetchSize pc' = fetchSize pc /\ tp pc' = tp pc.
Proof.
  revert pc acc. induction blocks as [|b blocks IH]; intros pc acc.
  - exists pc. cbn. rewrite app_nil_r. auto.
  - cbn [fold_left flat_map].
    destruct (fold_parseMessage block (Messages b) pc acc) as (pc1 & H1 & Ho1 & Hf1 & Ht1).
    rewrite H1.
    destruct (IH pc1 (acc ++ map (toConsumerMessage (tp pc) block)
                        (filter (fun msg => offset pc <= mb_Offset msg) (Messages b))))
      as (pc2 & H2 & Ho2 & Hf2 & Ht2).
    exists pc2. rewrite H2, Ho1, Ht1.
    rewrite filter_app, map_app, app_assoc.
    repeat split; congruence.
Qed.

Lemma parseMessages_survivors block pc :
  exists pc',
    parseMessages block pc = (pc', map (toConsumerMessage (tp pc) block) (survivors pc block))
    /\ offset pc' = offset pc /\ fetchSize pc' = fetchSize pc /\ tp pc' = tp pc.
Proof.
  unfold parseMessages, survivors, blockMessages.
  destruct (fold_parseMessages block (ms_Messages (MsgSet block)) pc [])
    as (pc' & H & Hrest).
  exists pc'. rewrite H. auto.
Qed.

(** The result of parsing once the worker's block has been reached. *)
Lemma parseFetchResult_block pc result block :
  carries pc result block ->
  parseFetchResult cfg pc result =
    if (length (ms_Messages (MsgSet block)) =? 0)%nat then
      if PartialTrailingMessage (MsgSet block) then
        if (0 <? Consumer_Fetch_Max cfg) && (fetchSize pc =? Consumer_Fetch_Max cfg) then
          mkParsed (set_offset (Int.int64 (offset pc + 1)) pc) [ErrMessageTooLarge] [] None
        else
          mkParsed
            (set_fetchSize
               (if (0 <? Consumer_Fetch_Max cfg)
                   && (Consumer_Fetch_Max cfg <? Int.int32 (fetchSize pc * 2))
                then Consumer_Fetch_Max cfg else Int.int32 (fetchSize pc * 2)) pc)
            [] [] None
      else mkParsed pc [] [] None
    else
      let '(pc', fetchedMessages) :=
        parseMessages block (set_fetchSize (Consumer_Fetch_Default cfg) pc) in
      if (length fetchedMessages =? 0)%nat then
        mkParsed pc' [] [] (Some ErrIncompleteResponse)
      else mkParsed pc' [] fetchedMessages None.
Proof.
  intros (He & response & Hr & Hb & Hk).
  unfold parseFetchResult. rewrite He, Hr, Hb, Hk. reflexivity.
Qed.

(** C5. [parseFetchResult] returns the transport error of the result when
    there is one; [ErrIncompleteResponse] when the response is nil or has no
    block for the worker's topic and partition; the Kafka error of the block
    when it has one; and [ErrIncompleteResponse] when the message set is not
    empty but every message in it lies below the worker's offset.  In each of
    these cases no message is returned. *)
Theorem parseFetchResult_errors pc result :
  let p := parseFetchResult cfg pc result in
  (forall err, fr_Err result = Some err ->
     p_err p = Some err /\ p_messages p = [])
  /\ (fr_Err result = None -> Response result = None ->
        p_err p = Some ErrIncompleteResponse /\ p_messages p = [])
  /\ (forall response,
        fr_Err result = None -> Response result = Some response ->
        GetBlock response (topic (tp pc)) (partition (tp pc)) = None ->
        p_err p = Some ErrIncompleteResponse /\ p_messages p = [])
  /\ (forall response block,
        fr_Err result = None -> Response result = Some response ->
        GetBlock response (topic (tp pc)) (partition (tp pc)) = Some block ->
        Err block <> NoError ->
        p_err p = Some (KError (Err block)) /\ p_messages p = [])
  /\ (forall block,
        carries pc result block ->
        ms_Messages (MsgSet block) <> [] ->
        Forall (fun msg => mb_Offset msg < offset pc) (blockMessages block) ->
        p_err p = Some ErrIncompleteResponse /\ p_messages p = []).
Proof.
  intros p. subst p.
  split; [|split; [|split; [|split]]].
  - intros err He. unfold parseFetchResult. rewrite He. split; reflexivity.
  - intros He Hr. unfold parseFetchResult. rewrite He, Hr. split; reflexivity.
  - intros response He Hr Hb. unfold parseFetchResult. rewrite He, Hr, Hb.
    split; reflexivity.
  - intros response block He Hr Hb Hk. unfold parseFetchResult. rewrite He, Hr, Hb.
    destruct (Z.eqb_spec (Err block) NoError); [contradiction|].
    split; reflexivity.
  - intros block Hc Hne Hall. rewrite (parseFetchResult_block _ _ _ Hc).
    destruct (ms_Messages (MsgSet block)) eqn:Hms; [contradiction|].
    cbn [length Nat.eqb].
    destruct (parseMessages_survivors block
                (set_fetchSize (Consumer_Fetch_Default cfg) pc)) as (pc' & Hp & _).
    rewrite Hp.
    replace (survivors (set_fetchSize (Consumer_Fetch_Default cfg) pc) block)
      with (@nil MessageBlock); [split; reflexivity|].
    symmetry. unfold survivors. cbn [offset set_fetchSize].
    clear -Hall. induction Hall as [|m l Hm Hl IH]; [reflexivity|].
    rewrite filter_cons. destruct (decide (offset pc <= mb_Offset m)); [lia|exact IH].
Qed.

(** What the pump does with a result that parses to no message and no
    error: it reports what the parser reported and arms the next request. *)
Lemma step_empty_result st result now errorsReady :
  exited st = false ->
  nilOrFetchResultsCh st = true ->
  p_err (parseFetchResult cfg (worker st) result) = None ->
  p_messages (parseFetchResult cfg (worker st) result) = [] ->
  exists st',
    step cfg (EvFetchResult result now errorsReady) st
      = Some (st', flat_map (reportError cfg (worker st) errorsReady)
                     (p_reported (parseFetchResult cfg (worker st) result)))
    /\ worker st' = p_pc (parseFetchResult cfg (worker st) result)
    /\ exited st' = false
    /\ nilOrFetchResultsCh st' = false
    /\ nilOrMessagesCh st' = nilOrMessagesCh st
    /\ assignedFetchRequestCh st' = assignedFetchRequestCh st
    /\ nilOrFetchRequestsCh st' = assignedFetchRequestCh st
    /\ fetchResultCh st' = fetchResultCh st.
Proof.
  intros Hx Hr He Hm. unfold step. rewrite Hx, Hr. cbn [negb].
  cbn [worker with_results with_fetched with_worker fetchedMessages].
  rewrite He, Hm. cbn [length Nat.eqb].
  eexists. split; [reflexivity|]. cbn. auto 10.
Qed.


End ParseFetchResult.

Section ParseFetchResultSamples.

Import sarama consumer.


End ParseFetchResultSamples.

(** ** Runs of the pump *)

Section Runs.

Import sarama consumer.

Variable cfg : Config.

Lemma run_app evs1 evs2 st :
  run cfg (evs1 ++ evs2) st =
    match run cfg evs1 st with
    | None => None
    | Some (st1, trace1) =>
        match run cfg evs2 st1 with
        | None => None
        | Some (st2, trace2) => Some (st2, trace1 ++ trace2)
        end
    end.
Proof.
  revert st. induction evs1 as [|ev evs1 IH]; intros st.
  - cbn. destruct (run cfg evs2 st) as [[st2 trace2]|]; reflexivity.
  - cbn [app run]. destruct (step cfg ev st) as [[st1 acts]|]; [|reflexivity].
    rewrite IH. destruct (run cfg evs1 st1) as [[st2 trace1]|]; [|reflexivity].
    destruct (run cfg evs2 st2) as [[st3 trace2]|]; [|reflexivity].
    rewrite app_assoc. reflexivity.
Qed.

Lemma carries_tp pc pc' result block :
  tp pc' = tp pc -> carries pc result block -> carries pc' result block.
Proof. unfold carries. intros ->. trivial. Qed.

Lemma set_fetchSize_same pc : set_fetchSize (fetchSize pc) pc = pc.
Proof. destruct pc. reflexivity. Qed.

(** Sending the request: the case fires when the request channel is live. *)
Lemma step_send_request st ch :
  exited st = false ->
  nilOrFetchRequestsCh st = Some ch ->
  step cfg EvSendRequest st =
    Some (with_results true (with_requests None st),
          [ASendRequest ch (requestOf (worker st) (fetchResultCh st))]).
Proof. intros Hx Hq. unfold step. rewrite Hx, Hq. reflexivity. Qed.

(** Without a positive [Fetch.Max], an empty set with the flag doubles the
    fetch size and does nothing else. *)
Lemma parseFetchResult_unbounded pc result block :
  Consumer_Fetch_Max cfg <= 0 ->
  carries pc result block ->
  emptyPartial block ->
  parseFetchResult cfg pc result =
    mkParsed (set_fetchSize (Int.int32 (fetchSize pc * 2)) pc) [] [] None.
Proof.
  intros Hmax Hc [He Hp].
  rewrite (parseFetchResult_block cfg _ _ _ Hc), He, Hp. cbn [length Nat.eqb].
  destruct (Z.ltb_spec 0 (Consumer_Fetch_Max cfg)); [lia|]. reflexivity.
Qed.

(** One poll of an armed pump that is answered by an empty set with the flag,
    without a positive [Fetch.Max]. *)
Lemma run_poll_unbounded st ch r :
  Consumer_Fetch_Max cfg <= 0 ->
  armed st ch ->
  (exists block, carries (worker st) r.1.1 block /\ emptyPartial block) ->
  exists st',
    run cfg (poll r) st
      = Some (st', [ASendRequest ch (requestOf (worker st) (fetchResultCh st))])
    /\ worker st' = set_fetchSize (Int.int32 (fetchSize (worker st) * 2)) (worker st)
    /\ armed st' ch
    /\ fetchResultCh st' = fetchResultCh st.
Proof.
  intros Hmax (Hx & Hr & Ha & Hq) (block & Hc & He).
  destruct r as [[result now] errorsReady]. cbn [fst] in Hc.
  pose proof (parseFetchResult_unbounded _ _ _ Hmax Hc He) as Hparse.
  unfold poll. cbn [run]. rewrite (step_send_request st ch Hx Hq).
  destruct (step_empty_result cfg (with_results true (with_requests None st))
              result now errorsReady) as (st' & Hstep & Hw & Hx' & Hr' & _ & Ha' & Hq' & Hf);
    try (cbn; rewrite ?Hparse; auto; fail).
  rewrite Hstep. cbn [worker with_results with_requests] in *.
  rewrite Hparse in *. cbn [p_reported p_pc flat_map app] in *.
  exists st'. split; [reflexivity|]. split; [exact Hw|].
  split; [|exact Hf].
  cbn in Ha', Hq'. unfold armed. rewrite Hx', Hr', Ha', Hq', Ha. auto.
Qed.

Lemma int32_doubled_again x k :
  Int.int32 (Int.int32 (x * 2) * 2 ^ Z.of_nat k) = Int.int32 (x * 2 ^ Z.of_nat (S k)).
Proof.
  rewrite int32_mul_idemp. f_equal.
  rewrite Nat2Z.inj_succ, Z.pow_succ_r by lia. lia.
Qed.

Lemma int32_times_pow32 x n :
  (32 <= n)%nat -> Int.int32 (x * 2 ^ Z.of_nat n) = 0.
Proof.
  intros Hn. unfold Int.int32, Int.wrap.
  change (2 ^ (32 - 1)) with 2147483648. change (2 ^ 32) with 4294967296.
  replace (Z.of_nat n) with (32 + (Z.of_nat n - 32)) by lia.
  rewrite Z.pow_add_r by lia. change (2 ^ 32) with 4294967296.
  replace (x * (4294967296 * 2 ^ (Z.of_nat n - 32)) + 2147483648)
    with (2147483648 + (x * 2 ^ (Z.of_nat n - 32)) * 4294967296) by lia.
  rewrite Z.mod_add by lia. reflexivity.
Qed.

(** C10. Let [Fetch.Max] be zero or negative, and let an armed pump be
    answered, poll after poll, by empty message sets with the
    partial-trailing-message flag.  Then every poll doubles the [int32] fetch
    size with no clamp and nothing is reported: the pump only sends requests,
    the request of poll [k] asking for [fetchSize * 2 ^ k] bytes wrapped to 32
    bits, and the offset stays where it is.  The request that follows carries
    the wrapped value too; from the 32nd doubling on it carries zero. *)
Theorem unbounded_fetchSize_wraps polls st ch :
  Consumer_Fetch_Max cfg <= 0 ->
  Int.is_int32 (fetchSize (worker st)) ->
  armed st ch ->
  Forall (fun r => exists block,
            carries (worker st) r.1.1 block /\ emptyPartial block) polls ->
  let n := length polls in
  let sized k :=
    set_fetchSize (Int.int32 (fetchSize (worker st) * 2 ^ Z.of_nat k)) (worker st) in
  exists st',
    run cfg (flat_map poll polls) st
      = Some (st', map (fun k => ASendRequest ch (requestOf (sized k) (fetchResultCh st)))
                     (seq 0 n))
    /\ worker st' = sized n
    /\ offset (worker st') = offset (worker st)
    /\ step cfg EvSendRequest st'
         = Some (with_results true (with_requests None st'),
                 [ASendRequest ch (requestOf (sized n) (fetchResultCh st))])
    /\ ((32 <= n)%nat -> rq_MaxBytes (requestOf (sized n) (fetchResultCh st)) = 0).
Proof.
  intros Hmax Hfs Harmed Hall n sized.
  assert (Hrun : exists st',
             run cfg (flat_map poll polls) st
               = Some (st', map (fun k => ASendRequest ch
                                            (requestOf (sized k) (fetchResultCh st)))
                              (seq 0 n))
             /\ worker st' = sized n /\ armed st' ch
             /\ fetchResultCh st' = fetchResultCh st).
  { subst n sized. revert st Hfs Harmed Hall.
    induction polls as [|r polls IH]; intros st Hfs Harmed Hall.
    - exists st. cbn. rewrite Z.mul_1_r, int32_id, set_fetchSize_same by exact Hfs. auto.
    - inversion Hall as [|r' polls' Hr Hrest]; subst.
      destruct (run_poll_unbounded st ch r Hmax Harmed Hr)
        as (st1 & Hrun1 & Hw1 & Harmed1 & Hf1).
      destruct (IH st1) as (st2 & Hrun2 & Hw2 & Harmed2 & Hf2).
      { rewrite Hw1. apply int32_range. }
      { exact Harmed1. }
      { eapply Forall_impl; [exact Hrest|]. intros r' (block & Hc & He).
        exists block. split; [|exact He].
        eapply carries_tp; [|exact Hc]. rewrite Hw1. reflexivity. }
      exists st2. cbn [flat_map length]. rewrite run_app, Hrun1, Hrun2.
      rewrite Hw1, Hf1 in *. cbn [fetchSize set_fetchSize] in *.
      split; [|split; [|split]].
      + f_equal. f_equal. cbn [seq map app]. f_equal.
        * rewrite Z.mul_1_r, int32_id, set_fetchSize_same by exact Hfs. reflexivity.
        * rewrite <- seq_shift, map_map. apply map_ext. intros k.
          rewrite int32_doubled_again. reflexivity.
      + rewrite Hw2, int32_doubled_again. reflexivity.
      + exact Harmed2.
      + rewrite Hf2. reflexivity. }
  destruct Hrun as (st' & Hrun & Hw & (Hx & Hr & Ha & Hq) & Hf).
  exists st'. split; [exact Hrun|]. split; [exact Hw|].
  split; [rewrite Hw; reflexivity|].
  split.
  - rewrite (step_send_request st' ch Hx Hq), Hw, Hf. reflexivity.
  - intros Hn. cbn. apply int32_times_pow32. exact Hn.
Qed.

End Runs.

(** ** The shapes of a parse *)

Section ParseShape.

Import sarama consumer.

Variable cfg : Config.

Lemma survivors_set_fetchSize v pc block :
  survivors (set_fetchSize v pc) block = survivors pc block.
Proof. reflexivity. Qed.

(** Every call of [parseFetchResult] has one of four shapes: it stops before
    it looks at the messages; it skips an oversized message; it doubles the
    fetch size; or it walks through a message set that is not empty. *)
Lemma parseFetchResult_shape pc result :
  let p := parseFetchResult cfg pc result in
  (p_pc p = pc /\ p_reported p = [] /\ p_messages p = []
   /\ (p_err p = None ->
       exists block, carries pc result block
                     /\ ms_Messages (MsgSet block) = []
                     /\ PartialTrailingMessage (MsgSet block) = false))
  \/ (exists block,
        carries pc result block /\ emptyPartial block
        /\ 0 < Consumer_Fetch_Max cfg /\ fetchSize pc = Consumer_Fetch_Max cfg
        /\ p = mkParsed (set_offset (Int.int64 (offset pc + 1)) pc)
                 [ErrMessageTooLarge] [] None)
  \/ (exists block,
        carries pc result block /\ emptyPartial block
        /\ ~ (0 < Consumer_Fetch_Max cfg /\ fetchSize pc = Consumer_Fetch_Max cfg)
        /\ p = mkParsed
                 (set_fetchSize
                    (if (0 <? Consumer_Fetch_Max cfg)
                        && (Consumer_Fetch_Max cfg <? Int.int32 (fetchSize pc * 2))
                     then Consumer_Fetch_Max cfg else Int.int32 (fetchSize pc * 2)) pc)
                 [] [] None)
  \/ (exists block,
        carries pc result block /\ ms_Messages (MsgSet block) <> []
        /\ offset (p_pc p) = offset pc
        /\ fetchSize (p_pc p) = Consumer_Fetch_Default cfg
        /\ tp (p_pc p) = tp pc
        /\ p_reported p = []
        /\ ((survivors pc block = [] /\ p_messages p = []
             /\ p_err p = Some ErrIncompleteResponse)
            \/ (survivors pc block <> []
                /\ p_messages p = map (toConsumerMessage (tp pc) block) (survivors pc block)
                /\ p_err p = None))).
Proof.
  intros p. subst p.
  destruct (fr_Err result) as [err|] eqn:He.
  { left. unfold parseFetchResult. rewrite He. cbn. repeat split; discriminate. }
  destruct (Response result) as [response|] eqn:Hr.
  2:{ left. unfold parseFetchResult. rewrite He, Hr. cbn. repeat split; discriminate. }
  destruct (GetBlock response (topic (tp pc)) (partition (tp pc))) as [block|] eqn:Hb.
  2:{ left. unfold parseFetchResult. rewrite He, Hr, Hb. cbn. repeat split; discriminate. }
  destruct (Z.eqb_spec (Err block) NoError) as [Hk|Hk].
  2:{ left. unfold parseFetchResult. rewrite He, Hr, Hb.
      destruct (Z.eqb_spec (Err block) NoError); [contradiction|].
      cbn. repeat split; discriminate. }
  assert (Hc : carries pc result block).
  { split; [exact He|]. exists response. auto. }
  rewrite (parseFetchResult_block cfg _ _ _ Hc).
  destruct (ms_Messages (MsgSet block)) as [|m ms] eqn:Hms.
  - cbn [length Nat.eqb].
    destruct (PartialTrailingMessage (MsgSet block)) eqn:Hpt.
    + destruct (Z.ltb_spec 0 (Consumer_Fetch_Max cfg)) as [Hpos|Hnp];
        destruct (Z.eqb_spec (fetchSize pc) (Consumer_Fetch_Max cfg)) as [Heq|Hne];
        cbn [andb].
      * right. left. exists block. unfold emptyPartial. auto 10.
      * right. right. left. exists block. unfold emptyPartial.
        split; [exact Hc|]. split; [auto|]. split; [|reflexivity].
        intros [_ ?]. contradiction.
      * right. right. left. exists block. unfold emptyPartial.
        split; [exact Hc|]. split; [auto|]. split; [|reflexivity].
        intros [? _]. lia.
      * right. right. left. exists block. unfold emptyPartial.
        split; [exact Hc|]. split; [auto|]. split; [|reflexivity].
        intros [? _]. lia.
    + left. cbn. repeat split. exists block. auto.
  - right. right. right. exists block. cbn [length Nat.eqb].
    destruct (parseMessages_survivors block
                (set_fetchSize (Consumer_Fetch_Default cfg) pc))
      as (pc' & Hp & Ho & Hf & Ht).
    rewrite Hp, survivors_set_fetchSize. cbn in Ho, Hf, Ht.
    split; [exact Hc|]. split; [rewrite Hms; discriminate|].
    destruct (survivors pc block) as [|s ss] eqn:Hs; cbn [map length Nat.eqb].
    + cbn. auto 10.
    + cbn. split; [exact Ho|]. split; [exact Hf|]. split; [exact Ht|].
      split; [reflexivity|]. right. split; [discriminate|]. auto.
Qed.

End ParseShape.

(** ** One turn of the pump, case by case *)

Section StepCases.

Import sarama consumer.

Variable cfg : Config.

Lemma step_exited ev st : exited st = true -> step cfg ev st = None.
Proof. intros Hx. unfold step. rewrite Hx. reflexivity. Qed.

Lemma step_alive ev st st' acts :
  step cfg ev st = Some (st', acts) -> exited st = false.
Proof.
  intros Hstep. destruct (exited st) eqn:Hx; [|reflexivity].
  rewrite (step_exited ev st Hx) in Hstep. discriminate.
Qed.

(** A new assignment touches neither the worker nor the messages in hand; it
    arms a request only when neither a result nor a push is pending. *)
Lemma step_assignment bw now st st' acts :
  step cfg (EvAssignment bw now) st = Some (st', acts) ->
  worker st' = worker st /\ exited st' = false
  /\ nilOrFetchResultsCh st' = nilOrFetchResultsCh st
  /\ nilOrMessagesCh st' = nilOrMessagesCh st
  /\ fetchedMessages st' = fetchedMessages st
  /\ currMessage st' = currMessage st
  /\ currMessageIdx st' = currMessageIdx st
  /\ (nilOrFetchRequestsCh st' = nilOrFetchRequestsCh st
      \/ (nilOrFetchResultsCh st = false /\ nilOrMessagesCh st = false))
  /\ (acts = [] \/ acts = [AReassign]).
Proof.
  intros Hstep. pose proof (step_alive _ _ _ _ Hstep) as Hx.
  unfold step in Hstep. rewrite Hx in Hstep.
  destruct bw as [requestsCh|].
  - cbn in Hstep.
    destruct (nilOrFetchResultsCh st) eqn:Hr, (nilOrMessagesCh st) eqn:Hm;
      cbn in Hstep; inversion Hstep; subst; cbn; rewrite ?Hr, ?Hm; auto 12.
  - unfold triggerOrScheduleReassign in Hstep.
    destruct (Consumer_Retry_Backoff cfg <? _); inversion Hstep; subst; cbn; auto 12.
Qed.

Lemma step_request st st' acts :
  step cfg EvSendRequest st = Some (st', acts) ->
  exists ch,
    nilOrFetchRequestsCh st = Some ch
    /\ st' = with_results true (with_requests None st)
    /\ acts = [ASendRequest ch (requestOf (worker st) (fetchResultCh st))].
Proof.
  intros Hstep. pose proof (step_alive _ _ _ _ Hstep) as Hx.
  unfold step in Hstep. rewrite Hx in Hstep.
  destruct (nilOrFetchRequestsCh st) as [ch|]; [|discriminate].
  inversion Hstep; subst. exists ch. auto.
Qed.

Lemma step_timer st st' acts :
  step cfg EvRetryTimer st = Some (st', acts) ->
  nilOrReassignRetryTimerCh st = true /\ st' = with_timer true st /\ acts = [AReassign].
Proof.
  intros Hstep. pose proof (step_alive _ _ _ _ Hstep) as Hx.
  unfold step in Hstep. rewrite Hx in Hstep.
  destruct (nilOrReassignRetryTimerCh st); [|discriminate].
  inversion Hstep; subst. auto.
Qed.

Lemma step_closing st st' acts :
  step cfg EvClosing st = Some (st', acts) ->
  st' = with_exited true st /\ acts = closeAll.
Proof.
  intros Hstep. pose proof (step_alive _ _ _ _ Hstep) as Hx.
  unfold step in Hstep. rewrite Hx in Hstep. inversion Hstep; subst. auto.
Qed.

(** A push hands the current message over, moves the worker's offset one
    past it and steps to the next message in hand, if there is one. *)
Lemma step_push st st' acts :
  step cfg EvPushMessage st = Some (st', acts) ->
  nilOrMessagesCh st = true
  /\ exists msg,
       currMessage st = Some msg
       /\ acts = [APush msg]
       /\ worker st' = set_offset (Int.int64 (cm_Offset msg + 1)) (worker st)
       /\ exited st' = false
       /\ nilOrFetchResultsCh st' = nilOrFetchResultsCh st
       /\ fetchedMessages st' = fetchedMessages st
       /\ currMessageIdx st' = S (currMessageIdx st)
       /\ ((S (currMessageIdx st) < length (fetchedMessages st))%nat
           /\ currMessage st' = fetchedMessages st !! S (currMessageIdx st)
           /\ nilOrMessagesCh st' = true
           /\ nilOrFetchRequestsCh st' = nilOrFetchRequestsCh st
           \/ (length (fetchedMessages st) <= S (currMessageIdx st))%nat
              /\ nilOrMessagesCh st' = false
              /\ nilOrFetchRequestsCh st' = assignedFetchRequestCh st).
Proof.
  intros Hstep. pose proof (step_alive _ _ _ _ Hstep) as Hx.
  unfold step in Hstep. rewrite Hx in Hstep.
  destruct (nilOrMessagesCh st) eqn:Hm; [|discriminate]. cbn [negb] in Hstep.
  destruct (currMessage st) as [msg|] eqn:Hcur; [|discriminate].
  split; [reflexivity|]. exists msg. split; [reflexivity|].
  cbv zeta in Hstep.
  cbn [fetchedMessages currMessageIdx with_worker with_curr] in Hstep.
  destruct (Nat.ltb_spec (S (currMessageIdx st)) (length (fetchedMessages st)));
    inversion Hstep; subst; cbn; auto 15.
Qed.

(** A fetch result: the pump leaves on [ErrOffsetOutOfRange]; it asks for a
    new assignment on any other error; it arms the next request when nothing
    came; it starts pushing otherwise. *)
Lemma step_result result now errorsReady st st' acts :
  step cfg (EvFetchResult result now errorsReady) st = Some (st', acts) ->
  let p := parseFetchResult cfg (worker st) result in
  let reported := flat_map (reportError cfg (worker st) errorsReady) (p_reported p) in
  nilOrFetchResultsCh st = true
  /\ worker st' = p_pc p
  /\ nilOrFetchResultsCh st' = false
  /\ fetchedMessages st' = p_messages p
  /\ ((p_err p = Some ErrOffsetOutOfRange /\ exited st' = true
       /\ acts = (reported ++ reportError cfg (p_pc p) errorsReady ErrOffsetOutOfRange)
                  ++ closeAll)
      \/ (exists err reassign,
            p_err p = Some err /\ err <> ErrOffsetOutOfRange /\ exited st' = false
            /\ nilOrFetchRequestsCh st' = nilOrFetchRequestsCh st
            /\ nilOrMessagesCh st' = nilOrMessagesCh st
            /\ (reassign = [] \/ reassign = [AReassign])
            /\ acts = (reported ++ reportError cfg (p_pc p) errorsReady err) ++ reassign)
      \/ (p_err p = None /\ p_messages p = [] /\ exited st' = false
          /\ nilOrFetchRequestsCh st' = assignedFetchRequestCh st
          /\ nilOrMessagesCh st' = nilOrMessagesCh st
          /\ acts = reported)
      \/ (p_err p = None /\ p_messages p <> [] /\ exited st' = false
          /\ nilOrFetchRequestsCh st' = nilOrFetchRequestsCh st
          /\ nilOrMessagesCh st' = true
          /\ currMessageIdx st' = 0%nat
          /\ currMessage st' = p_messages p !! 0%nat
          /\ acts = reported)).
Proof.
  intros Hstep p reported. pose proof (step_alive _ _ _ _ Hstep) as Hx.
  unfold step in Hstep. rewrite Hx in Hstep.
  destruct (nilOrFetchResultsCh st) eqn:Hr; [|discriminate]. cbn [negb] in Hstep.
  cbn [worker with_results with_fetched with_worker fetchedMessages] in Hstep.
  fold p in Hstep. fold reported in Hstep.
  split; [reflexivity|].
  destruct (p_err p) as [err|] eqn:He.
  - destruct (decide (err = ErrOffsetOutOfRange)) as [->|Hne].
    + inversion Hstep; subst. cbn. auto 10.
    + unfold triggerOrScheduleReassign in Hstep.
      destruct (Consumer_Retry_Backoff cfg <? _); inversion Hstep; subst; cbn;
        (split; [reflexivity|]); (split; [reflexivity|]); (split; [reflexivity|]);
        right; left; exists err; eexists; repeat split; eauto.
  - destruct (p_messages p) as [|m ms] eqn:Hm; cbn [length Nat.eqb] in Hstep;
      inversion Hstep; subst; cbn.
    + auto 15.
    + repeat split. right. right. right. repeat split; [discriminate|exact Hx].
Qed.

End StepCases.

(** ** The broker consumer *)

Section Executor.

Import sarama consumer.

Variable cfg : Config.

Lemma fold_AddBlock frs req :
  fold_left (fun req fr => AddBlock req (rq_Topic fr) (rq_Partition fr) (rq_Offset fr)
                             (rq_MaxBytes fr)) frs req
    = {| MinBytes := MinBytes req;
         MaxWaitTime := MaxWaitTime req;
         rq_blocks := rq_blocks req ++ map blockFor frs |}.
Proof.
  revert req. induction frs as [|fr frs IH]; intros req.
  - cbn. rewrite app_nil_r. destruct req. reflexivity.
  - cbn [fold_left map]. rewrite IH. unfold AddBlock. cbn.
    rewrite <- app_assoc. reflexivity.
Qed.

Lemma repliesOf_app acts1 acts2 :
  repliesOf (acts1 ++ acts2) = repliesOf acts1 ++ repliesOf acts2.
Proof. unfold repliesOf. apply flat_map_app. Qed.

Lemma repliesOf_replyAll result frs :
  repliesOf (replyAll result frs) = map (fun fr => (ReplyToCh fr, result)) frs.
Proof. induction frs as [|fr frs IH]; [reflexivity|]. cbn. f_equal. exact IH. Qed.


(** The batched request that [executeBatches] builds for a batch. *)
Lemma executeBatch_open st b :
  Consumer_Retry_Backoff cfg <= time.Sub (b_now b) (lastErrTime st) ->
  let req := {| MinBytes := Consumer_Fetch_Min cfg;
                MaxWaitTime :=
                  Int.int32 (Z.quot (Consumer_MaxWaitTime cfg) time.Millisecond);
                rq_blocks := map blockFor (fetchRequests b) |} in
  executeBatch cfg st b =
    ({| lastErr := snd (b_Fetch b req);
        lastErrTime := match snd (b_Fetch b req) with
                       | Some _ => b_errNow b
                       | None => lastErrTime st
                       end |},
     [CFetch req]
       ++ match snd (b_Fetch b req) with Some _ => [CClose] | None => [] end
       ++ replyAll (mkFetchResult (fst (b_Fetch b req)) (snd (b_Fetch b req)))
            (fetchRequests b)).
Proof.
  intros Hopen req. unfold executeBatch.
  destruct (Z.ltb_spec (time.Sub (b_now b) (lastErrTime st))
              (Consumer_Retry_Backoff cfg)); [lia|].
  rewrite fold_AddBlock. cbn [MinBytes MaxWaitTime rq_blocks app]. fold req.
  destruct (b_Fetch b req) as [res [err|]]; reflexivity.
Qed.


End Executor.

(** ** How the pump ends *)

Section Termination.

Import sarama consumer.

Variable cfg : Config.

Lemma run_snoc evs ev st :
  run cfg (evs ++ [ev]) st =
    match run cfg evs st with
    | None => None
    | Some (st0, trace0) =>
        match step cfg ev st0 with
        | None => None
        | Some (st1, acts) => Some (st1, trace0 ++ acts)
        end
    end.
Proof.
  rewrite run_app. destruct (run cfg evs st) as [[st0 trace0]|]; [|reflexivity].
  cbn [run]. destruct (step cfg ev st0) as [[st1 acts]|]; [|reflexivity].
  rewrite app_nil_r. reflexivity.
Qed.

Lemma reportError_tp pc pc' errorsReady err :
  tp pc' = tp pc ->
  reportError cfg pc' errorsReady err = reportError cfg pc errorsReady err.
Proof. intros Ht. unfold reportError. rewrite Ht. reflexivity. Qed.

Lemma noClose_reportError pc errorsReady err :
  noClose (reportError cfg pc errorsReady err).
Proof.
  unfold reportError, noClose.
  destruct (Consumer_Return_Errors cfg), errorsReady; cbn; repeat constructor.
Qed.

Lemma noClose_reported pc errorsReady errs :
  noClose (flat_map (reportError cfg pc errorsReady) errs).
Proof.
  induction errs as [|e errs IH]; [constructor|].
  cbn. apply Forall_app. split; [apply noClose_reportError|exact IH].
Qed.

(** A parse that returns an error has reported nothing and has left the
    worker's partition alone. *)
Lemma parseFetchResult_failed pc result err :
  p_err (parseFetchResult cfg pc result) = Some err ->
  p_reported (parseFetchResult cfg pc result) = []
  /\ tp (p_pc (parseFetchResult cfg pc result)) = tp pc
  /\ p_messages (parseFetchResult cfg pc result) = [].
Proof.
  intros He.
  destruct (parseFetchResult_shape cfg pc result)
    as [(Hpc & Hrep & Hm & _)
       |[(block & _ & _ & _ & _ & Hp)
        |[(block & _ & _ & _ & Hp)
         |(block & _ & _ & _ & _ & Ht & Hrep & [(_ & Hm & _)|(_ & _ & Hnone)])]]].
  - rewrite Hpc. auto.
  - rewrite Hp in He. discriminate.
  - rewrite Hp in He. discriminate.
  - auto.
  - rewrite Hnone in He. discriminate.
Qed.

(** A turn that leaves the pump running closes nothing. *)
Lemma step_noClose ev st st' acts :
  step cfg ev st = Some (st', acts) -> exited st' = false -> noClose acts.
Proof.
  intros Hstep Hx'. destruct ev as [bw now| |result now errorsReady| | |].
  - destruct (step_assignment cfg _ _ _ _ _ Hstep)
      as (_ & _ & _ & _ & _ & _ & _ & _ & [->| ->]); repeat constructor.
  - destruct (step_request cfg _ _ _ Hstep) as (ch & _ & _ & ->). repeat constructor.
  - destruct (step_result cfg _ _ _ _ _ _ Hstep)
      as (_ & _ & _ & _ & [(_ & Hx & _)
                          |[(err & re & _ & _ & _ & _ & _ & Hre & ->)
                           |[(_ & _ & _ & _ & _ & ->)
                            |(_ & _ & _ & _ & _ & _ & _ & ->)]]]).
    + congruence.
    + apply Forall_app. split.
      * apply Forall_app. split; [apply noClose_reported|apply noClose_reportError].
      * destruct Hre as [-> | ->]; repeat constructor.
    + apply noClose_reported.
    + apply noClose_reported.
  - destruct (step_push cfg _ _ _ Hstep) as (_ & msg & _ & -> & _). repeat constructor.
  - destruct (step_timer cfg _ _ _ Hstep) as (_ & _ & ->). repeat constructor.
  - destruct (step_closing cfg _ _ _ Hstep) as (-> & _). discriminate.
Qed.

(** The two ways out of the loop. *)
Lemma step_exit ev st st' acts :
  step cfg ev st = Some (st', acts) -> exited st' = true ->
  (ev = EvClosing /\ acts = closeAll)
  \/ (exists result now errorsReady,
        ev = EvFetchResult result now errorsReady
        /\ p_err (parseFetchResult cfg (worker st) result) = Some ErrOffsetOutOfRange
        /\ acts = reportError cfg (worker st) errorsReady ErrOffsetOutOfRange ++ closeAll).
Proof.
  intros Hstep Hx'. destruct ev as [bw now| |result now errorsReady| | |].
  - destruct (step_assignment cfg _ _ _ _ _ Hstep) as (_ & Hx & _). congruence.
  - destruct (step_request cfg _ _ _ Hstep) as (ch & _ & -> & _).
    pose proof (step_alive cfg _ _ _ _ Hstep). cbn in Hx'. congruence.
  - right. exists result, now, errorsReady. split; [reflexivity|].
    destruct (step_result cfg _ _ _ _ _ _ Hstep)
      as (_ & _ & _ & _ & [(He & _ & ->)
                          |[(err & re & _ & _ & Hx & _)
                           |[(_ & _ & Hx & _)|(_ & _ & Hx & _)]]]);
      try congruence.
    split; [exact He|].
    destruct (parseFetchResult_failed _ _ _ He) as (Hrep & Ht & _).
    rewrite Hrep. cbn [flat_map app]. rewrite (reportError_tp _ _ _ _ Ht). reflexivity.
  - destruct (step_push cfg _ _ _ Hstep) as (_ & msg & _ & _ & _ & Hx & _). congruence.
  - destruct (step_timer cfg _ _ _ Hstep) as (_ & -> & _).
    pose proof (step_alive cfg _ _ _ _ Hstep). cbn in Hx'. congruence.
  - left. destruct (step_closing cfg _ _ _ Hstep) as (_ & ->). auto.
Qed.

Lemma run_noClose evs st0 st trace :
  run cfg evs st0 = Some (st, trace) -> exited st = false -> noClose trace.
Proof.
  revert st trace. induction evs as [|ev evs IH] using rev_ind; intros st trace Hrun Hx.
  - inversion Hrun; subst. constructor.
  - rewrite run_snoc in Hrun.
    destruct (run cfg evs st0) as [[st1 trace1]|]; [|discriminate].
    destruct (step cfg ev st1) as [[st2 acts]|] eqn:Hstep; [|discriminate].
    inversion Hrun; subst.
    apply Forall_app. split.
    + eapply IH; [reflexivity|]. eapply step_alive. exact Hstep.
    + eapply step_noClose; eassumption.
Qed.

(** C7. The pump stops in two ways only: when [closingCh] fires, and when a
    fetch result parses to [ErrOffsetOutOfRange], which it reports first and
    after which it neither asks for a new assignment nor sends a request.  In
    both cases the last three things it does are to close the messages
    channel, the errors channel and the closed channel, in this order; it
    closes nothing before, and it does nothing after: no turn of the loop is
    possible any more.  Both ways out are open whenever the pump runs. *)
Theorem pullMessages_closes_in_order evs pc fetchResultCh st trace :
  run cfg evs (pullMessages_start pc fetchResultCh) = Some (st, trace) ->
  (exited st = false -> noClose trace)
  /\ (exited st = true ->
      exists evs0 ev st0 trace0 last,
        evs = evs0 ++ [ev]
        /\ run cfg evs0 (pullMessages_start pc fetchResultCh) = Some (st0, trace0)
        /\ exited st0 = false
        /\ trace = (trace0 ++ last) ++ [ACloseMessages; ACloseErrors; ACloseClosed]
        /\ noClose (trace0 ++ last)
        /\ ((ev = EvClosing /\ last = [])
            \/ (exists result now errorsReady,
                  ev = EvFetchResult result now errorsReady
                  /\ p_err (parseFetchResult cfg (worker st0) result)
                       = Some ErrOffsetOutOfRange
                  /\ last = reportError cfg (worker st0) errorsReady
                              ErrOffsetOutOfRange)))
  /\ (exited st = true -> forall ev, step cfg ev st = None)
  /\ (exited st = false ->
      step cfg EvClosing st
        = Some (with_exited true st, [ACloseMessages; ACloseErrors; ACloseClosed])
      /\ forall result now errorsReady,
           nilOrFetchResultsCh st = true ->
           p_err (parseFetchResult cfg (worker st) result) = Some ErrOffsetOutOfRange ->
           exists st',
             step cfg (EvFetchResult result now errorsReady) st
               = Some (st', reportError cfg (worker st) errorsReady ErrOffsetOutOfRange
                              ++ [ACloseMessages; ACloseErrors; ACloseClosed])
             /\ exited st' = true).
Proof.
  intros Hrun. split; [|split; [|split]].
  - apply (run_noClose _ _ _ _ Hrun).
  - intros Hx. destruct evs as [|ev evs0] using rev_ind.
    { inversion Hrun; subst. discriminate. }
    clear IHevs0. rewrite run_snoc in Hrun.
    destruct (run cfg evs0 (pullMessages_start pc fetchResultCh))
      as [[st0 trace0]|] eqn:Hrun0; [|discriminate].
    destruct (step cfg ev st0) as [[st1 acts]|] eqn:Hstep; [|discriminate].
    inversion Hrun; subst.
    pose proof (step_alive cfg _ _ _ _ Hstep) as Hx0.
    pose proof (run_noClose _ _ _ _ Hrun0 Hx0) as Hnc0.
    destruct (step_exit _ _ _ _ Hstep Hx)
      as [(-> & ->)|(result & now & errorsReady & -> & He & ->)].
    + exists evs0, EvClosing, st0, trace0, [].
      rewrite app_nil_r. auto 10.
    + exists evs0, (EvFetchResult result now errorsReady), st0, trace0,
        (reportError cfg (worker st0) errorsReady ErrOffsetOutOfRange).
      split; [reflexivity|]. split; [exact Hrun0|]. split; [exact Hx0|].
      split; [rewrite app_assoc; reflexivity|].
      split; [apply Forall_app; split; [exact Hnc0|apply noClose_reportError]|].
      right. exists result, now, errorsReady. auto.
  - intros Hx ev. apply step_exited. exact Hx.
  - intros Hx. split.
    + unfold step. rewrite Hx. reflexivity.
    + intros result now errorsReady Hr He.
      destruct (parseFetchResult_failed _ _ _ He) as (Hrep & Ht & Hm).
      unfold step. rewrite Hx, Hr. cbn [negb].
      cbn [worker with_results with_fetched with_worker].
      rewrite He, Hrep.
      destruct (decide (ErrOffsetOutOfRange = ErrOffsetOutOfRange)); [|contradiction].
      eexists. split.
      * cbn [flat_map app]. rewrite (reportError_tp _ _ _ _ Ht). reflexivity.
      * reflexivity.
Qed.

End Termination.

(** ** The fetch size *)

Section FetchSize.

Import sarama consumer.

Variable cfg : Config.

(** A message set that is not empty resets the fetch size. *)
Lemma parseFetchResult_resets pc result block :
  carries pc result block ->
  ms_Messages (MsgSet block) <> [] ->
  fetchSize (p_pc (parseFetchResult cfg pc result)) = Consumer_Fetch_Default cfg.
Proof.
  intros Hc Hne. rewrite (parseFetchResult_block cfg _ _ _ Hc).
  destruct (ms_Messages (MsgSet block)) as [|m ms]; [contradiction|].
  cbn [length Nat.eqb].
  destruct (parseMessages_survivors block
              (set_fetchSize (Consumer_Fetch_Default cfg) pc)) as (pc' & Hp & _ & Hf & _).
  rewrite Hp. cbn in Hf.
  destruct (length _ =? 0)%nat; exact Hf.
Qed.

Hypothesis Hdefault : 0 <= Consumer_Fetch_Default cfg <= Consumer_Fetch_Max cfg.
Hypothesis Hmax : 0 < Consumer_Fetch_Max cfg <= 2 ^ 30.

Local Abbreviation bounded := (consumer.bounded cfg).

(** Doubling below [Fetch.Max] stays in [int32] and is clamped. *)
Lemma doubled_clamped fs :
  0 <= fs < Consumer_Fetch_Max cfg ->
  (if (0 <? Consumer_Fetch_Max cfg) && (Consumer_Fetch_Max cfg <? Int.int32 (fs * 2))
   then Consumer_Fetch_Max cfg else Int.int32 (fs * 2))
    = Z.min (2 * fs) (Consumer_Fetch_Max cfg).
Proof.
  intros Hfs.
  assert (H30 : 2 ^ 30 = 1073741824) by reflexivity.
  rewrite int32_id
    by (unfold Int.is_int32, Int.MinInt32, Int.MaxInt32;
        change (2 ^ 31) with 2147483648; lia).
  destruct (Z.ltb_spec 0 (Consumer_Fetch_Max cfg)); [|lia]. cbn [andb].
  destruct (Z.ltb_spec (Consumer_Fetch_Max cfg) (fs * 2)); lia.
Qed.

(** How a parse moves the fetch size of a worker within the bounds. *)
Lemma parseFetchResult_fetchSize pc result :
  bounded pc ->
  let fs' := fetchSize (p_pc (parseFetchResult cfg pc result)) in
  fs' = fetchSize pc
  \/ (exists block,
        carries pc result block /\ emptyPartial block
        /\ fetchSize pc < Consumer_Fetch_Max cfg
        /\ fs' = Z.min (2 * fetchSize pc) (Consumer_Fetch_Max cfg))
  \/ (exists block,
        carries pc result block /\ ms_Messages (MsgSet block) <> []
        /\ fs' = Consumer_Fetch_Default cfg).
Proof.
  intros Hb fs'. subst fs'. unfold bounded in Hb.
  destruct (parseFetchResult_shape cfg pc result)
    as [(Hpc & _)
       |[(block & _ & _ & _ & _ & Hp)
        |[(block & Hc & He & Hnot & Hp)
         |(block & Hc & Hne & _ & Hf & _)]]].
  - left. rewrite Hpc. reflexivity.
  - left. rewrite Hp. reflexivity.
  - right. left. exists block.
    assert (Hlt : fetchSize pc < Consumer_Fetch_Max cfg).
    { destruct (Z.eq_dec (fetchSize pc) (Consumer_Fetch_Max cfg)) as [Heq|Hneq]; [|lia].
      exfalso. apply Hnot. split; [lia|exact Heq]. }
    split; [exact Hc|]. split; [exact He|]. split; [exact Hlt|].
    rewrite Hp. cbn [p_pc fetchSize set_fetchSize]. apply doubled_clamped. lia.
  - right. right. exists block. auto.
Qed.

Lemma parseFetchResult_bounded pc result :
  bounded pc -> bounded (p_pc (parseFetchResult cfg pc result)).
Proof.
  intros Hb. pose proof Hb as Hb0. unfold bounded in *.
  destruct (parseFetchResult_fetchSize pc result Hb0)
    as [->|[(block & _ & _ & _ & ->)|(block & _ & _ & ->)]]; lia.
Qed.

(** No turn but the parse of a fetch result touches the fetch size. *)
Lemma step_fetchSize ev st st' acts :
  step cfg ev st = Some (st', acts) ->
  fetchSize (worker st') = fetchSize (worker st)
  \/ exists result now errorsReady,
       ev = EvFetchResult result now errorsReady
       /\ worker st' = p_pc (parseFetchResult cfg (worker st) result).
Proof.
  intros Hstep. destruct ev as [bw now| |result now errorsReady| | |].
  - left. destruct (step_assignment cfg _ _ _ _ _ Hstep) as (-> & _). reflexivity.
  - left. destruct (step_request cfg _ _ _ Hstep) as (ch & _ & -> & _). reflexivity.
  - right. exists result, now, errorsReady. split; [reflexivity|].
    apply (step_result cfg _ _ _ _ _ _ Hstep).
  - left. destruct (step_push cfg _ _ _ Hstep) as (_ & msg & _ & _ & -> & _). reflexivity.
  - left. destruct (step_timer cfg _ _ _ Hstep) as (_ & -> & _). reflexivity.
  - left. destruct (step_closing cfg _ _ _ Hstep) as (-> & _). reflexivity.
Qed.

Lemma step_bounded ev st st' acts :
  step cfg ev st = Some (st', acts) -> bounded (worker st) -> bounded (worker st').
Proof.
  intros Hstep Hb.
  destruct (step_fetchSize _ _ _ _ Hstep) as [Heq|(result & now & ready & _ & ->)].
  - unfold bounded in *. rewrite Heq. exact Hb.
  - apply parseFetchResult_bounded. exact Hb.
Qed.

Lemma run_bounded evs st st' trace :
  run cfg evs st = Some (st', trace) -> bounded (worker st) -> bounded (worker st').
Proof.
  revert st trace. induction evs as [|ev evs IH]; intros st trace Hrun Hb.
  - inversion Hrun; subst. exact Hb.
  - cbn [run] in Hrun.
    destruct (step cfg ev st) as [[st1 acts]|] eqn:Hstep; [|discriminate].
    destruct (run cfg evs st1) as [[st2 trace2]|] eqn:Hrun2; [|discriminate].
    inversion Hrun; subst.
    eapply IH; [exact Hrun2|]. eapply step_bounded; eassumption.
Qed.

(** C3, as the code has it. Let 0 <= [Fetch.Default] <= [Fetch.Max] and
    0 < [Fetch.Max] <= 2^30.  The worker is spawned with the fetch size
    [Fetch.Default], and along every run of its pump the fetch size stays
    between [Fetch.Default] and [Fetch.Max].  A turn of the pump changes it in
    two ways only: an empty message set with the partial-trailing-message
    flag, met below [Fetch.Max], doubles it, clamped to [Fetch.Max]; a message
    set that is not empty, in a result that reaches the worker's block
    without an error, resets it to [Fetch.Default], and every such result
    does. *)
Theorem fetchSize_within_bounds evs tp offset fetchResultCh st trace :
  let start := pullMessages_start (spawnPartitionConsumer cfg tp offset) fetchResultCh in
  run cfg evs start = Some (st, trace) ->
  fetchSize (worker start) = Consumer_Fetch_Default cfg
  /\ Consumer_Fetch_Default cfg <= fetchSize (worker st) <= Consumer_Fetch_Max cfg
  /\ (forall ev st' acts,
        step cfg ev st = Some (st', acts) ->
        fetchSize (worker st') = fetchSize (worker st)
        \/ (exists result now errorsReady block,
              ev = EvFetchResult result now errorsReady
              /\ carries (worker st) result block /\ emptyPartial block
              /\ fetchSize (worker st) < Consumer_Fetch_Max cfg
              /\ fetchSize (worker st')
                   = Z.min (2 * fetchSize (worker st)) (Consumer_Fetch_Max cfg))
        \/ (exists result now errorsReady block,
              ev = EvFetchResult result now errorsReady
              /\ carries (worker st) result block
              /\ ms_Messages (MsgSet block) <> []
              /\ fetchSize (worker st') = Consumer_Fetch_Default cfg))
  /\ (forall result now errorsReady block st' acts,
        step cfg (EvFetchResult result now errorsReady) st = Some (st', acts) ->
        carries (worker st) result block ->
        ms_Messages (MsgSet block) <> [] ->
        fetchSize (worker st') = Consumer_Fetch_Default cfg).
Proof.
  intros start Hrun.
  assert (Hb : bounded (worker st)).
  { apply (run_bounded _ _ _ _ Hrun). unfold bounded. cbn. lia. }
  split; [reflexivity|]. split; [exact Hb|]. split.
  - intros ev st' acts Hstep.
    destruct (step_fetchSize _ _ _ _ Hstep) as [Heq|(result & now & ready & -> & Hw)];
      [left; exact Heq|].
    rewrite Hw.
    destruct (parseFetchResult_fetchSize (worker st) result Hb)
      as [Heq|[(block & Hc & He & Hlt & Heq)|(block & Hc & Hne & Heq)]].
    + left. exact Heq.
    + right. left. exists result, now, ready, block. auto.
    + right. right. exists result, now, ready, block. auto.
  - intros result now ready block st' acts Hstep Hc Hne.
    destruct (step_result cfg _ _ _ _ _ _ Hstep) as (_ & -> & _).
    eapply parseFetchResult_resets; eassumption.
Qed.

End FetchSize.

(** ** The order of delivery *)

Section Delivery.

Import sarama consumer.

Variable cfg : Config.

Lemma delivered_offsets_app trace1 trace2 :
  delivered_offsets (trace1 ++ trace2)
    = delivered_offsets trace1 ++ delivered_offsets trace2.
Proof. unfold delivered_offsets, pushed. rewrite flat_map_app, map_app. reflexivity. Qed.

Lemma delivered_reportError pc errorsReady err :
  delivered_offsets (reportError cfg pc errorsReady err) = [].
Proof.
  unfold reportError. destruct (Consumer_Return_Errors cfg), errorsReady; reflexivity.
Qed.

Lemma delivered_reported pc errorsReady errs :
  delivered_offsets (flat_map (reportError cfg pc errorsReady) errs) = [].
Proof.
  induction errs as [|e errs IH]; [reflexivity|].
  cbn [flat_map]. rewrite delivered_offsets_app, delivered_reportError, IH. reflexivity.
Qed.

Lemma StronglySorted_filter {A} (R : relation A) (P : A -> Prop)
    `{forall x, Decision (P x)} (l : list A) :
  StronglySorted R l -> StronglySorted R (filter P l).
Proof.
  induction 1 as [|x l Hl IH Hx]; [constructor|].
  rewrite filter_cons. destruct (decide (P x)); [|exact IH].
  constructor; [exact IH|].
  apply Forall_forall. intros y Hy. apply list_elem_of_filter in Hy as [_ Hy].
  rewrite Forall_forall in Hx. apply Hx. exact Hy.
Qed.

Lemma survivors_offsets pc block :
  map mb_Offset (survivors pc block)
    = filter (fun o => offset pc <= o) (map mb_Offset (blockMessages block)).
Proof.
  unfold survivors. induction (blockMessages block) as [|m l IH]; [reflexivity|].
  cbn [map]. rewrite !filter_cons.
  destruct (decide (offset pc <= mb_Offset m)); cbn [map]; rewrite IH; reflexivity.
Qed.

Lemma toConsumerMessage_offsets tp0 block msgs :
  map cm_Offset (map (toConsumerMessage tp0 block) msgs) = map mb_Offset msgs.
Proof. rewrite map_map. reflexivity. Qed.

Lemma carries_offsets pc result block :
  carries pc result block ->
  resultOffsets (tp pc) result = map mb_Offset (blockMessages block).
Proof.
  intros (_ & response & Hr & Hb & _). unfold resultOffsets. rewrite Hr, Hb. reflexivity.
Qed.

(** A parse keeps the worker's partition and moves its offset by at most
    one. *)
Lemma parseFetchResult_offset pc result :
  Int.MinInt64 <= offset pc -> offset pc + 1 <= Int.MaxInt64 ->
  tp (p_pc (parseFetchResult cfg pc result)) = tp pc
  /\ offset pc <= offset (p_pc (parseFetchResult cfg pc result)) <= offset pc + 1.
Proof.
  intros Hlo Hhi.
  destruct (parseFetchResult_shape cfg pc result)
    as [(Hpc & _)
       |[(block & _ & _ & _ & _ & Hp)
        |[(block & _ & _ & _ & Hp)
         |(block & _ & _ & Ho & _ & Ht & _)]]].
  - rewrite Hpc. split; [reflexivity|lia].
  - rewrite Hp. cbn [p_pc tp offset set_offset]. split; [reflexivity|].
    rewrite int64_id by (unfold Int.is_int64; lia). lia.
  - rewrite Hp. cbn. split; [reflexivity|lia].
  - rewrite Ho, Ht. split; [reflexivity|lia].
Qed.

(** The messages that a parse returns are the survivors of the worker's
    block, and the worker's offset is as before. *)
Lemma parseFetchResult_messages pc result :
  p_messages (parseFetchResult cfg pc result) <> [] ->
  exists block,
    carries pc result block
    /\ p_messages (parseFetchResult cfg pc result)
         = map (toConsumerMessage (tp pc) block) (survivors pc block)
    /\ offset (p_pc (parseFetchResult cfg pc result)) = offset pc.
Proof.
  intros Hne.
  destruct (parseFetchResult_shape cfg pc result)
    as [(_ & _ & Hm & _)
       |[(block & _ & _ & _ & _ & Hp)
        |[(block & _ & _ & _ & Hp)
         |(block & Hc & _ & Ho & _ & _ & _ & [(_ & Hm & _)|(_ & Hm & _)])]]].
  - contradiction.
  - rewrite Hp in Hne. contradiction.
  - rewrite Hp in Hne. contradiction.
  - contradiction.
  - exists block. auto.
Qed.

(** Parsing discards every message below the worker's offset. *)
Lemma parseFetchResult_discards pc result :
  Forall (fun msg => offset pc <= cm_Offset msg)
    (p_messages (parseFetchResult cfg pc result)).
Proof.
  destruct (p_messages (parseFetchResult cfg pc result)) as [|m ms] eqn:Hm;
    [constructor|].
  destruct (parseFetchResult_messages pc result) as (block & _ & Hmsgs & _).
  { rewrite Hm. discriminate. }
  rewrite <- Hm, Hmsgs. apply Forall_forall. intros msg Hin.
  apply list_elem_of_fmap in Hin as (mb & -> & Hin).
  unfold survivors in Hin. apply list_elem_of_filter in Hin as [Hge _]. exact Hge.
Qed.

End Delivery.

Section Monotone.

Import sarama consumer.

Variable cfg : Config.
Variable tp0 : topicPartition.
Variables concreteOffset bound : Z.

Lemma pumpInv_start fetchResultCh :
  Int.MinInt64 <= concreteOffset <= bound ->
  pumpInv tp0 concreteOffset bound
    (pullMessages_start (spawnPartitionConsumer cfg tp0 concreteOffset) fetchResultCh) [] 0.
Proof.
  intros Hs. constructor; cbn; try constructor; try lia; try discriminate.
  all: intros; congruence.
Qed.

(** Every turn of the pump keeps the invariant and does not move the
    worker's offset back. *)
Lemma step_pumpInv ev st st' acts delivered k :
  pumpInv tp0 concreteOffset bound st delivered k ->
  0 <= k -> bound + k + 1 <= Int.MaxInt64 ->
  inLogOrder tp0 bound ev ->
  step cfg ev st = Some (st', acts) ->
  pumpInv tp0 concreteOffset bound st' (delivered ++ delivered_offsets acts) (k + 1)
  /\ offset (worker st) <= offset (worker st').
Proof.
  intros Hinv Hk Hbound Horder Hstep.
  pose proof (step_alive cfg _ _ _ _ Hstep) as Hx.
  destruct Hinv as [Htp Hmin Hoff Hsorted Hfrom Hbelow Hreq Hres Hpend].
  specialize (Hreq Hx). specialize (Hres Hx). specialize (Hpend Hx).
  destruct ev as [bw now| |result now errorsReady| | |].
  - (* a new assignment *)
    destruct (step_assignment cfg _ _ _ _ _ Hstep)
      as (Hw & Hx' & Hr' & Hm' & Hf' & Hc' & Hi' & Hq' & Hacts).
    assert (Hd : delivered_offsets acts = [])
      by (destruct Hacts as [-> | ->]; reflexivity).
    rewrite Hd, app_nil_r, Hw. split; [|lia].
    constructor; rewrite ?Hw, ?Hr', ?Hm'; try assumption; try lia.
    + intros _ Hq. destruct Hq' as [Hq'|[? ?]]; [|auto].
      apply Hreq. rewrite <- Hq'. exact Hq.
    + intros _. exact Hres.
    + intros _ Hm. unfold pending. rewrite Hc', Hf', Hi'. apply Hpend. exact Hm.
  - (* the request is sent *)
    destruct (step_request cfg _ _ _ Hstep) as (ch & Hq & -> & ->).
    cbn [delivered_offsets pushed flat_map map]. rewrite app_nil_r.
    split; [|cbn; lia].
    destruct Hreq as [Hr Hm]; [rewrite Hq; discriminate|].
    constructor; cbn; try assumption; try lia.
    + intros _ Hn. contradiction.
    + intros _ _. exact Hm.
    + intros _ Hm'. congruence.
  - (* a fetch result *)
    destruct (step_result cfg _ _ _ _ _ _ Hstep) as (Hr & Hw & Hr' & Hf' & Hcases).
    specialize (Hres Hr).
    destruct (parseFetchResult_offset cfg (worker st) result) as (Htp' & Hoff');
      [lia|lia|].
    assert (Hd : delivered_offsets acts = []).
    { destruct Hcases as [(_ & _ & ->)
                         |[(err & re & _ & _ & _ & _ & _ & Hre & ->)
                          |[(_ & _ & _ & _ & _ & ->)
                           |(_ & _ & _ & _ & _ & _ & _ & ->)]]];
        rewrite ?delivered_offsets_app, ?delivered_reported, ?delivered_reportError;
        try reflexivity.
      destruct Hre as [-> | ->]; reflexivity. }
    rewrite Hd, app_nil_r, Hw. split; [|lia].
    constructor; rewrite ?Hw, ?Hr'; try assumption; try lia; try congruence.
    + eapply Forall_impl; [exact Hbelow|]. cbn. intros o Ho. lia.
    + intros Hx' Hq'.
      destruct Hcases as [(_ & Hxx & _)
                         |[(err & re & _ & _ & _ & Hq & Hm & _)
                          |[(_ & _ & _ & _ & Hm & _)
                           |(_ & _ & _ & Hq & _)]]].
      * congruence.
      * split; [reflexivity|]. rewrite Hm. exact Hres.
      * split; [reflexivity|]. rewrite Hm. exact Hres.
      * exfalso. rewrite Hq in Hq'.
        destruct (nilOrFetchRequestsCh st) as [ch|]; [|contradiction].
        destruct Hreq as [Hr0 _]; [discriminate|]. congruence.
    + intros Hx' Hm'.
      destruct Hcases as [(_ & Hxx & _)
                         |[(err & re & _ & _ & _ & _ & Hm & _)
                          |[(_ & _ & _ & _ & Hm & _)
                           |(_ & Hne & _ & _ & _ & Hi & Hc & _)]]];
        try congruence.
      destruct (parseFetchResult_messages cfg (worker st) result Hne)
        as (block & Hcar & Hmsgs & Ho).
      unfold pending. rewrite Hi, Hf', Hc, drop_0. split; [reflexivity|].
      split; [exact Hne|].
      rewrite Hmsgs, toConsumerMessage_offsets, survivors_offsets.
      destruct Horder as [Hord Hbnd]. cbn [eventOffsets] in Hord, Hbnd.
      rewrite <- Htp, (carries_offsets _ _ _ Hcar) in Hord, Hbnd.
      split; [apply StronglySorted_filter; exact Hord|].
      rewrite Ho. apply Forall_forall. intros o Hin.
      apply list_elem_of_filter in Hin as [Hge Hin].
      rewrite Forall_forall in Hbnd. specialize (Hbnd o Hin). lia.
  - (* a message is pushed *)
    destruct (step_push cfg _ _ _ Hstep)
      as (Hm & msg & Hcur & -> & Hw & Hx' & Hr' & Hf' & Hi' & Hnext).
    destruct (Hpend Hm) as (Hcur0 & Hne & Hps & Hpb).
    rewrite Hcur in Hcur0. symmetry in Hcur0.
    unfold pending in Hcur0, Hne, Hps, Hpb. rewrite lookup_drop, Nat.add_0_r in Hcur0.
    rewrite (drop_S _ _ _ Hcur0) in Hps, Hpb. cbn [map] in Hps, Hpb.
    apply StronglySorted_cons in Hps as [Hhead Hps].
    apply Forall_cons in Hpb as [Hmsg Hpb].
    assert (Hnew : offset (worker st') = cm_Offset msg + 1).
    { rewrite Hw. cbn [offset set_offset]. apply int64_id. unfold Int.is_int64. lia. }
    cbn [delivered_offsets pushed flat_map map app].
    split; [|lia].
    assert (Hresf : nilOrFetchResultsCh st = false).
    { destruct (nilOrFetchResultsCh st); [|reflexivity].
      rewrite Hres in Hm by reflexivity. discriminate. }
    constructor; rewrite ?Hnew; try assumption; try lia.
    + rewrite Hw. exact Htp.
    + apply StronglySorted_app_2; [|exact Hsorted|repeat constructor].
      intros x1 x2 H1 H2. apply list_elem_of_singleton in H2 as ->.
      rewrite Forall_forall in Hbelow. specialize (Hbelow x1 H1). lia.
    + apply Forall_app. split; [exact Hfrom|]. repeat constructor. lia.
    + apply Forall_app. split.
      * eapply Forall_impl; [exact Hbelow|]. cbn. intros o Ho. lia.
      * repeat constructor. lia.
    + intros _ Hq'. destruct Hnext as [(_ & _ & _ & Hq)|(_ & Hm' & _)].
      * exfalso. rewrite Hq in Hq'. destruct (Hreq Hq') as [_ Hm0]. congruence.
      * rewrite Hr'. auto.
    + intros _. rewrite Hr', Hresf. discriminate.
    + intros _ Hm'. destruct Hnext as [(Hlt & Hc' & _ & _)|(_ & Hm0 & _)]; [|congruence].
      unfold pending. rewrite Hi', Hf', Hc', lookup_drop, Nat.add_0_r.
      split; [reflexivity|]. split.
      * intros Hnil. apply drop_nil_inv in Hnil. lia.
      * split; [exact Hps|].
        rewrite Forall_forall in Hhead, Hpb. apply Forall_forall. intros o Hin.
        specialize (Hhead o Hin). specialize (Hpb o Hin). lia.
  - (* the retry timer *)
    destruct (step_timer cfg _ _ _ Hstep) as (_ & -> & ->).
    cbn [delivered_offsets pushed flat_map map]. rewrite app_nil_r.
    split; [|cbn; lia].
    constructor; cbn; try assumption; try lia.
    all: intros _; assumption.
  - (* closing *)
    destruct (step_closing cfg _ _ _ Hstep) as (-> & ->).
    cbn [delivered_offsets pushed flat_map map closeAll]. rewrite app_nil_r.
    split; [|cbn; lia].
    constructor; cbn; try assumption; try lia.
    all: intros; discriminate.
Qed.

Lemma run_pumpInv evs st st' trace delivered k :
  pumpInv tp0 concreteOffset bound st delivered k ->
  0 <= k -> bound + k + Z.of_nat (length evs) <= Int.MaxInt64 ->
  Forall (inLogOrder tp0 bound) evs ->
  run cfg evs st = Some (st', trace) ->
  pumpInv tp0 concreteOffset bound st' (delivered ++ delivered_offsets trace)
    (k + Z.of_nat (length evs))
  /\ offset (worker st) <= offset (worker st').
Proof.
  revert st trace delivered k.
  induction evs as [|ev evs IH]; intros st trace delivered k Hinv Hk Hbound Hall Hrun.
  - inversion Hrun; subst. cbn. rewrite app_nil_r, Z.add_0_r. split; [exact Hinv|lia].
  - cbn [run] in Hrun. cbn [length] in Hbound.
    destruct (step cfg ev st) as [[st1 acts]|] eqn:Hstep; [|discriminate].
    destruct (run cfg evs st1) as [[st2 trace2]|] eqn:Hrun2; [|discriminate].
    inversion Hrun; subst. inversion Hall as [|ev' evs' Hev Hrest]; subst.
    destruct (step_pumpInv ev st st1 acts delivered k Hinv Hk ltac:(lia) Hev Hstep)
      as (Hinv1 & Hmono1).
    destruct (IH st1 trace2 _ (k + 1) Hinv1 ltac:(lia) ltac:(lia) Hrest Hrun2)
      as (Hinv2 & Hmono2).
    split; [|lia].
    rewrite delivered_offsets_app, app_assoc.
    replace (k + Z.of_nat (length (ev :: evs)))
      with (k + 1 + Z.of_nat (length evs)) by (cbn [length]; lia).
    exact Hinv2.
Qed.

(** A push from a state of the invariant moves the offset one past the
    message pushed. *)
Lemma push_pumpInv st st' acts delivered k :
  pumpInv tp0 concreteOffset bound st delivered k ->
  bound <= Int.MaxInt64 ->
  step cfg EvPushMessage st = Some (st', acts) ->
  exists msg,
    acts = [APush msg]
    /\ offset (worker st') = cm_Offset msg + 1
    /\ offset (worker st) < offset (worker st').
Proof.
  intros Hinv Hbound Hstep.
  pose proof (step_alive cfg _ _ _ _ Hstep) as Hx.
  destruct (step_push cfg _ _ _ Hstep) as (Hm & msg & Hcur & -> & Hw & _).
  destruct (inv_pending _ _ _ _ _ _ Hinv Hx Hm) as (Hcur0 & _ & _ & Hpb).
  pose proof (inv_start _ _ _ _ _ _ Hinv) as Hmin.
  pose proof (inv_offset _ _ _ _ _ _ Hinv) as Hoff.
  rewrite Hcur in Hcur0. symmetry in Hcur0.
  unfold pending in Hcur0, Hpb. rewrite lookup_drop, Nat.add_0_r in Hcur0.
  rewrite (drop_S _ _ _ Hcur0) in Hpb. cbn [map] in Hpb.
  apply Forall_cons in Hpb as [Hmsg _].
  exists msg. split; [reflexivity|].
  assert (Hnew : offset (worker st') = cm_Offset msg + 1).
  { rewrite Hw. cbn [offset set_offset]. apply int64_id. unfold Int.is_int64. lia. }
  split; [exact Hnew|lia].
Qed.

(** C1, as the code has it. Let the worker start at [concreteOffset], the
    offset that [ConsumePartition] returned, and let the broker answer in
    log order: within every fetch result the offsets of the partition's
    messages increase strictly.  Let the offsets stay clear of the end of
    [int64]: the start and every message lie below a bound that the length of
    the run does not carry past the largest [int64].  Then the worker's
    offset never decreases along the run and is at least [concreteOffset];
    every push sets it one past the offset of the message pushed; the
    offsets delivered on the messages channel increase strictly and are at
    least [concreteOffset]; and parsing hands over no message below the
    worker's offset. *)
Theorem delivery_in_log_order evs fetchResultCh st trace :
  let start :=
    pullMessages_start (spawnPartitionConsumer cfg tp0 concreteOffset) fetchResultCh in
  Int.MinInt64 <= concreteOffset <= bound ->
  bound + Z.of_nat (length evs) <= Int.MaxInt64 ->
  Forall (inLogOrder tp0 bound) evs ->
  run cfg evs start = Some (st, trace) ->
  concreteOffset <= offset (worker st)
  /\ (forall evs1 evs2 st1 trace1,
        evs = evs1 ++ evs2 ->
        run cfg evs1 start = Some (st1, trace1) ->
        offset (worker st1) <= offset (worker st))
  /\ (forall st' acts,
        step cfg EvPushMessage st = Some (st', acts) ->
        exists msg,
          acts = [APush msg]
          /\ offset (worker st') = cm_Offset msg + 1
          /\ offset (worker st) < offset (worker st'))
  /\ StronglySorted Z.lt (delivered_offsets trace)
  /\ Forall (fun o => concreteOffset <= o) (delivered_offsets trace)
  /\ Forall (fun o => o < offset (worker st)) (delivered_offsets trace)
  /\ (forall result,
        Forall (fun msg => offset (worker st) <= cm_Offset msg)
          (p_messages (parseFetchResult cfg (worker st) result))).
Proof.
  intros start Hstart Hbound Hall Hrun.
  pose proof (pumpInv_start fetchResultCh Hstart) as Hinv0. fold start in Hinv0.
  destruct (run_pumpInv evs start st trace [] 0 Hinv0 ltac:(lia) ltac:(lia) Hall Hrun)
    as (Hinv & Hmono).
  cbn [app] in Hinv.
  split; [apply (inv_offset _ _ _ _ _ _ Hinv)|].
  split.
  { intros evs1 evs2 st1 trace1 -> Hrun1.
    rewrite run_app, Hrun1 in Hrun.
    destruct (run cfg evs2 st1) as [[st2 trace2]|] eqn:Hrun2; [|discriminate].
    inversion Hrun; subst.
    rewrite length_app, Nat2Z.inj_add in Hbound.
    apply Forall_app in Hall as [Hall1 Hall2].
    destruct (run_pumpInv evs1 start st1 trace1 [] 0 Hinv0 ltac:(lia) ltac:(lia)
                Hall1 Hrun1) as (Hinv1 & _).
    destruct (run_pumpInv evs2 st1 st trace2 _ _ Hinv1 ltac:(lia) ltac:(lia)
                Hall2 Hrun2) as (_ & Hle).
    exact Hle. }
  split.
  { intros st' acts Hstep. eapply push_pumpInv; [exact Hinv|lia|exact Hstep]. }
  split; [apply (inv_sorted _ _ _ _ _ _ Hinv)|].
  split; [apply (inv_from _ _ _ _ _ _ Hinv)|].
  split; [apply (inv_below _ _ _ _ _ _ Hinv)|].
  intros result. apply parseFetchResult_discards.
Qed.

End Monotone.

Section RunsSamples.

Import sarama consumer.

Lemma unbounded_fetchSize_wraps_witness :
  let answers n := replicate n (samples.resultOf samples.partialBlock, 0, true) in
  run samples.unboundedConfig [EvAssignment (Some 7%nat) 0]
    (pullMessages_start
       (spawnPartitionConsumer samples.unboundedConfig (mkTopicPartition "t" 0) 10) 1%nat)
    = Some (samples.armedPump samples.unboundedConfig, [])
  /\ (exists st' trace,
        run samples.unboundedConfig (flat_map poll (answers 16%nat))
          (samples.armedPump samples.unboundedConfig) = Some (st', trace)
        /\ fetchSize (worker st') = -2147483648)
  /\ (exists st' trace,
        run samples.unboundedConfig (flat_map poll (answers 17%nat))
          (samples.armedPump samples.unboundedConfig) = Some (st', trace)
        /\ fetchSize (worker st') = 0).
Proof.
  intros answers.
  assert (Hmax : Consumer_Fetch_Max samples.unboundedConfig <= 0) by (cbn; lia).
  assert (Hfs : Int.is_int32
                  (fetchSize (worker (samples.armedPump samples.unboundedConfig))))
    by (unfold Int.is_int32, Int.MinInt32, Int.MaxInt32; cbn; lia).
  assert (Harmed : armed (samples.armedPump samples.unboundedConfig) 7%nat)
    by (repeat split; reflexivity).
  assert (Hall : forall n,
             Forall (fun r => exists block,
                       carries (worker (samples.armedPump samples.unboundedConfig))
                         r.1.1 block /\ emptyPartial block) (answers n)).
  { intros n. apply Forall_replicate. exists samples.partialBlock.
    split; [|split; reflexivity].
    split; [reflexivity|]. eexists. repeat split; reflexivity. }
  split; [reflexivity|]. split.
  - destruct (unbounded_fetchSize_wraps samples.unboundedConfig (answers 16%nat)
                (samples.armedPump samples.unboundedConfig) 7%nat Hmax Hfs Harmed
                (Hall 16%nat)) as (st' & Hrun & Hw & _).
    exists st'. eexists. split; [exact Hrun|]. rewrite Hw. reflexivity.
  - destruct (unbounded_fetchSize_wraps samples.unboundedConfig (answers 17%nat)
                (samples.armedPump samples.unboundedConfig) 7%nat Hmax Hfs Harmed
                (Hall 17%nat)) as (st' & Hrun & Hw & _).
    exists st'. eexists. split; [exact Hrun|]. rewrite Hw. reflexivity.
Defined.

Lemma fetchSize_within_bounds_witness :
  exists st trace,
    run samples.sampleConfig
      (EvAssignment (Some 7%nat) 0
         :: flat_map poll (replicate 3 (samples.resultOf samples.partialBlock, 0, true)))
      (pullMessages_start
         (spawnPartitionConsumer samples.sampleConfig (mkTopicPartition "t" 0) 10) 1%nat)
      = Some (st, trace)
    /\ fetchSize (worker st) = 4096
    /\ 1024 <= fetchSize (worker st) <= 4096.
Proof.
  assert (Hrun : exists st trace,
             run samples.sampleConfig
               (EvAssignment (Some 7%nat) 0
                  :: flat_map poll
                       (replicate 3 (samples.resultOf samples.partialBlock, 0, true)))
               (pullMessages_start
                  (spawnPartitionConsumer samples.sampleConfig
                     (mkTopicPartition "t" 0) 10) 1%nat)
               = Some (st, trace)
             /\ fetchSize (worker st) = 4096).
  { eexists _, _. vm_compute. split; reflexivity. }
  destruct Hrun as (st & trace & Hrun & Hfs).
  exists st, trace. split; [exact Hrun|]. split; [exact Hfs|].
  assert (Hdefault : 0 <= Consumer_Fetch_Default samples.sampleConfig
                       <= Consumer_Fetch_Max samples.sampleConfig) by (cbn; lia).
  assert (Hmax : 0 < Consumer_Fetch_Max samples.sampleConfig <= 2 ^ 30) by (cbn; lia).
  apply (fetchSize_within_bounds samples.sampleConfig Hdefault Hmax _ _ _ _ _ _ Hrun).
Defined.

(** The claim C3 as worded fails twice.  With [Fetch.Default] = 1024 above
    [Fetch.Max] = 512 the worker starts outside the bounds.  With
    [Fetch.Default] = 2^30 + 1 and [Fetch.Max] = 2^31 - 1 one empty message
    set with the partial-trailing-message flag doubles the fetch size past
    the [int32] range: it becomes negative and is not clamped. *)
Lemma fetchSize_leaves_bounds :
  (0 < Consumer_Fetch_Max samples.shrunkConfig
   /\ ~ bounded samples.shrunkConfig
          (worker (pullMessages_start
                     (spawnPartitionConsumer samples.shrunkConfig
                        (mkTopicPartition "t" 0) 10) 1%nat)))
  /\ (0 < Consumer_Fetch_Max samples.hugeConfig
      /\ exists st trace,
           run samples.hugeConfig
             (EvAssignment (Some 7%nat) 0
                :: poll (samples.resultOf samples.partialBlock, 0, true))
             (pullMessages_start
                (spawnPartitionConsumer samples.hugeConfig
                   (mkTopicPartition "t" 0) 10) 1%nat)
             = Some (st, trace)
           /\ fetchSize (worker st) = -2147483646
           /\ ~ bounded samples.hugeConfig (worker st)).
Proof.
  split.
  - split; [reflexivity|]. unfold bounded. cbn. lia.
  - split; [reflexivity|]. eexists _, _. split; [vm_compute; reflexivity|].
    split; [reflexivity|]. unfold bounded. cbn. lia.
Qed.

Lemma pullMessages_closes_in_order_witness :
  exists st trace,
    run samples.sampleConfig
      [EvAssignment (Some 7%nat) 0; EvSendRequest;
       EvFetchResult (samples.resultOf samples.outOfRangeBlock) 0 true]
      (pullMessages_start
         (spawnPartitionConsumer samples.sampleConfig (mkTopicPartition "t" 0) 10) 1%nat)
      = Some (st, trace)
    /\ trace = [ASendRequest 7%nat
                  (requestOf (samples.workerAt 10 1024) 1%nat);
                ASendError (mkConsumerError "t" 0 ErrOffsetOutOfRange);
                ACloseMessages; ACloseErrors; ACloseClosed]
    /\ exited st = true
    /\ forall ev, step samples.sampleConfig ev st = None.
Proof.
  assert (Hrun : exists st trace,
             run samples.sampleConfig
               [EvAssignment (Some 7%nat) 0; EvSendRequest;
                EvFetchResult (samples.resultOf samples.outOfRangeBlock) 0 true]
               (pullMessages_start
                  (spawnPartitionConsumer samples.sampleConfig
                     (mkTopicPartition "t" 0) 10) 1%nat)
               = Some (st, trace)
             /\ trace = [ASendRequest 7%nat
                           (requestOf (samples.workerAt 10 1024) 1%nat);
                         ASendError (mkConsumerError "t" 0 ErrOffsetOutOfRange);
                         ACloseMessages; ACloseErrors; ACloseClosed]
             /\ exited st = true).
  { eexists _, _. vm_compute. repeat split; reflexivity. }
  destruct Hrun as (st & trace & Hrun & Htrace & Hx).
  exists st, trace. split; [exact Hrun|]. split; [exact Htrace|]. split; [exact Hx|].
  destruct (pullMessages_closes_in_order samples.sampleConfig _ _ _ _ _ Hrun)
    as (_ & _ & Hafter & _).
  exact (Hafter Hx).
Defined.

Lemma delivery_in_log_order_witness :
  exists st trace,
    run samples.sampleConfig
      [EvAssignment (Some 7%nat) 0; EvSendRequest;
       EvFetchResult (samples.resultOf (samples.blockOf 20 [10; 11; 12])) 0 true;
       EvPushMessage; EvPushMessage; EvPushMessage]
      (pullMessages_start
         (spawnPartitionConsumer samples.sampleConfig (mkTopicPartition "t" 0) 10) 1%nat)
      = Some (st, trace)
    /\ delivered_offsets trace = [10; 11; 12]
    /\ map cm_HighWaterMark (pushed trace) = [20; 20; 20]
    /\ offset (worker st) = 13
    /\ lag (worker st) = 8
    /\ StronglySorted Z.lt (delivered_offsets trace)
    /\ Forall (fun o => 10 <= o) (delivered_offsets trace).
Proof.
  assert (Hrun : exists st trace,
             run samples.sampleConfig
               [EvAssignment (Some 7%nat) 0; EvSendRequest;
                EvFetchResult (samples.resultOf (samples.blockOf 20 [10; 11; 12])) 0 true;
                EvPushMessage; EvPushMessage; EvPushMessage]
               (pullMessages_start
                  (spawnPartitionConsumer samples.sampleConfig
                     (mkTopicPartition "t" 0) 10) 1%nat)
               = Some (st, trace)
             /\ delivered_offsets trace = [10; 11; 12]
             /\ map cm_HighWaterMark (pushed trace) = [20; 20; 20]
             /\ offset (worker st) = 13
             /\ lag (worker st) = 8).
  { eexists _, _. vm_compute. repeat split; reflexivity. }
  destruct Hrun as (st & trace & Hrun & Hdel & Hhwm & Hoff & Hlag).
  exists st, trace.
  split; [exact Hrun|]. split; [exact Hdel|]. split; [exact Hhwm|].
  split; [exact Hoff|]. split; [exact Hlag|].
  assert (Hstart : Int.MinInt64 <= 10 <= 100)
    by (unfold Int.MinInt64; cbn; lia).
  assert (Hbound : 100 + Z.of_nat (length
            [EvAssignment (Some 7%nat) 0; EvSendRequest;
             EvFetchResult (samples.resultOf (samples.blockOf 20 [10; 11; 12])) 0 true;
             EvPushMessage; EvPushMessage; EvPushMessage]) <= Int.MaxInt64)
    by (unfold Int.MaxInt64; cbn; lia).
  assert (Hall : Forall (inLogOrder (mkTopicPartition "t" 0) 100)
            [EvAssignment (Some 7%nat) 0; EvSendRequest;
             EvFetchResult (samples.resultOf (samples.blockOf 20 [10; 11; 12])) 0 true;
             EvPushMessage; EvPushMessage; EvPushMessage]).
  { repeat (apply Forall_cons; split); try apply Forall_nil;
      unfold inLogOrder; vm_compute eventOffsets;
      (split; repeat constructor; lia). }
  destruct (delivery_in_log_order samples.sampleConfig (mkTopicPartition "t" 0) 10 100
              _ 1%nat st trace Hstart Hbound Hall Hrun)
    as (_ & _ & _ & Hsorted & Hfrom & _).
  split; [exact Hsorted|exact Hfrom].
Defined.

(** The claim C1 as worded fails twice.  A fetch result that lists the
    offsets 7 and 6, in this order, is delivered in this order: the worker's
    offset goes from 8 back to 7.  And at the end of [int64] the offset wraps:
    after the message with the largest offset is pushed, the worker's offset
    is the smallest [int64]. *)
Lemma delivery_out_of_order :
  (exists st4 trace4 st5 trace5,
     run samples.sampleConfig
       [EvAssignment (Some 7%nat) 0; EvSendRequest;
        EvFetchResult (samples.resultOf (samples.blockOf 20 [7; 6])) 0 true;
        EvPushMessage]
       (pullMessages_start
          (spawnPartitionConsumer samples.sampleConfig (mkTopicPartition "t" 0) 5) 1%nat)
       = Some (st4, trace4)
     /\ run samples.sampleConfig
          [EvAssignment (Some 7%nat) 0; EvSendRequest;
           EvFetchResult (samples.resultOf (samples.blockOf 20 [7; 6])) 0 true;
           EvPushMessage; EvPushMessage]
          (pullMessages_start
             (spawnPartitionConsumer samples.sampleConfig (mkTopicPartition "t" 0) 5)
             1%nat)
          = Some (st5, trace5)
     /\ offset (worker st4) = 8
     /\ offset (worker st5) = 7
     /\ delivered_offsets trace5 = [7; 6]
     /\ ~ StronglySorted Z.lt (delivered_offsets trace5))
  /\ (exists st trace,
        run samples.sampleConfig
          [EvAssignment (Some 7%nat) 0; EvSendRequest;
           EvFetchResult
             (samples.resultOf (samples.blockOf Int.MaxInt64 [Int.MaxInt64])) 0 true;
           EvPushMessage]
          (pullMessages_start
             (spawnPartitionConsumer samples.sampleConfig (mkTopicPartition "t" 0)
                Int.MaxInt64) 1%nat)
          = Some (st, trace)
        /\ delivered_offsets trace = [Int.MaxInt64]
        /\ offset (worker st) = Int.MinInt64).
Proof.
  split.
  - eexists _, _, _, _. vm_compute.
    repeat split; try reflexivity.
    intros Hs. inversion Hs as [|x l _ Hall]; subst.
    inversion Hall as [|y l' Hlt _]; subst. discriminate Hlt.
  - eexists _, _. vm_compute. repeat split; reflexivity.
Qed.

(** A connection error opens the circuit: the batch that arrives within the
    backoff is answered with the error and no fetch; the one after the backoff
    is fetched again. *)
Example executeBatches_circuit_breaker :
  let failing := fun _ : FetchRequest => (None, Some (OtherError "EOF")) in
  let healthy := fun _ : FetchRequest => (Some (mkFetchResponse ∅), None) in
  let fr := requestOf (samples.workerAt 10 1024) 1%nat in
  let now := 63000000000000000000 in
  snd (executeBatches samples.sampleConfig executor_start
         [mkBatch [fr] now failing (now + 5);
          mkBatch [fr] (now + 1000000000) healthy 0;
          mkBatch [fr] (now + 3000000000) healthy 0])
  = [CFetch (mkFetchRequest 1 250 [blockFor fr]);
     CClose;
     CReply 1%nat (mkFetchResult None (Some (OtherError "EOF")));
     CReply 1%nat (mkFetchResult None (Some (OtherError "EOF")));
     CFetch (mkFetchRequest 1 250 [blockFor fr]);
     CReply 1%nat (mkFetchResult (Some (mkFetchResponse ∅)) None)].
Proof. vm_compute. reflexivity. Qed.

End RunsSamples.

(** * Further properties

    Properties of the code that the claims leave aside. *)

(** ** Producing over HTTP *)

Section HandleProduce.

Import sarama consumer httpsrv.

Variable proxySet : string -> proxyOps + error.

(** What [handleProduce] does with a request that passes its checks. *)
Lemma handleProduce_accepted r pxy message :
  getProxyOps proxySet (base r) = inl pxy ->
  is_Some (Header r !! hdrContentLength) ->
  Body r = inl message ->
  strconv.Atoi (Header_Get (Header r) hdrContentLength)
    = Some (Z.of_nat (length message)) ->
  let topic := default "" (Vars (base r) !! prmTopic) in
  let key := toEncoderPreservingNil (getParamBytes (base r) prmKey) in
  handleProduce proxySet r =
    match Form (base r) !! prmSync with
    | None =>
        (mkAnswer StatusOK EmptyResponse,
         [CallAsyncProduce topic key (StringEncoder message)])
    | Some _ =>
        match Produce pxy topic key (StringEncoder message) with
        | inr err =>
            (mkAnswer (if decide (err = ErrUnknownTopicOrPartition)
                       then StatusNotFound else StatusInternalServerError)
               (errorOf err),
             [CallProduce topic key (StringEncoder message)])
        | inl prodMsg =>
            (mkAnswer StatusOK
               (produceHTTPResponse (pm_Partition prodMsg) (pm_Offset prodMsg)),
             [CallProduce topic key (StringEncoder message)])
        end
    end.
Proof.
  intros Hp [values Hh] Hb Ha topic key. unfold handleProduce.
  rewrite Hp, Hh, Ha, Hb, Z.eqb_refl. cbn [negb].
  destruct (Form (base r) !! prmSync); reflexivity.
Qed.

(** What it does with any other request. *)
Lemma handleProduce_refused r :
  (forall message, ~ accepted proxySet r message) ->
  (handleProduce proxySet r).2 = []
  /\ a_status (handleProduce proxySet r).1 = StatusBadRequest.
Proof.
  intros Hno. unfold handleProduce.
  destruct (getProxyOps proxySet (base r)) as [pxy|err] eqn:Hp; [|auto].
  destruct (Header r !! hdrContentLength) as [values|] eqn:Hh; [|auto].
  destruct (strconv.Atoi (Header_Get (Header r) hdrContentLength))
    as [messageSize|] eqn:Ha; [|auto].
  destruct (Body r) as [message|err] eqn:Hb; [|auto].
  destruct (Z.eqb_spec (Z.of_nat (length message)) messageSize) as [Heq|Hne]; [|auto].
  exfalso. apply (Hno message). unfold accepted.
  rewrite Hh, Ha, Heq. eauto.
Qed.

(** X1. [handleProduce] hands a message to the proxy only when the request
    passes all its checks: the proxy exists, the [Content-Length] header is
    present and parses as a number, the body can be read, and its length is
    that number.  Then it makes exactly one call, with the topic of the route,
    the key of the request and the body as the message.  Every other request
    is answered with 400 and nothing is handed over. *)
Theorem handleProduce_submits_checked r :
  let topic := default "" (Vars (base r) !! prmTopic) in
  let key := toEncoderPreservingNil (getParamBytes (base r) prmKey) in
  (forall message,
     accepted proxySet r message ->
     (handleProduce proxySet r).2
       = [CallAsyncProduce topic key (StringEncoder message)]
     \/ (handleProduce proxySet r).2 = [CallProduce topic key (StringEncoder message)])
  /\ ((forall message, ~ accepted proxySet r message) ->
      (handleProduce proxySet r).2 = []
      /\ a_status (handleProduce proxySet r).1 = StatusBadRequest).
Proof.
  intros topic key. split; [|apply handleProduce_refused].
  intros message ([pxy Hp] & Hh & Hb & Ha).
  rewrite (handleProduce_accepted r pxy message Hp Hh Hb Ha).
  destruct (Form (base r) !! prmSync); [right|left; reflexivity].
  destruct (Produce pxy _ _ _); reflexivity.
Qed.

(** X2. For a request that passes the checks: without the [sync] parameter
    the message is submitted asynchronously and the answer is 200 with an
    empty body, whatever becomes of the message; with it, the message is
    produced and the answer is 404 when the error is exactly
    [ErrUnknownTopicOrPartition], 500 on any other error, and 200 with the
    partition and offset of the message on success. *)
Theorem handleProduce_outcome r pxy message :
  getProxyOps proxySet (base r) = inl pxy ->
  is_Some (Header r !! hdrContentLength) ->
  Body r = inl message ->
  strconv.Atoi (Header_Get (Header r) hdrContentLength)
    = Some (Z.of_nat (length message)) ->
  let topic := default "" (Vars (base r) !! prmTopic) in
  let key := toEncoderPreservingNil (getParamBytes (base r) prmKey) in
  let result := Produce pxy topic key (StringEncoder message) in
  (Form (base r) !! prmSync = None ->
     handleProduce proxySet r
       = (mkAnswer StatusOK EmptyResponse,
          [CallAsyncProduce topic key (StringEncoder message)]))
  /\ (is_Some (Form (base r) !! prmSync) ->
      (handleProduce proxySet r).2 = [CallProduce topic key (StringEncoder message)]
      /\ (result = inr ErrUnknownTopicOrPartition ->
            a_status (handleProduce proxySet r).1 = StatusNotFound)
      /\ (forall err, result = inr err -> err <> ErrUnknownTopicOrPartition ->
            a_status (handleProduce proxySet r).1 = StatusInternalServerError)
      /\ (forall prodMsg, result = inl prodMsg ->
            (handleProduce proxySet r).1
              = mkAnswer StatusOK
                  (produceHTTPResponse (pm_Partition prodMsg) (pm_Offset prodMsg)))).
Proof.
  intros Hp Hh Hb Ha topic key result.
  rewrite (handleProduce_accepted r pxy message Hp Hh Hb Ha).
  fold topic key result. split.
  - intros ->. reflexivity.
  - intros [v ->]. split; [destruct result; reflexivity|].
    split; [intros ->; reflexivity|].
    split.
    + intros err -> Hne. cbn.
      destruct (decide (err = ErrUnknownTopicOrPartition)); [contradiction|reflexivity].
    + intros prodMsg ->. reflexivity.
Qed.

(** X3. The key of a produced message is nil exactly when the request has no
    [key] parameter (or one without a value); a [key] parameter that is
    present, if only with the empty string, gives a key that is not nil and
    holds the bytes of its first value. *)
Theorem key_is_nil_iff_missing (r : Request) (name : string) :
  (toEncoderPreservingNil (getParamBytes r name) = None
   <-> Form r !! name = None \/ Form r !! name = Some [])
  /\ (forall v rest,
        Form r !! name = Some (v :: rest) ->
        toEncoderPreservingNil (getParamBytes r name)
          = StringEncoder (String.list_byte_of_string v))
  /\ (forall rest,
        Form r !! name = Some ("" :: rest) ->
        toEncoderPreservingNil (getParamBytes r name) = StringEncoder []).
Proof.
  unfold getParamBytes, toEncoderPreservingNil, StringEncoder.
  split; [|split].
  - destruct (Form r !! name) as [[|v rest]|]; split; auto.
    + discriminate.
    + intros [H|H]; discriminate.
  - intros v rest ->. reflexivity.
  - intros rest ->. reflexivity.
Qed.

End HandleProduce.


(** ** The group parameter *)

Section GroupParam.

Import sarama consumer httpsrv.

(** X4. [getGroupParam] yields a group exactly when the request names one
    group, or when it names none and the group is optional (the group is then
    the empty string); it fails exactly when the request names several
    groups, or none where one is required. *)
Theorem getGroupParam_one_group (r : Request) (opt : bool) :
  (forall g,
     getGroupParam r opt = inl g
     <-> groupsOf r = [g] \/ (opt = true /\ groupsOf r = [] /\ g = ""))
  /\ ((exists err, getGroupParam r opt = inr err)
      <-> (1 < length (groupsOf r))%nat \/ (opt = false /\ groupsOf r = [])).
Proof.
  unfold getGroupParam, groupsOf.
  destruct (default [] (Form r !! prmGroup)) as [|g0 [|g1 rest]]; destruct opt; cbn.
  all: split; [intros g; split|split].
  all: try (intros [H|(H1 & H2 & H3)]); try (intros [H|(H1 & H2)]);
    try (intros [err H]); try intros H;
    try discriminate; try congruence; try (cbn in *; lia); eauto.
  all: try (inversion H; subst; auto; fail).
  all: try (right; repeat split; congruence).
  all: try (left; lia).
Qed.

End GroupParam.

(** ** Offsets over HTTP *)

Section Offsets.

Import sarama consumer httpsrv.

Variable env : environment.
Variable proxySet : string -> proxyOps + error.

(** X5. A view of the offsets of a partition counts the messages between
    [Begin] and [End]; its lag is 0 for [OffsetNewest], the whole count for
    [OffsetOldest], and for an offset between [Begin] and [End] the distance
    to [End], which lies between 0 and the count.  (The differences are taken
    in [int64]; they are assumed not to overflow.) *)
Theorem offsetView_lag_within_count (po : PartitionOffset) :
  Int.is_int64 (po_End po - po_Begin po) ->
  Int.is_int64 (po_End po - po_Offset po) ->
  let v := offsetView env po in
  pov_Count v = po_End po - po_Begin po
  /\ (po_Offset po = OffsetNewest -> pov_Lag v = 0)
  /\ (po_Offset po = OffsetOldest -> pov_Lag v = pov_Count v)
  /\ (0 <= po_Begin po <= po_Offset po -> po_Offset po <= po_End po ->
        pov_Lag v = po_End po - po_Offset po /\ 0 <= pov_Lag v <= pov_Count v).
Proof.
  intros Hcount Hlag v. subst v. unfold offsetView. cbn.
  rewrite !(int64_id _ Hcount), !(int64_id _ Hlag).
  split; [reflexivity|]. split; [intros ->; reflexivity|].
  split; [intros ->; reflexivity|].
  intros Hb He.
  destruct (Z.eqb_spec (po_Offset po) OffsetNewest) as [Hn|_];
    [unfold OffsetNewest in Hn; lia|].
  destruct (Z.eqb_spec (po_Offset po) OffsetOldest) as [Ho|_];
    [unfold OffsetOldest in Ho; lia|].
  lia.
Qed.

(** X6. [handleGetOffsets] answers 400 exactly when the proxy or the group of
    the request is not found.  Otherwise: when the proxy yields the offsets of
    the group, the answer is 200 with one view per partition, in the same
    order; when it yields an error, the answer is 404 exactly when the error
    is an [ErrQuery] caused by [ErrUnknownTopicOrPartition], and 500 in every
    other case. *)
Theorem handleGetOffsets_status (r : fullRequest) :
  let ans := handleGetOffsets env proxySet r in
  let topic := default "" (Vars (base r) !! prmTopic) in
  (a_status ans = StatusBadRequest
   <-> (exists err, getProxyOps proxySet (base r) = inr err)
       \/ (exists err, getGroupParam (base r) false = inr err))
  /\ (forall pxy group,
        getProxyOps proxySet (base r) = inl pxy ->
        getGroupParam (base r) false = inl group ->
        (forall partitionOffsets,
           GetGroupOffsets pxy group topic = inl partitionOffsets ->
           exists views,
             ans = mkAnswer StatusOK (offsetViews views)
             /\ length views = length partitionOffsets
             /\ map pov_Partition views = map po_Partition partitionOffsets
             /\ map pov_Offset views = map po_Offset partitionOffsets)
        /\ (forall err,
              GetGroupOffsets pxy group topic = inr err ->
              (a_status ans = StatusNotFound
               <-> asErrQuery env err = Some ErrUnknownTopicOrPartition)
              /\ (a_status ans = StatusInternalServerError
                  <-> asErrQuery env err <> Some ErrUnknownTopicOrPartition))).
Proof.
  intros ans topic. subst ans. unfold handleGetOffsets. fold topic.
  destruct (getProxyOps proxySet (base r)) as [pxy|e] eqn:Hp.
  2:{ split; [|intros ? ? H; discriminate].
      split; [intros _; left; eauto|reflexivity]. }
  destruct (getGroupParam (base r) false) as [group|e] eqn:Hg.
  2:{ split; [|intros ? ? _ H; discriminate].
      split; [intros _; right; eauto|reflexivity]. }
  split.
  - split.
    + destruct (GetGroupOffsets pxy group topic) as [pos|err]; [discriminate|].
      unfold offsetsError. destruct (asErrQuery env err) as [cause|];
        [destruct (decide _)|]; discriminate.
    + intros [[err H]|[err H]]; discriminate.
  - intros pxy' group' Hp' Hg'. injection Hp' as <-. injection Hg' as <-.
    split.
    + intros pos ->. eexists. split; [reflexivity|].
      rewrite length_map, !map_map. auto.
    + intros err ->. unfold offsetsError.
      destruct (asErrQuery env err) as [cause|].
      * destruct (decide (cause = ErrUnknownTopicOrPartition)) as [->|Hne]; cbn.
        -- split; split; try reflexivity; try discriminate. intros H. contradiction.
        -- split; split; try reflexivity; try discriminate; try congruence.
      * cbn. split; split; try reflexivity; try discriminate.
Qed.

(** X7. When the body of a request to set offsets decodes to the views that
    [handleGetOffsets] makes of some offsets, [handleSetOffsets] submits, in
    one call for the group and topic of the request, the same partitions with
    the same offsets and metadata; [Begin] and [End] are not passed on. *)
Theorem setOffsets_submits_views (r : fullRequest) pxy group body partitionOffsets :
  getProxyOps proxySet (base r) = inl pxy ->
  getGroupParam (base r) false = inl group ->
  Body r = inl body ->
  Unmarshal env body = inl (map (offsetView env) partitionOffsets) ->
  exists submitted,
    (handleSetOffsets env proxySet r).2
      = [CallSetGroupOffsets group (default "" (Vars (base r) !! prmTopic)) submitted]
    /\ map po_Partition submitted = map po_Partition partitionOffsets
    /\ map po_Offset submitted = map po_Offset partitionOffsets
    /\ map po_Metadata submitted = map po_Metadata partitionOffsets
    /\ Forall (fun po => po_Begin po = 0 /\ po_End po = 0) submitted.
Proof.
  intros Hp Hg Hb Hu. unfold handleSetOffsets. rewrite Hp, Hg, Hb, Hu.
  exists (map viewOffset (map (offsetView env) partitionOffsets)).
  split; [destruct (SetGroupOffsets pxy _ _ _); reflexivity|].
  rewrite !map_map. cbn.
  repeat split.
  apply Forall_forall. intros po Hin.
  apply list_elem_of_fmap in Hin as (po0 & -> & _). auto.
Qed.

(** X8. [handleGetTopicConsumers] with no group (or an empty one) answers
    with all the consumers of the topic, and with 500 on any error.  With a
    group it answers with a map that holds at most that group, and holds it
    exactly when the group has consumers of the topic; an error is answered
    with 400 when it is an [ErrInvalidParam] and with 500 otherwise. *)
Theorem handleGetTopicConsumers_of_group (r : fullRequest) pxy group :
  getProxyOps proxySet (base r) = inl pxy ->
  getGroupParam (base r) true = inl group ->
  let ans := handleGetTopicConsumers env proxySet r in
  let topic := default "" (Vars (base r) !! prmTopic) in
  (group = "" ->
     (forall consumers,
        GetAllTopicConsumers pxy topic = inl consumers ->
        ans = mkAnswer StatusOK (consumersJSON consumers))
     /\ (forall err,
           GetAllTopicConsumers pxy topic = inr err ->
           a_status ans = StatusInternalServerError))
  /\ (group <> "" ->
      (forall groupConsumers,
         GetTopicConsumers pxy group topic = inl groupConsumers ->
         exists consumers,
           ans = mkAnswer StatusOK (consumersJSON consumers)
           /\ (forall g members,
                 consumers !! g = Some members ->
                 g = group /\ members = groupConsumers /\ groupConsumers <> ∅)
           /\ (groupConsumers <> ∅ -> consumers !! group = Some groupConsumers))
      /\ (forall err,
            GetTopicConsumers pxy group topic = inr err ->
            a_status ans
              = if isErrInvalidParam env err then StatusBadRequest
                else StatusInternalServerError)).
Proof.
  intros Hp Hg ans topic. subst ans. unfold handleGetTopicConsumers.
  rewrite Hp, Hg. fold topic. split.
  - intros ->. cbn. split; [intros consumers ->|intros err ->]; reflexivity.
  - intros Hne. destruct (decide (group = "")) as [|_]; [contradiction|]. split.
    + intros groupConsumers ->. eexists. split; [reflexivity|].
      destruct (Nat.eqb_spec (size groupConsumers) 0) as [H0|H0].
      * apply map_size_empty_iff in H0 as ->. split; [|contradiction].
        intros g members H. rewrite lookup_empty in H. discriminate.
      * split.
        -- intros g members H. apply lookup_singleton_Some in H as [<- <-].
           repeat split. intros ->. apply H0. apply map_size_empty.
        -- intros _. apply lookup_singleton_eq.
    + intros err ->. destruct (isErrInvalidParam env err); reflexivity.
Qed.

End Offsets.

(** ** The route table, once more *)

Section RouteTable.

Import httpsrv.

(** X9. The route table is consistent.  Two registrations with the same
    pattern and method name the same handler, so that the repeated
    registrations cannot disagree; and the routes of the default proxy, under
    [/topics], and those of a named proxy, under [/proxies/{proxy}/topics],
    mirror each other: the same paths below, with the same methods and
    handlers. *)
Theorem routes_consistent :
  (forall r1 r2, In r1 routes -> In r2 routes ->
     pattern r1 = pattern r2 -> method r1 = method r2 ->
     route_handler r1 = route_handler r2)
  /\ (forall r, In r routes -> String.prefix "/topics/" (pattern r) = true ->
        In (underProxy r) routes)
  /\ (forall r, In r routes -> String.prefix "/proxies/" (pattern r) = true ->
        exists r0, In r0 routes /\ String.prefix "/topics/" (pattern r0) = true
                   /\ underProxy r0 = r).
Proof.
  split; [|split].
  - intros r1 r2 H1 H2. unfold routes in H1, H2. cbn [In] in H1, H2.
    repeat (destruct H1 as [<-|H1]; [|]); try contradiction;
      repeat (destruct H2 as [<-|H2]; [|]); try contradiction;
      intros Hp Hm;
      first [reflexivity | vm_compute in Hp; discriminate Hp
            | vm_compute in Hm; discriminate Hm].
  - intros r Hin. unfold routes in Hin. cbn [In] in Hin.
    repeat (destruct Hin as [<-|Hin]; [|]); try contradiction;
      intros Hpre; first [vm_compute in Hpre; discriminate Hpre
                         | vm_compute; tauto].
  - intros r Hin. unfold routes in Hin. cbn [In] in Hin.
    repeat (destruct Hin as [<-|Hin]; [|]); try contradiction;
      intros Hpre; try (vm_compute in Hpre; discriminate Hpre).
    all: first
      [ exists (mkRoute "/topics/{topic}/messages" HandleProduce "POST");
        split; [vm_compute; tauto|split; reflexivity]
      | exists (mkRoute "/topics/{topic}/messages" HandleConsume "GET");
        split; [vm_compute; tauto|split; reflexivity]
      | exists (mkRoute "/topics/{topic}/offsets" HandleGetOffsets "GET");
        split; [vm_compute; tauto|split; reflexivity]
      | exists (mkRoute "/topics/{topic}/offsets" HandleSetOffsets "POST");
        split; [vm_compute; tauto|split; reflexivity]
      | exists (mkRoute "/topics/{topic}/consumers" HandleGetTopicConsumers "GET");
        split; [vm_compute; tauto|split; reflexivity] ].
Qed.

End RouteTable.


(** ** The children of a consumer *)

Section Children.

Import sarama consumer.



(** [ConsumePartition] in its three outcomes. *)
Lemma ConsumePartition_cases c topic partition offset :
  let r := ConsumePartition c topic partition offset in
  let tp0 := mkTopicPartition topic partition in
  (exists err, r = mkConsumed c None OffsetNewest (Some err)
               /\ ((chooseStartingOffset c topic partition offset).2 = Some err
                   \/ ((chooseStartingOffset c topic partition offset).2 = None
                       /\ is_Some (children c !! tp0)
                       /\ err = ConfigurationError
                                  "That topic/partition is already being consumed")))
  \/ (exists concreteOffset,
        chooseStartingOffset c topic partition offset = (concreteOffset, None)
        /\ children c !! tp0 = None
        /\ r = mkConsumed
                 (mkConsumer (config c) (client c)
                    (<[tp0 := spawnPartitionConsumer (config c) tp0 concreteOffset]>
                       (children c)))
                 (Some (spawnPartitionConsumer (config c) tp0 concreteOffset))
                 concreteOffset None).
Proof.
  intros r tp0. subst r. unfold ConsumePartition.
  destruct (chooseStartingOffset c topic partition offset) as [co [e|]] eqn:Hc.
  - left. exists e. auto.
  - fold tp0. destruct (children c !! tp0) as [pc|] eqn:Hl.
    + left. eexists. split; [reflexivity|]. right. auto.
    + right. exists co. auto.
Qed.

(** X10. On a partition whose offsets are ordered, 0 <= oldest <= newest,
    the offset that [chooseStartingOffset] returns lies between the oldest and
    the newest offset; a request that already lies there is returned as it
    is; and choosing again from the offset returned changes nothing. *)
Theorem chooseStartingOffset_in_range c topic partition offset newest oldest :
  GetOffset (client c) topic partition OffsetNewest = (newest, None) ->
  GetOffset (client c) topic partition OffsetOldest = (oldest, None) ->
  0 <= oldest <= newest ->
  let chosen := (chooseStartingOffset c topic partition offset).1 in
  oldest <= chosen <= newest
  /\ (oldest <= offset <= newest -> chosen = offset)
  /\ chooseStartingOffset c topic partition chosen = (chosen, None).
Proof.
  intros Hn Ho Hrange chosen. subst chosen.
  assert (Hchoose : forall o,
            chooseStartingOffset c topic partition o =
              (if (o =? OffsetNewest) || (newest <? o) then newest
               else if (o =? OffsetOldest) || (o <? oldest) then oldest else o, None))
    by (intros o; apply chooseStartingOffset_queried; assumption).
  assert (Hin : forall o, oldest <= o <= newest ->
            (chooseStartingOffset c topic partition o).1 = o).
  { intros o Hbetween. rewrite Hchoose. cbn [fst].
    unfold OffsetNewest, OffsetOldest.
    destruct (Z.eqb_spec o (-1)); [lia|]. destruct (Z.ltb_spec newest o); [lia|].
    destruct (Z.eqb_spec o (-2)); [lia|]. destruct (Z.ltb_spec o oldest); [lia|].
    reflexivity. }
  assert (Hbetween : oldest <= (chooseStartingOffset c topic partition offset).1
                     <= newest).
  { rewrite Hchoose. cbn [fst].
    destruct ((offset =? OffsetNewest) || (newest <? offset)) eqn:E1; [lia|].
    destruct ((offset =? OffsetOldest) || (offset <? oldest)) eqn:E2; [lia|].
    apply orb_false_iff in E1 as [_ E1]. apply orb_false_iff in E2 as [_ E2].
    apply Z.ltb_ge in E1, E2. lia. }
  split; [exact Hbetween|]. split; [exact (Hin offset)|].
  specialize (Hin _ Hbetween). rewrite Hchoose in Hin |- *. cbn [fst] in Hin.
  rewrite Hin. reflexivity.
Qed.


(** X12. The children of a consumer stay filed under their own partition:
    if they are, they still are after [ConsumePartition] and after the
    [Close] of a partition consumer.  [ConsumePartition] touches no entry but
    that of its topic and partition, where it files the worker it returns;
    [Close] touches no entry but that of the worker closed, which it
    removes. *)
Theorem children_stay_wellKeyed c :
  wellKeyed c ->
  (forall topic partition offset,
     let r := ConsumePartition c topic partition offset in
     let tp0 := mkTopicPartition topic partition in
     wellKeyed (cp_consumer r)
     /\ (forall tp1, tp1 <> tp0 ->
           children (cp_consumer r) !! tp1 = children c !! tp1)
     /\ (forall handle, cp_handle r = Some handle ->
           tp handle = tp0 /\ children (cp_consumer r) !! tp0 = Some handle))
  /\ (forall pc drained,
        let c' := (partitionConsumer_Close c pc drained).1 in
        wellKeyed c'
        /\ children c' !! tp pc = None
        /\ (forall tp1, tp1 <> tp pc -> children c' !! tp1 = children c !! tp1)).
Proof.
  intros Hwk. split.
  - intros topic partition offset r tp0.
    destruct (ConsumePartition_cases c topic partition offset)
      as [(err & Hr & _)|(co & Hc & Hfree & Hr)]; fold r in Hr; fold tp0 in Hr;
      rewrite Hr; cbn [cp_consumer cp_handle children].
    + split; [exact Hwk|]. split; [reflexivity|discriminate].
    + split; [|split].
      * intros tp1 pc Hl. cbn [children] in Hl.
        apply lookup_insert_Some in Hl as [[<- <-]|[Hne Hl]].
        -- reflexivity.
        -- apply Hwk. exact Hl.
      * intros tp1 Hne. apply lookup_insert_ne. congruence.
      * intros handle Hh. injection Hh as <-.
        split; [reflexivity|apply lookup_insert_eq].
  - intros pc drained c'. subst c'. cbn [fst partitionConsumer_Close children].
    split; [|split].
    + intros tp1 pc1 Hl. cbn [children] in Hl.
      apply lookup_delete_Some in Hl as [Hne Hl].
      apply Hwk. exact Hl.
    + apply lookup_delete_eq.
    + intros tp1 Hne. apply lookup_delete_ne. congruence.
Qed.


End Children.

(** ** Batching and executing *)

Section Batching.

Import sarama consumer.

Lemma received_app evs1 evs2 : received (evs1 ++ evs2) = received evs1 ++ received evs2.
Proof. unfold received. apply flat_map_app. Qed.

Lemma handedOver_app trace1 trace2 :
  handedOver (trace1 ++ trace2) = handedOver trace1 ++ handedOver trace2.
Proof. unfold handedOver. apply flat_map_app. Qed.

Lemma batcherStep_inv ev st st' acts :
  batcherInv st ->
  batcherStep ev st = Some (st', acts) ->
  batcherInv st'
  /\ concat (handedOver acts) ++ batchRequest st'
       = batchRequest st ++ received [ev]
  /\ Forall (fun b => b <> []) (handedOver acts)
  /\ (returned st' = true -> acts = [BCloseBatches])
  /\ (returned st' = false -> Forall (fun a => a <> BCloseBatches) acts).
Proof.
  intros Hinv Hstep. unfold batcherStep in Hstep.
  destruct (returned st) eqn:Hret; [discriminate|].
  destruct ev as [fr| |].
  - inversion Hstep; subst. cbn. unfold batcherInv. cbn.
    repeat split; auto; try discriminate.
    intros _. destruct (batchRequest st); discriminate.
  - inversion Hstep; subst. cbn. rewrite app_nil_r.
    repeat split; auto; try discriminate; apply Hinv.
  - destruct (nilOrBatchRequestCh st) eqn:Hen; [|discriminate].
    inversion Hstep; subst. cbn. unfold batcherInv. cbn. rewrite !app_nil_r.
    split; [split; [discriminate|intros H; contradiction]|].
    split; [reflexivity|].
    split; [constructor; [apply Hinv; exact Hen|constructor]|].
    split; [discriminate|].
    intros _. constructor; [discriminate|constructor].
Qed.

Lemma batcherRun_inv evs st st' trace :
  batcherInv st ->
  batcherRun evs st = Some (st', trace) ->
  batcherInv st'
  /\ concat (handedOver trace) ++ batchRequest st' = batchRequest st ++ received evs
  /\ Forall (fun b => b <> []) (handedOver trace)
  /\ (returned st' = true -> returned st = false ->
      exists trace0, trace = trace0 ++ [BCloseBatches]
                     /\ Forall (fun a => a <> BCloseBatches) trace0)
  /\ (returned st' = false -> Forall (fun a => a <> BCloseBatches) trace).
Proof.
  revert st trace. induction evs as [|ev evs IH]; intros st trace Hinv Hrun.
  - inversion Hrun; subst. cbn. rewrite app_nil_r.
    repeat split; auto; try apply Hinv. intros H1 H2. congruence.
  - cbn [batcherRun] in Hrun.
    destruct (batcherStep ev st) as [[st1 acts]|] eqn:Hstep; [|discriminate].
    destruct (batcherRun evs st1) as [[st2 trace2]|] eqn:Hrun2; [|discriminate].
    inversion Hrun; subst.
    destruct (batcherStep_inv _ _ _ _ Hinv Hstep) as (Hinv1 & Hcons1 & Hne1 & Hret1 & Hopen1).
    destruct (IH _ _ Hinv1 Hrun2) as (Hinv2 & Hcons2 & Hne2 & Hret2 & Hopen2).
    split; [exact Hinv2|]. split; [|split; [|split]].
    + rewrite handedOver_app, concat_app, <- app_assoc, Hcons2, app_assoc, Hcons1.
      change (ev :: evs) with ([ev] ++ evs). rewrite received_app, app_assoc. reflexivity.
    + rewrite handedOver_app. apply Forall_app. auto.
    + intros Hr2 Hr0. destruct (returned st1) eqn:Hr1.
      * (* the goroutine returned in the first turn: nothing follows *)
        destruct evs as [|ev' evs'].
        -- inversion Hrun2; subst. exists []. rewrite app_nil_r.
           split; [apply Hret1; reflexivity|constructor].
        -- cbn [batcherRun] in Hrun2. unfold batcherStep in Hrun2.
           rewrite Hr1 in Hrun2. discriminate.
      * destruct (Hret2 Hr2 eq_refl) as (trace0 & -> & Hnc).
        exists (acts ++ trace0). rewrite app_assoc. split; [reflexivity|].
        apply Forall_app. auto.
    + intros Hr2. apply Forall_app. split; [|auto].
      apply Hopen1. destruct (returned st1) eqn:Hr1; [|reflexivity].
      destruct evs as [|ev' evs'].
      * inversion Hrun2; subst. congruence.
      * cbn [batcherRun] in Hrun2. unfold batcherStep in Hrun2.
        rewrite Hr1 in Hrun2. discriminate.
Qed.

(** X14. [batchRequests] loses and invents nothing while it runs: the
    batches it has handed over, one after the other, followed by the batch it
    holds, are the requests it has received, in the order of their arrival.
    It never hands over an empty batch.  When it finds [requestsCh] closed it
    closes [batchRequestsCh], once and as its last act, and the batch it then
    holds is not handed over. *)
Theorem batchRequests_conserves evs st trace :
  batcherRun evs batcher_start = Some (st, trace) ->
  concat (handedOver trace) ++ batchRequest st = received evs
  /\ Forall (fun b => b <> []) (handedOver trace)
  /\ (nilOrBatchRequestCh st = true <-> batchRequest st <> [])
  /\ (returned st = false -> Forall (fun a => a <> BCloseBatches) trace)
  /\ (returned st = true ->
      (exists trace0, trace = trace0 ++ [BCloseBatches]
                      /\ Forall (fun a => a <> BCloseBatches) trace0)
      /\ forall ev, batcherStep ev st = None).
Proof.
  intros Hrun.
  assert (Hinv0 : batcherInv batcher_start).
  { unfold batcherInv. cbn. split; [discriminate|intros H; contradiction]. }
  destruct (batcherRun_inv _ _ _ _ Hinv0 Hrun) as (Hinv & Hcons & Hne & Hret & Hopen).
  split; [exact Hcons|]. split; [exact Hne|]. split; [exact Hinv|].
  split; [exact Hopen|].
  intros Hr. split; [apply Hret; [exact Hr|reflexivity]|].
  intros ev. unfold batcherStep. rewrite Hr. reflexivity.
Qed.

(** The replies of the executor go to the reply channels of the requests of
    its batches, in order. *)
Lemma executeBatch_reply_channels cfg st b :
  map fst (repliesOf (executeBatch cfg st b).2) = map ReplyToCh (fetchRequests b).
Proof.
  destruct (Z.lt_ge_cases (time.Sub (b_now b) (lastErrTime st))
              (Consumer_Retry_Backoff cfg)) as [Hshut|Hopen].
  - unfold executeBatch. apply Z.ltb_lt in Hshut. rewrite Hshut. cbn [snd].
    fold (replyAll (mkFetchResult None (lastErr st)) (fetchRequests b)).
    rewrite repliesOf_replyAll, map_map. reflexivity.
  - rewrite (executeBatch_open cfg st b Hopen). cbn [snd].
    rewrite !repliesOf_app, repliesOf_replyAll.
    destruct (snd (b_Fetch b _)); cbn; rewrite map_map; reflexivity.
Qed.

Lemma executeBatches_reply_channels cfg st batches :
  map fst (repliesOf (executeBatches cfg st batches).2)
    = flat_map (fun b => map ReplyToCh (fetchRequests b)) batches.
Proof.
  revert st. induction batches as [|b batches IH]; intros st; [reflexivity|].
  cbn [executeBatches flat_map].
  pose proof (executeBatch_reply_channels cfg st b) as Hone.
  destruct (executeBatch cfg st b) as [st1 acts1]. cbn [snd] in Hone.
  specialize (IH st1).
  destruct (executeBatches cfg st1 batches) as [st2 trace]. cbn [snd] in *.
  rewrite repliesOf_app, map_app, Hone, IH. reflexivity.
Qed.

Lemma flat_map_withReadings sent readings :
  length readings = length sent ->
  flat_map (fun b => map ReplyToCh (fetchRequests b)) (zip_with withReadings sent readings)
    = map ReplyToCh (concat sent).
Proof.
  revert readings. induction sent as [|frs sent IH]; intros [|rd readings] Hlen;
    try discriminate; [reflexivity|].
  cbn [zip_with flat_map concat]. rewrite map_app, IH by (cbn in Hlen; lia).
  reflexivity.
Qed.

(** X15. The batcher and the executor together: whatever the clock and the
    connection do, every request that the batcher has handed over is answered
    exactly once on its reply channel, in the order of arrival; the requests
    that the batcher still holds (and drops, if it has returned) are the only
    ones not answered. *)
Theorem batched_requests_are_answered cfg evs st trace readings xst :
  batcherRun evs batcher_start = Some (st, trace) ->
  length readings = length (handedOver trace) ->
  let batches := zip_with withReadings (handedOver trace) readings in
  map fst (repliesOf (executeBatches cfg xst batches).2)
    ++ map ReplyToCh (batchRequest st)
  = map ReplyToCh (received evs).
Proof.
  intros Hrun Hlen batches. subst batches.
  assert (Hinv0 : batcherInv batcher_start).
  { unfold batcherInv. cbn. split; [discriminate|intros H; contradiction]. }
  destruct (batcherRun_inv _ _ _ _ Hinv0 Hrun) as (_ & Hcons & _).
  cbn [batchRequest batcher_start app] in Hcons.
  rewrite executeBatches_reply_channels, flat_map_withReadings by exact Hlen.
  rewrite <- map_app, Hcons. reflexivity.
Qed.

End Batching.

Section ExecutorReplies.

Import sarama consumer.

Variable cfg : Config.

Local Abbreviation settled := (consumer.settled cfg).

Lemma Sub_mono t t' u : t <= t' -> time.Sub t u <= time.Sub t' u.
Proof.
  intros Hle. unfold time.Sub.
  repeat match goal with
         | |- context [?a <? ?b] => destruct (Z.ltb_spec a b)
         end; unfold Int.MinInt64, Int.MaxInt64 in *; lia.
Qed.

Lemma executeBatch_settled t st b :
  settled t st ->
  t <= b_now b -> b_now b <= b_errNow b ->
  fetchAnswers b ->
  settled (b_errNow b) (executeBatch cfg st b).1
  /\ Forall (fun r => oneOfTwo r.2) (repliesOf (executeBatch cfg st b).2).
Proof.
  intros Hset Hnow Herr Hans.
  destruct (Z.lt_ge_cases (time.Sub (b_now b) (lastErrTime st))
              (Consumer_Retry_Backoff cfg)) as [Hshut|Hopen].
  - assert (Hsome : lastErr st <> None).
    { intros Hnone. specialize (Hset Hnone).
      pose proof (Sub_mono t (b_now b) (lastErrTime st) Hnow). lia. }
    unfold executeBatch. apply Z.ltb_lt in Hshut. rewrite Hshut. cbn [fst snd].
    split; [intros Hnone; contradiction|].
    fold (replyAll (mkFetchResult None (lastErr st)) (fetchRequests b)).
    rewrite repliesOf_replyAll. apply Forall_fmap, Forall_forall. intros fr _.
    cbn. unfold oneOfTwo. cbn. destruct (lastErr st); [exact I|congruence].
  - rewrite (executeBatch_open cfg st b Hopen). cbn [fst snd].
    set (req := {| MinBytes := _ |}). specialize (Hans req).
    destruct (b_Fetch b req) as [[res|] [err|]]; try contradiction; cbn [fst snd].
    + split.
      * intros _. cbn [lastErrTime].
        pose proof (Sub_mono (b_now b) (b_errNow b) (lastErrTime st) Herr). lia.
      * rewrite !repliesOf_app, repliesOf_replyAll. cbn.
        apply Forall_fmap, Forall_forall. intros fr _. exact I.
    + split.
      * intros Hnone. discriminate.
      * rewrite !repliesOf_app, repliesOf_replyAll. cbn.
        apply Forall_fmap, Forall_forall. intros fr _. exact I.
Qed.

Lemma executeBatches_settled batches : forall t st,
  settled t st ->
  clockOrdered t batches ->
  Forall fetchAnswers batches ->
  Forall (fun r => oneOfTwo r.2) (repliesOf (executeBatches cfg st batches).2).
Proof.
  induction batches as [|b batches IH]; intros t st Hset Hclock Hans.
  - constructor.
  - cbn [executeBatches]. destruct Hclock as (Hnow & Herr & Hclock).
    apply Forall_cons in Hans as [Hb Hans].
    destruct (executeBatch_settled t st b Hset Hnow Herr Hb) as [Hset1 Hone].
    destruct (executeBatch cfg st b) as [st1 acts1]. cbn [fst snd] in *.
    specialize (IH _ _ Hset1 Hclock Hans).
    destruct (executeBatches cfg st1 batches) as [st2 trace]. cbn [snd] in *.
    rewrite repliesOf_app. apply Forall_app. auto.
Qed.

(** X16. With a clock that does not run backwards, whose first reading is
    at least the retry backoff after the zero time, and a connection whose
    [Fetch] returns a response or an error and not both, no partition
    consumer is ever answered with [{nil, nil}]: every reply of
    [executeBatches] holds either a response or an error.  In particular a
    request rejected during the backoff is always told the error that caused
    it. *)
Theorem executeBatches_never_replies_nothing t0 batches :
  Consumer_Retry_Backoff cfg <= time.Sub t0 time.zero ->
  clockOrdered t0 batches ->
  Forall fetchAnswers batches ->
  Forall (fun r => oneOfTwo r.2)
         (repliesOf (executeBatches cfg executor_start batches).2).
Proof.
  intros Hstart Hclock Hans.
  apply (executeBatches_settled batches t0 executor_start); auto.
  intros _. exact Hstart.
Qed.

End ExecutorReplies.

(** ** What a parse keeps *)

Section ParseKeeps.

Import sarama consumer.

Variable cfg : Config.

(** The inner loop leaves in [lag] the distance from the high water mark to
    the last message it kept. *)
Lemma fold_parseMessage_lag block msgs pc acc :
  lag (fold_left (parseMessage block) msgs (pc, acc)).1
    = match last (filter (fun msg => offset pc <= mb_Offset msg) msgs) with
      | Some m => Int.int64 (HighWaterMarkOffset block - mb_Offset m)
      | None => lag pc
      end.
Proof.
  revert pc acc. induction msgs as [|msg msgs IH]; intros pc acc; [reflexivity|].
  cbn [fold_left]. unfold parseMessage at 2. rewrite filter_cons.
  destruct (Z.ltb_spec (mb_Offset msg) (offset pc)) as [Hlt|Hge].
  - destruct (decide (offset pc <= mb_Offset msg)) as [Hle|_]; [lia|]. apply IH.
  - destruct (decide (offset pc <= mb_Offset msg)) as [_|Hn]; [|lia].
    rewrite IH. cbn [offset set_lag lag].
    destruct (filter (fun msg0 => offset pc <= mb_Offset msg0) msgs) as [|m ms] eqn:Hf.
    + reflexivity.
    + rewrite last_cons_cons. destruct (last (m :: ms)) eqn:Hl; [reflexivity|].
      apply last_None in Hl. discriminate.
Qed.

Lemma fold_parseMessages_lag block blocks pc acc :
  lag (fold_left (fun st msgBlock => fold_left (parseMessage block) (Messages msgBlock) st)
         blocks (pc, acc)).1
    = match last (filter (fun msg => offset pc <= mb_Offset msg)
                    (flat_map Messages blocks)) with
      | Some m => Int.int64 (HighWaterMarkOffset block - mb_Offset m)
      | None => lag pc
      end.
Proof.
  revert pc acc. induction blocks as [|b blocks IH]; intros pc acc; [reflexivity|].
  cbn [fold_left flat_map].
  pose proof (fold_parseMessage_lag block (Messages b) pc acc) as Hlag.
  destruct (fold_parseMessage block (Messages b) pc acc) as (pc1 & H1 & Ho1 & _ & _).
  rewrite H1 in Hlag |- *. cbn [fst] in Hlag.
  rewrite IH, Ho1, Hlag, filter_app.
  destruct (filter (fun msg => offset pc <= mb_Offset msg) (flat_map Messages blocks))
    as [|m ms] eqn:Hf.
  - rewrite app_nil_r. reflexivity.
  - rewrite last_app.
    destruct (last (m :: ms)) eqn:Hl; [reflexivity|].
    apply last_None in Hl. discriminate.
Qed.

(** X22. When the block of the worker's partition holds a message at or
    above the worker's offset, [parseFetchResult] fails with nothing and
    reports nothing: it returns exactly the messages of the block at or above
    the offset, in the order of the block, each under the worker's topic and
    partition and with the block's high water mark; it leaves the offset as
    it was, puts the fetch size back to [Fetch.Default], and leaves in [lag]
    the distance, as an int64, from the high water mark to the last message
    it returns. *)
Theorem parseFetchResult_keeps_survivors pc result block :
  carries pc result block ->
  survivors pc block <> [] ->
  let p := parseFetchResult cfg pc result in
  p_err p = None
  /\ p_reported p = []
  /\ p_messages p = map (toConsumerMessage (tp pc) block) (survivors pc block)
  /\ tp (p_pc p) = tp pc
  /\ offset (p_pc p) = offset pc
  /\ fetchSize (p_pc p) = Consumer_Fetch_Default cfg
  /\ forall m, last (survivors pc block) = Some m ->
               lag (p_pc p) = Int.int64 (HighWaterMarkOffset block - mb_Offset m).
Proof.
  intros Hc Hs p. subst p.
  rewrite (parseFetchResult_block cfg _ _ _ Hc).
  destruct (ms_Messages (MsgSet block)) as [|mb mbs] eqn:Hms.
  { exfalso. apply Hs. unfold survivors, blockMessages. rewrite Hms. reflexivity. }
  cbn [length Nat.eqb].
  pose proof (fold_parseMessages_lag block (ms_Messages (MsgSet block))
                (set_fetchSize (Consumer_Fetch_Default cfg) pc) []) as Hlag.
  fold (parseMessages block (set_fetchSize (Consumer_Fetch_Default cfg) pc)) in Hlag.
  destruct (parseMessages_survivors block (set_fetchSize (Consumer_Fetch_Default cfg) pc))
    as (pc' & Hp & Ho & Hf & Ht).
  rewrite Hp in Hlag |- *. cbn [fst] in Hlag.
  change (survivors (set_fetchSize (Consumer_Fetch_Default cfg) pc) block)
    with (survivors pc block) in *.
  cbn [tp offset fetchSize set_fetchSize] in Ho, Hf, Ht, Hlag |- *.
  destruct (survivors pc block) as [|s ss] eqn:Hsv; [contradiction|].
  cbn [map length Nat.eqb p_err p_reported p_messages p_pc].
  repeat (split; [first [reflexivity | assumption]|]).
  intros m Hm. rewrite Hlag.
  unfold survivors, blockMessages in Hsv. rewrite Hsv, Hm. reflexivity.
Qed.

End ParseKeeps.

(** ** The protocol of the pump *)

Section PumpProtocol.

Import sarama consumer.

Variable cfg : Config.

Ltac pump_simpl :=
  cbn [worker fetchResultCh assignedFetchRequestCh nilOrFetchRequestsCh
       nilOrFetchResultsCh nilOrMessagesCh nilOrReassignRetryTimerCh fetchedMessages
       currMessage currMessageIdx lastReassignTime exited
       with_worker with_assigned with_requests with_results with_messages with_timer
       with_fetched with_curr with_lastReassignTime with_exited negb andb fst snd] in *.

(** One turn of the pump taken apart into the paths through the [select]. *)
Ltac step_leaves Hstep :=
  let Hx := fresh "Hx" in
  pose proof (step_alive _ _ _ _ _ Hstep) as Hx;
  unfold step in Hstep; rewrite Hx in Hstep;
  lazymatch type of Hstep with
  | match ?ev with _ => _ end = _ =>
      destruct ev as [[requestsCh|] now| |result now errorsReady| | |]
  end;
  [ cbv zeta in Hstep; pump_simpl;
    destruct (nilOrFetchResultsCh _) eqn:?, (nilOrMessagesCh _) eqn:?; pump_simpl
  | unfold triggerOrScheduleReassign in Hstep;
    destruct (Consumer_Retry_Backoff cfg <? _) eqn:?
  | destruct (nilOrFetchRequestsCh _) eqn:?; [|discriminate]
  | destruct (nilOrFetchResultsCh _) eqn:?; [|discriminate];
    cbv zeta in Hstep; pump_simpl;
    destruct (p_err (parseFetchResult _ _ _)) eqn:?;
    [ destruct (decide (_ = ErrOffsetOutOfRange));
      [|unfold triggerOrScheduleReassign in Hstep;
        destruct (Consumer_Retry_Backoff cfg <? _) eqn:?]
    | destruct (length (p_messages (parseFetchResult _ _ _)) =? 0)%nat eqn:? ]
  | destruct (nilOrMessagesCh _) eqn:?; [|discriminate];
    destruct (currMessage _) eqn:?; [|discriminate];
    cbv zeta in Hstep; pump_simpl;
    destruct (S (currMessageIdx _) <? length (fetchedMessages _))%nat eqn:?
  | destruct (nilOrReassignRetryTimerCh _) eqn:?; [|discriminate]
  | idtac ];
  inversion Hstep; subst; clear Hstep; pump_simpl.

Lemma requestsSent_app acts1 acts2 :
  requestsSent (acts1 ++ acts2) = requestsSent acts1 ++ requestsSent acts2.
Proof. unfold requestsSent. apply flat_map_app. Qed.

Lemma errorsSent_app acts1 acts2 :
  errorsSent (acts1 ++ acts2) = errorsSent acts1 ++ errorsSent acts2.
Proof. unfold errorsSent. apply flat_map_app. Qed.

Lemma pushed_app acts1 acts2 : pushed (acts1 ++ acts2) = pushed acts1 ++ pushed acts2.
Proof. unfold pushed. apply flat_map_app. Qed.

Lemma resultsReceived_app evs1 evs2 :
  resultsReceived (evs1 ++ evs2) = resultsReceived evs1 ++ resultsReceived evs2.
Proof. unfold resultsReceived. apply flat_map_app. Qed.

(** [reportError] sends at most one error, under the worker's topic and
    partition, and does nothing else. *)
Lemma reportError_cases pc errorsReady err :
  (reportError cfg pc errorsReady err = []
   /\ (Consumer_Return_Errors cfg = false \/ errorsReady = false))
  \/ (reportError cfg pc errorsReady err
        = [ASendError {| ce_Topic := topic (tp pc);
                         ce_Partition := partition (tp pc);
                         ce_Err := err |}]
      /\ Consumer_Return_Errors cfg = true /\ errorsReady = true).
Proof.
  unfold reportError.
  destruct (Consumer_Return_Errors cfg), errorsReady; cbn; auto.
Qed.

Lemma requestsSent_reportError pc errorsReady err :
  requestsSent (reportError cfg pc errorsReady err) = [].
Proof.
  destruct (reportError_cases pc errorsReady err) as [[-> _]|[-> _]]; reflexivity.
Qed.

Lemma requestsSent_reported pc errorsReady errs :
  requestsSent (flat_map (reportError cfg pc errorsReady) errs) = [].
Proof.
  induction errs as [|e errs IH]; [reflexivity|].
  cbn [flat_map]. rewrite requestsSent_app, requestsSent_reportError, IH. reflexivity.
Qed.

Lemma pushed_reportError pc errorsReady err :
  pushed (reportError cfg pc errorsReady err) = [].
Proof.
  destruct (reportError_cases pc errorsReady err) as [[-> _]|[-> _]]; reflexivity.
Qed.

Lemma pushed_reported pc errorsReady errs :
  pushed (flat_map (reportError cfg pc errorsReady) errs) = [].
Proof.
  induction errs as [|e errs IH]; [reflexivity|].
  cbn [flat_map]. rewrite pushed_app, pushed_reportError, IH. reflexivity.
Qed.

Ltac flags st :=
  destruct (nilOrFetchResultsCh st) eqn:?, (nilOrMessagesCh st) eqn:?,
           (nilOrFetchRequestsCh st) eqn:?; try congruence.

Ltac no_requests :=
  rewrite ?requestsSent_app, ?requestsSent_reported, ?requestsSent_reportError;
  cbn [requestsSent resultsReceived flat_map app length Nat.add closeAll].

Lemma step_onePhase ev st st' acts :
  step cfg ev st = Some (st', acts) ->
  onePhase st ->
  onePhase st'
  /\ (length (requestsSent acts) + (if nilOrFetchResultsCh st then 1 else 0)
      = length (resultsReceived [ev]) + (if nilOrFetchResultsCh st' then 1 else 0))%nat.
Proof.
  intros Hstep Hone. unfold onePhase in *.
  step_leaves Hstep; no_requests; flags st; cbn;
    (split; [intuition congruence|first [reflexivity|exfalso; intuition congruence]]).
Qed.

Lemma run_onePhase evs : forall st st' trace,
  run cfg evs st = Some (st', trace) ->
  onePhase st ->
  onePhase st'
  /\ (length (requestsSent trace) + (if nilOrFetchResultsCh st then 1 else 0)
      = length (resultsReceived evs) + (if nilOrFetchResultsCh st' then 1 else 0))%nat.
Proof.
  induction evs as [|ev evs IH]; intros st st' trace Hrun Hone.
  - inversion Hrun; subst. split; [exact Hone|reflexivity].
  - cbn [run] in Hrun.
    destruct (step cfg ev st) as [[st1 acts]|] eqn:Hstep; [|discriminate].
    destruct (run cfg evs st1) as [[st2 trace2]|] eqn:Hrun2; [|discriminate].
    inversion Hrun; subst.
    destruct (step_onePhase _ _ _ _ Hstep Hone) as [Hone1 Hcount1].
    destruct (IH _ _ _ Hrun2 Hone1) as [Hone2 Hcount2].
    split; [exact Hone2|].
    change (ev :: evs) with ([ev] ++ evs).
    rewrite requestsSent_app, resultsReceived_app, !length_app. lia.
Qed.

(** X17. The pump has at most one fetch request under way.  Of its three
    steps (send the request, wait for the result, push the messages) never
    two are switched on together; in particular it asks for no further
    messages while it waits for a result or still has messages to push.  The
    requests it has sent are as many as the results it has received, plus the
    one it is waiting for. *)
Theorem pullMessages_one_request_in_flight pc ch evs st trace :
  run cfg evs (pullMessages_start pc ch) = Some (st, trace) ->
  onePhase st
  /\ length (requestsSent trace)
     = (length (resultsReceived evs) + (if nilOrFetchResultsCh st then 1 else 0))%nat.
Proof.
  intros Hrun.
  assert (Hone0 : onePhase (pullMessages_start pc ch)).
  { unfold onePhase. cbn. split; [intros H; contradiction|discriminate]. }
  destruct (run_onePhase _ _ _ _ Hrun Hone0) as [Hone Hcount].
  split; [exact Hone|]. cbn in Hcount. lia.
Qed.

Lemma step_served ev st st' acts :
  step cfg ev st = Some (st', acts) -> served st -> served st'.
Proof.
  intros Hstep Hserved. unfold served in *.
  step_leaves Hstep; try exact Hserved;
    try (split; [reflexivity|intros _; apply Hserved; reflexivity]);
    try (split; congruence); intuition congruence.
Qed.

Lemma run_served evs : forall st st' trace,
  run cfg evs st = Some (st', trace) -> served st -> served st'.
Proof.
  induction evs as [|ev evs IH]; intros st st' trace Hrun Hserved.
  - inversion Hrun; subst. exact Hserved.
  - cbn [run] in Hrun.
    destruct (step cfg ev st) as [[st1 acts]|] eqn:Hstep; [|discriminate].
    destruct (run cfg evs st1) as [[st2 trace2]|] eqn:Hrun2; [|discriminate].
    inversion Hrun; subst.
    eapply IH; [exact Hrun2|]. eapply step_served; eauto.
Qed.

(** X21. From its first assignment on, a running pump has either the
    requests channel of a broker consumer or a live reassign retry timer,
    and never both: whenever it is left without a broker (a nil assignment
    or a failed fetch) the timer is armed, so that it asks for a new
    assignment again, and an assignment cancels the timer.  Before the first
    assignment the pump can do nothing but close. *)
Theorem pullMessages_broker_or_timer pc ch ev evs st trace :
  run cfg (ev :: evs) (pullMessages_start pc ch) = Some (st, trace) ->
  ((exists bw now, ev = EvAssignment bw now)
   /\ (nilOrReassignRetryTimerCh st = true <-> assignedFetchRequestCh st = None))
  \/ (ev = EvClosing /\ evs = [] /\ exited st = true).
Proof.
  intros Hrun. cbn [run] in Hrun.
  destruct (step cfg ev (pullMessages_start pc ch)) as [[st1 acts]|] eqn:Hstep;
    [|discriminate].
  destruct (run cfg evs st1) as [[st2 trace2]|] eqn:Hrun2; [|discriminate].
  inversion Hrun; subst.
  assert (Hfirst : (exists bw now, ev = EvAssignment bw now /\ served st1)
                   \/ (ev = EvClosing /\ exited st1 = true)).
  { unfold step in Hstep. cbn [exited pullMessages_start] in Hstep.
    destruct ev as [[requestsCh|] now| |result now errorsReady| | |];
      try discriminate.
    - left. exists (Some requestsCh), now. split; [reflexivity|].
      cbn in Hstep. inversion Hstep; subst. unfold served. cbn.
      split; discriminate.
    - left. exists None, now. split; [reflexivity|].
      unfold triggerOrScheduleReassign in Hstep.
      destruct (Consumer_Retry_Backoff cfg <? _); inversion Hstep; subst;
        unfold served; cbn; split; reflexivity.
    - right. inversion Hstep; subst. split; reflexivity. }
  destruct Hfirst as [(bw & now & -> & Hserved)|[-> Hx]].
  - left. split; [eauto|]. exact (run_served _ _ _ _ Hrun2 Hserved).
  - right. destruct evs as [|ev' evs'].
    + inversion Hrun2; subst. auto.
    + cbn [run] in Hrun2. rewrite (step_exited cfg ev' st1 Hx) in Hrun2. discriminate.
Qed.

(** A parse reports at most the one oversized message that it skips, and
    leaves the worker on its partition. *)
Lemma parseFetchResult_reports pc result :
  tp (p_pc (parseFetchResult cfg pc result)) = tp pc
  /\ (p_reported (parseFetchResult cfg pc result) = []
      \/ (p_reported (parseFetchResult cfg pc result) = [ErrMessageTooLarge]
          /\ p_err (parseFetchResult cfg pc result) = None)).
Proof.
  destruct (parseFetchResult_shape cfg pc result)
    as [(Hpc & Hrep & _)
       |[(block & _ & _ & _ & _ & Hp)
        |[(block & _ & _ & _ & Hp)
         |(block & _ & _ & _ & _ & Ht & Hrep & _)]]].
  - rewrite Hpc. auto.
  - rewrite Hp. cbn. auto.
  - rewrite Hp. cbn. auto.
  - auto.
Qed.

Lemma errorsSent_reportError pc errorsReady err :
  (errorsSent (reportError cfg pc errorsReady err) = []
   /\ (Consumer_Return_Errors cfg = false \/ errorsReady = false))
  \/ (errorsSent (reportError cfg pc errorsReady err)
        = [{| ce_Topic := topic (tp pc); ce_Partition := partition (tp pc);
              ce_Err := err |}]
      /\ Consumer_Return_Errors cfg = true /\ errorsReady = true).
Proof.
  destruct (reportError_cases pc errorsReady err) as [[-> H]|[-> H]]; cbn; auto.
Qed.

Ltac result_reports :=
  try match goal with
      | H : p_err (parseFetchResult _ ?w ?r) = Some _ |- _ =>
          let Hrep := fresh "Hrep" in
          destruct (parseFetchResult_failed cfg _ _ _ H) as (Hrep & _ & _);
          rewrite Hrep
      | H : p_err (parseFetchResult _ ?w ?r) = None |- _ =>
          let Hrep := fresh "Hrep" in
          destruct (parseFetchResult_reports w r) as [_ [Hrep|[Hrep _]]];
          rewrite Hrep
      end;
  cbn [flat_map app].

Lemma step_errors ev st st' acts :
  step cfg ev st = Some (st', acts) ->
  (length (errorsSent acts) <= length (resultsReceived [ev]))%nat
  /\ (Consumer_Return_Errors cfg = false -> errorsSent acts = []).
Proof.
  intros Hstep.
  step_leaves Hstep; result_reports; rewrite ?errorsSent_app, ?app_nil_r;
    try match goal with
        | |- context [errorsSent (reportError cfg ?pc ?er ?e)] =>
            destruct (errorsSent_reportError pc er e) as [[-> _]|(-> & Hret & _)]
        end;
    cbn; (split; [lia|congruence]).
Qed.

(** X18. However the pump is started, it sends an error to the user only
    if the user asked for errors ([Consumer.Return.Errors]), and at most one
    for each fetch result it receives; no other turn of the pump sends an
    error. *)
Theorem pullMessages_errors_only_when_asked evs : forall st st' trace,
  run cfg evs st = Some (st', trace) ->
  (length (errorsSent trace) <= length (resultsReceived evs))%nat
  /\ (Consumer_Return_Errors cfg = false -> errorsSent trace = []).
Proof.
  induction evs as [|ev evs IH]; intros st st' trace Hrun.
  - inversion Hrun; subst. cbn. split; [lia|reflexivity].
  - cbn [run] in Hrun.
    destruct (step cfg ev st) as [[st1 acts]|] eqn:Hstep; [|discriminate].
    destruct (run cfg evs st1) as [[st2 trace2]|] eqn:Hrun2; [|discriminate].
    inversion Hrun; subst.
    destruct (step_errors _ _ _ _ Hstep) as [Hlen1 Hnone1].
    destruct (IH _ _ _ Hrun2) as [Hlen2 Hnone2].
    change (ev :: evs) with ([ev] ++ evs).
    rewrite errorsSent_app, resultsReceived_app, !length_app.
    split; [lia|]. intros Hret. rewrite Hnone1, Hnone2 by exact Hret. reflexivity.
Qed.

Lemma parseFetchResult_labelled pc result :
  Forall (fun m => labelled (tp pc) (cm_Topic m) (cm_Partition m))
    (p_messages (parseFetchResult cfg pc result)).
Proof.
  destruct (p_messages (parseFetchResult cfg pc result)) as [|m ms] eqn:Hm;
    [constructor|].
  destruct (parseFetchResult_messages cfg pc result) as (block & _ & Hmsgs & _).
  { rewrite Hm. discriminate. }
  rewrite <- Hm, Hmsgs. apply Forall_fmap, Forall_forall. intros mb _.
  split; reflexivity.
Qed.

Lemma errorsSent_labelled pc errorsReady errs :
  Forall (fun ce => labelled (tp pc) (ce_Topic ce) (ce_Partition ce))
    (errorsSent (flat_map (reportError cfg pc errorsReady) errs)).
Proof.
  induction errs as [|e errs IH]; [constructor|].
  cbn [flat_map]. rewrite errorsSent_app. apply Forall_app. split; [|exact IH].
  destruct (errorsSent_reportError pc errorsReady e) as [[-> _]|(-> & _)];
    repeat constructor.
Qed.

Lemma labels_app tp0 ch acts1 acts2 :
  labels tp0 ch acts1 -> labels tp0 ch acts2 -> labels tp0 ch (acts1 ++ acts2).
Proof.
  intros (H1 & H2 & H3) (H1' & H2' & H3'). unfold labels.
  rewrite requestsSent_app, pushed_app, errorsSent_app.
  repeat split; apply Forall_app; auto.
Qed.

Lemma labels_reported tp0 ch pc errorsReady errs :
  tp pc = tp0 -> labels tp0 ch (flat_map (reportError cfg pc errorsReady) errs).
Proof.
  intros <-. unfold labels.
  rewrite requestsSent_reported, pushed_reported.
  repeat split; try constructor. apply errorsSent_labelled.
Qed.

Lemma labels_reportError tp0 ch pc errorsReady err :
  tp pc = tp0 -> labels tp0 ch (reportError cfg pc errorsReady err).
Proof.
  intros Ht. pose proof (labels_reported tp0 ch pc errorsReady [err] Ht) as H.
  cbn [flat_map] in H. rewrite app_nil_r in H. exact H.
Qed.

Lemma labels_quiet tp0 ch acts :
  requestsSent acts = [] -> pushed acts = [] -> errorsSent acts = [] ->
  labels tp0 ch acts.
Proof. intros H1 H2 H3. unfold labels. rewrite H1, H2, H3. repeat constructor. Qed.

Lemma step_labels tp0 ch ev st st' acts :
  step cfg ev st = Some (st', acts) ->
  ownLabels tp0 ch st ->
  ownLabels tp0 ch st' /\ labels tp0 ch acts.
Proof.
  intros Hstep Hown.
  assert (Hat : forall i m, fetchedMessages st !! i = Some m ->
                            labelled tp0 (cm_Topic m) (cm_Partition m)).
  { intros i m Hl. destruct Hown as (_ & _ & Hfm & _).
    exact (proj1 (Forall_lookup _ _) Hfm i m Hl). }
  step_leaves Hstep; destruct Hown as (Htp & Hch & Hfm & Hcur);
    unfold ownLabels; pump_simpl;
    try (split; [auto|apply labels_quiet; reflexivity]).
  - (* a request is sent *)
    split; [auto|]. unfold labels. cbn.
    repeat split; repeat constructor; auto; rewrite Htp; reflexivity.
  - (* the offset is out of range *)
    destruct (parseFetchResult_reports (worker st) result) as [Htp' _].
    pose proof (parseFetchResult_labelled (worker st) result) as Hlab.
    rewrite Htp in Hlab.
    split; [split; [congruence|auto]|].
    repeat apply labels_app; try apply labels_reported; try apply labels_reportError;
      try congruence.
    apply labels_quiet; reflexivity.
  - (* another error, a reassignment is asked for *)
    destruct (parseFetchResult_reports (worker st) result) as [Htp' _].
    pose proof (parseFetchResult_labelled (worker st) result) as Hlab.
    rewrite Htp in Hlab.
    split; [split; [congruence|auto]|].
    repeat apply labels_app; try apply labels_reported; try apply labels_reportError;
      try congruence.
    apply labels_quiet; reflexivity.
  - (* another error, the reassignment is left to the timer *)
    destruct (parseFetchResult_reports (worker st) result) as [Htp' _].
    pose proof (parseFetchResult_labelled (worker st) result) as Hlab.
    rewrite Htp in Hlab.
    split; [split; [congruence|auto]|].
    repeat apply labels_app; try apply labels_reported; try apply labels_reportError;
      try congruence.
    apply labels_quiet; reflexivity.
  - (* no message *)
    destruct (parseFetchResult_reports (worker st) result) as [Htp' _].
    pose proof (parseFetchResult_labelled (worker st) result) as Hlab.
    rewrite Htp in Hlab.
    split; [split; [congruence|auto]|].
    apply labels_reported. exact Htp.
  - (* messages *)
    destruct (parseFetchResult_reports (worker st) result) as [Htp' _].
    pose proof (parseFetchResult_labelled (worker st) result) as Hlab.
    rewrite Htp in Hlab.
    split; [|apply labels_reported; exact Htp].
    split; [congruence|]. split; [exact Hch|]. split; [exact Hlab|].
    intros m Hl. exact (proj1 (Forall_lookup _ _) Hlab 0%nat m Hl).
  - (* a push, more to come *)
    split; [split; [exact Htp|]; split; [exact Hch|]; split; [exact Hfm|]; eauto|].
    unfold labels. cbn. split; [constructor|]. split; [|constructor].
    constructor; [|constructor]. apply Hcur. assumption.
  - (* the last push *)
    split; [split; [exact Htp|]; split; [exact Hch|]; split; [exact Hfm|]; eauto|].
    unfold labels. cbn. split; [constructor|]. split; [|constructor].
    constructor; [|constructor]. apply Hcur. assumption.
Qed.

(** X20. Everything that the pump of a worker lets out bears the worker's
    topic and partition: the fetch requests it sends, the messages it
    pushes and the errors it reports.  Every request names as its reply
    channel the one result channel that the pump made for itself. *)
Theorem pullMessages_keeps_its_labels pc ch evs st trace :
  run cfg evs (pullMessages_start pc ch) = Some (st, trace) ->
  Forall (fun rq => rq_Topic rq = topic (tp pc) /\ rq_Partition rq = partition (tp pc)
                    /\ ReplyToCh rq = ch) (requestsSent trace)
  /\ Forall (fun m => cm_Topic m = topic (tp pc) /\ cm_Partition m = partition (tp pc))
       (pushed trace)
  /\ Forall (fun ce => ce_Topic ce = topic (tp pc) /\ ce_Partition ce = partition (tp pc))
       (errorsSent trace).
Proof.
  intros Hrun.
  assert (Hown : ownLabels (tp pc) ch (pullMessages_start pc ch)).
  { unfold ownLabels. cbn. split; [reflexivity|]. split; [reflexivity|].
    split; [constructor|]. intros m H. discriminate. }
  assert (Hgen : forall evs st0 st1 trace0,
             run cfg evs st0 = Some (st1, trace0) ->
             ownLabels (tp pc) ch st0 -> labels (tp pc) ch trace0).
  { clear. induction evs as [|ev evs IH]; intros st0 st1 trace0 Hrun Hown.
    - inversion Hrun; subst. apply labels_quiet; reflexivity.
    - cbn [run] in Hrun.
      destruct (step cfg ev st0) as [[st2 acts]|] eqn:Hstep; [|discriminate].
      destruct (run cfg evs st2) as [[st3 trace2]|] eqn:Hrun2; [|discriminate].
      inversion Hrun; subst.
      destruct (step_labels _ _ _ _ _ _ Hstep Hown) as [Hown2 Hlab].
      apply labels_app; [exact Hlab|]. eapply IH; eauto. }
  destruct (Hgen _ _ _ _ Hrun Hown) as (H1 & H2 & H3).
  split; [|split; [exact H2|exact H3]].
  eapply Forall_impl; [exact H1|]. intros rq [[? ?] ?]. auto.
Qed.

(** Once the pump is pushing, one push after the other goes through until
    the messages in hand are used up. *)
Lemma push_rest n : forall st idx,
  exited st = false -> nilOrMessagesCh st = true ->
  currMessageIdx st = idx -> currMessage st = fetchedMessages st !! idx ->
  (idx + S n = length (fetchedMessages st))%nat ->
  exists st2,
    run cfg (replicate (S n) EvPushMessage) st
      = Some (st2, map APush (drop idx (fetchedMessages st)))
    /\ exited st2 = false
    /\ nilOrMessagesCh st2 = false
    /\ nilOrFetchResultsCh st2 = nilOrFetchResultsCh st
    /\ assignedFetchRequestCh st2 = assignedFetchRequestCh st
    /\ nilOrFetchRequestsCh st2 = assignedFetchRequestCh st
    /\ (forall m, last (fetchedMessages st) = Some m ->
                  offset (worker st2) = Int.int64 (cm_Offset m + 1)).
Proof.
  induction n as [|n IH]; intros st idx Hx HM Hidx Hcur Hlen.
  - destruct (lookup_lt_is_Some_2 (fetchedMessages st) idx) as [msg Hmsg]; [lia|].
    rewrite Hmsg in Hcur.
    cbn [replicate run]. unfold step. rewrite Hx, HM, Hcur. cbn [negb]. cbv zeta.
    pump_simpl. rewrite Hidx.
    destruct (Nat.ltb_spec (S idx) (length (fetchedMessages st))) as [Hlt|_]; [lia|].
    eexists. split.
    { rewrite (drop_S _ _ _ Hmsg), drop_ge by lia. reflexivity. }
    pump_simpl. split; [exact Hx|]. repeat (split; [reflexivity|]).
    intros m Hlast. rewrite last_lookup in Hlast.
    replace (pred (length (fetchedMessages st))) with idx in Hlast by lia.
    rewrite Hmsg in Hlast. inversion Hlast; subst. reflexivity.
  - destruct (lookup_lt_is_Some_2 (fetchedMessages st) idx) as [msg Hmsg]; [lia|].
    rewrite Hmsg in Hcur.
    change (replicate (S (S n)) EvPushMessage)
      with (EvPushMessage :: replicate (S n) EvPushMessage).
    cbn [run]. unfold step at 1. rewrite Hx, HM, Hcur. cbn [negb]. cbv zeta.
    pump_simpl. rewrite Hidx.
    destruct (Nat.ltb_spec (S idx) (length (fetchedMessages st))) as [_|Hge]; [|lia].
    match goal with
    | |- context [run cfg _ ?st1] =>
        destruct (IH st1 (S idx)) as (st2 & Hrun & Hx2 & HM2 & HF2 & Ha2 & HR2 & Hoff);
          [exact Hx|exact HM|reflexivity|reflexivity|pump_simpl; lia|]
    end.
    pump_simpl. rewrite Hrun. exists st2.
    split; [rewrite (drop_S _ _ _ Hmsg); reflexivity|]. auto 10.
Qed.

(** X19. A fetch result that brings messages is followed by as many pushes
    as it brought messages: each push is enabled in its turn, the messages go
    to the user in the order in which the parse returned them, and no push
    is possible after the last.  The pump then waits for no result, has the
    worker's offset one past the last message, and has the next request armed
    for the broker consumer it is assigned to (none, if it has none). *)
Theorem fetched_messages_are_all_pushed st result now errorsReady st1 acts :
  step cfg (EvFetchResult result now errorsReady) st = Some (st1, acts) ->
  let ms := p_messages (parseFetchResult cfg (worker st) result) in
  ms <> [] ->
  exists st2,
    run cfg (replicate (length ms) EvPushMessage) st1 = Some (st2, map APush ms)
    /\ exited st2 = false
    /\ nilOrMessagesCh st2 = false
    /\ nilOrFetchResultsCh st2 = false
    /\ nilOrFetchRequestsCh st2 = assignedFetchRequestCh st2
    /\ (forall m, last ms = Some m -> offset (worker st2) = Int.int64 (cm_Offset m + 1))
    /\ step cfg EvPushMessage st2 = None.
Proof.
  intros Hstep ms Hne.
  destruct (step_result cfg _ _ _ _ _ _ Hstep) as (_ & _ & HF1 & Hfm & Hcases).
  fold ms in Hfm, Hcases.
  assert (Hpush : exited st1 = false /\ nilOrMessagesCh st1 = true
                  /\ currMessageIdx st1 = 0%nat /\ currMessage st1 = ms !! 0%nat).
  { destruct Hcases as [(He & _)|[(err & reassign & He & _)|[(_ & Hm & _)|H]]].
    - destruct (parseFetchResult_failed cfg _ _ _ He) as (_ & _ & Hm).
      unfold ms in Hne. contradiction.
    - destruct (parseFetchResult_failed cfg _ _ _ He) as (_ & _ & Hm).
      unfold ms in Hne. contradiction.
    - contradiction.
    - destruct H as (_ & _ & Hx & _ & HM & Hidx & Hcur & _). auto. }
  destruct Hpush as (Hx1 & HM1 & Hidx1 & Hcur1).
  destruct ms as [|m0 ms0] eqn:Hms; [contradiction|].
  destruct (push_rest (length ms0) st1 0%nat) as (st2 & Hrun & Hx2 & HM2 & HF2 & Ha2 & HR2 & Hoff);
    [exact Hx1|exact HM1|exact Hidx1|rewrite Hfm; exact Hcur1|rewrite Hfm; reflexivity|].
  exists st2. rewrite Hfm, drop_0 in Hrun. rewrite Hfm in Hoff.
  split; [exact Hrun|]. split; [exact Hx2|]. split; [exact HM2|].
  split; [congruence|]. split; [congruence|]. split; [exact Hoff|].
  unfold step. rewrite Hx2, HM2. reflexivity.
Qed.

End PumpProtocol.

(** ** The further properties on sample inputs *)

Section FurtherSamples.

Import sarama consumer httpsrv.

Lemma handleProduce_outcome_witness :
  handleProduce samples.sampleProxies samples.produceRequest
    = (mkAnswer StatusOK (produceHTTPResponse 0 42),
       [CallProduce "t" (StringEncoder (String.list_byte_of_string "k"))
          (StringEncoder (String.list_byte_of_string "hello"))]).
Proof.
  assert (Hlen : is_Some (Header samples.produceRequest !! hdrContentLength))
    by (eexists; reflexivity).
  pose proof (handleProduce_outcome samples.sampleProxies samples.produceRequest
                samples.sampleOps (String.list_byte_of_string "hello")
                eq_refl Hlen eq_refl eq_refl) as H.
  cbv zeta in H. destruct H as [_ Hsync].
  destruct Hsync as (Hcalls & _ & _ & Hok); [eexists; reflexivity|].
  specialize (Hok (mkProduced 0 42) eq_refl).
  destruct (handleProduce samples.sampleProxies samples.produceRequest) as [ans calls].
  cbn [fst snd] in Hcalls, Hok. rewrite Hcalls, Hok. reflexivity.
Defined.

Lemma offsetView_lag_within_count_witness :
  pov_Count (offsetView samples.sampleEnvironment (mkPartitionOffset 0 10 20 15 "m0")) = 10
  /\ pov_Lag (offsetView samples.sampleEnvironment (mkPartitionOffset 0 10 20 15 "m0")) = 5.
Proof.
  assert (H1 : Int.is_int64 (20 - 10))
    by (unfold Int.is_int64, Int.MinInt64, Int.MaxInt64; cbn; lia).
  assert (H2 : Int.is_int64 (20 - 15))
    by (unfold Int.is_int64, Int.MinInt64, Int.MaxInt64; cbn; lia).
  pose proof (offsetView_lag_within_count samples.sampleEnvironment
                (mkPartitionOffset 0 10 20 15 "m0") H1 H2) as H.
  cbv zeta in H. destruct H as (Hcount & _ & _ & Hlag).
  split; [exact Hcount|].
  destruct Hlag as [Hlag _]; [cbn; lia|cbn; lia|exact Hlag].
Defined.

Lemma setOffsets_submits_views_witness :
  exists submitted,
    (handleSetOffsets samples.sampleEnvironment samples.sampleProxies
       samples.groupRequest).2 = [CallSetGroupOffsets "g" "t" submitted]
    /\ map po_Partition submitted = [0; 1]
    /\ map po_Offset submitted = [15; OffsetNewest].
Proof.
  destruct (setOffsets_submits_views samples.sampleEnvironment samples.sampleProxies
              samples.groupRequest samples.sampleOps "g" [] samples.sampleOffsets
              eq_refl eq_refl eq_refl eq_refl)
    as (submitted & Hcall & Hp & Ho & _).
  exists submitted. split; [exact Hcall|]. split; [exact Hp|exact Ho].
Defined.

Lemma handleGetTopicConsumers_of_group_witness :
  exists consumers,
    handleGetTopicConsumers samples.sampleEnvironment samples.sampleProxies
      samples.groupRequest = mkAnswer StatusOK (consumersJSON consumers)
    /\ consumers !! "g" = Some {[ "member" := [0; 1] ]}.
Proof.
  pose proof (handleGetTopicConsumers_of_group samples.sampleEnvironment
                samples.sampleProxies samples.groupRequest samples.sampleOps "g"
                eq_refl eq_refl) as H.
  cbv zeta in H. destruct H as [_ Hgroup].
  destruct Hgroup as [Hok _]; [discriminate|].
  destruct (Hok {[ "member" := [0; 1] ]} eq_refl) as (consumers & Hans & _ & Hin).
  exists consumers. split; [exact Hans|].
  apply Hin. apply insert_non_empty.
Defined.

Lemma chooseStartingOffset_in_range_witness :
  10 <= (chooseStartingOffset samples.freshConsumer "t" 0 15).1 <= 20
  /\ (chooseStartingOffset samples.freshConsumer "t" 0 15).1 = 15.
Proof.
  assert (Hord : 0 <= 10 <= 20) by lia.
  pose proof (chooseStartingOffset_in_range samples.freshConsumer "t" 0 15 20 10
                eq_refl eq_refl Hord) as H.
  cbv zeta in H. destruct H as (Hin & Hsame & _).
  split; [exact Hin|]. apply Hsame. lia.
Defined.

Lemma children_stay_wellKeyed_witness :
  wellKeyed (cp_consumer (ConsumePartition samples.freshConsumer "t" 0 15))
  /\ wellKeyed (partitionConsumer_Close samples.freshConsumer
                  (samples.workerAt 10 1024) []).1.
Proof.
  assert (Hwk : wellKeyed samples.freshConsumer).
  { intros tp0 pc Hl. cbn in Hl. rewrite lookup_empty in Hl. discriminate. }
  destruct (children_stay_wellKeyed samples.freshConsumer Hwk) as [Hconsume Hclose].
  split.
  - exact (proj1 (Hconsume "t" 0 15)).
  - exact (proj1 (Hclose (samples.workerAt 10 1024) [])).
Defined.


Lemma batchRequests_conserves_witness :
  exists st trace,
    batcherRun samples.sampleArrivals batcher_start = Some (st, trace)
    /\ handedOver trace = [[samples.requestFrom 1%nat; samples.requestFrom 2%nat]]
    /\ batchRequest st = [samples.requestFrom 3%nat]
    /\ concat (handedOver trace) ++ batchRequest st = received samples.sampleArrivals
    /\ forall ev, batcherStep ev st = None.
Proof.
  assert (Hrun : exists st trace,
             batcherRun samples.sampleArrivals batcher_start = Some (st, trace)
             /\ handedOver trace
                  = [[samples.requestFrom 1%nat; samples.requestFrom 2%nat]]
             /\ batchRequest st = [samples.requestFrom 3%nat]
             /\ returned st = true).
  { eexists _, _. vm_compute. repeat split; reflexivity. }
  destruct Hrun as (st & trace & Hrun & Hsent & Hheld & Hret).
  exists st, trace. split; [exact Hrun|]. split; [exact Hsent|]. split; [exact Hheld|].
  destruct (batchRequests_conserves _ _ _ Hrun) as (Hcons & _ & _ & _ & Hlast).
  split; [exact Hcons|]. exact (proj2 (Hlast Hret)).
Defined.

Lemma batched_requests_are_answered_witness :
  exists st trace,
    batcherRun samples.sampleArrivals batcher_start = Some (st, trace)
    /\ map fst (repliesOf
                  (executeBatches samples.sampleConfig executor_start
                     (zip_with withReadings (handedOver trace)
                        [(samples.sampleNow,
                          fun _ => (None, Some (OtherError "broken pipe")),
                          samples.sampleNow)])).2)
         ++ map ReplyToCh (batchRequest st)
       = [1%nat; 2%nat; 3%nat].
Proof.
  assert (Hrun : exists st trace,
             batcherRun samples.sampleArrivals batcher_start = Some (st, trace)
             /\ length (handedOver trace) = 1%nat).
  { eexists _, _. vm_compute. repeat split; reflexivity. }
  destruct Hrun as (st & trace & Hrun & Hlen).
  exists st, trace. split; [exact Hrun|].
  assert (Hreadings :
            length [(samples.sampleNow,
                     fun _ : FetchRequest =>
                       (@None FetchResponse, Some (OtherError "broken pipe")),
                     samples.sampleNow)] = length (handedOver trace))
    by (rewrite Hlen; reflexivity).
  pose proof (batched_requests_are_answered samples.sampleConfig _ _ _ _ executor_start
                Hrun Hreadings) as H.
  cbv zeta in H. rewrite H. reflexivity.
Defined.

Lemma executeBatches_never_replies_nothing_witness :
  Forall (fun r => oneOfTwo r.2)
    (repliesOf (executeBatches samples.sampleConfig executor_start
                  samples.sampleBatches).2)
  /\ map (fun r => (r.1, fr_Err r.2))
       (repliesOf (executeBatches samples.sampleConfig executor_start
                     samples.sampleBatches).2)
     = [(1%nat, Some (OtherError "broken pipe"));
        (2%nat, Some (OtherError "broken pipe"));
        (3%nat, Some (OtherError "broken pipe"));
        (1%nat, None)].
Proof.
  split; [|vm_compute; reflexivity].
  apply (executeBatches_never_replies_nothing samples.sampleConfig samples.sampleNow).
  - vm_compute. discriminate.
  - unfold samples.sampleBatches, samples.sampleNow. cbn. lia.
  - repeat constructor; intros req; exact I.
Defined.

Lemma parseFetchResult_keeps_survivors_witness :
  let p := parseFetchResult samples.sampleConfig (samples.workerAt 11 2048)
             (samples.resultOf (samples.blockOf 20 [10; 11; 12])) in
  p_err p = None
  /\ map cm_Offset (p_messages p) = [11; 12]
  /\ fetchSize (p_pc p) = 1024
  /\ lag (p_pc p) = 8.
Proof.
  intros p.
  assert (Hc : carries (samples.workerAt 11 2048)
                 (samples.resultOf (samples.blockOf 20 [10; 11; 12]))
                 (samples.blockOf 20 [10; 11; 12])).
  { split; [reflexivity|]. eexists. repeat split; reflexivity. }
  assert (Hs : survivors (samples.workerAt 11 2048) (samples.blockOf 20 [10; 11; 12])
               <> []) by (vm_compute; discriminate).
  pose proof (parseFetchResult_keeps_survivors samples.sampleConfig _ _ _ Hc Hs) as H.
  cbv zeta in H. fold p in H. destruct H as (He & _ & Hm & _ & _ & Hf & Hlag).
  split; [exact He|]. split; [rewrite Hm; reflexivity|]. split; [exact Hf|].
  apply (Hlag (samples.plainMessage 12)). reflexivity.
Defined.

Lemma pullMessages_one_request_in_flight_witness :
  exists st trace,
    run samples.sampleConfig samples.deliveryRun (samples.sampleStart samples.sampleConfig)
      = Some (st, trace)
    /\ length (requestsSent trace) = 1%nat
    /\ onePhase st.
Proof.
  assert (Hrun : exists st trace,
             run samples.sampleConfig samples.deliveryRun
               (samples.sampleStart samples.sampleConfig) = Some (st, trace)
             /\ nilOrFetchResultsCh st = false).
  { eexists _, _. vm_compute. repeat split; reflexivity. }
  destruct Hrun as (st & trace & Hrun & HF).
  exists st, trace. split; [exact Hrun|].
  destruct (pullMessages_one_request_in_flight samples.sampleConfig _ _ _ _ _ Hrun)
    as [Hone Hcount].
  split; [|exact Hone]. rewrite Hcount, HF. reflexivity.
Defined.

Lemma pullMessages_broker_or_timer_witness :
  exists st trace,
    run samples.sampleConfig
      [EvAssignment None 5000000000; EvRetryTimer; EvAssignment (Some 7%nat) 0;
       EvSendRequest;
       EvFetchResult {| Response := None; fr_Err := Some (OtherError "broken pipe") |}
         9000000000 true]
      (samples.sampleStart samples.sampleConfig) = Some (st, trace)
    /\ assignedFetchRequestCh st = None
    /\ nilOrReassignRetryTimerCh st = true.
Proof.
  assert (Hrun : exists st trace,
             run samples.sampleConfig
               [EvAssignment None 5000000000; EvRetryTimer; EvAssignment (Some 7%nat) 0;
                EvSendRequest;
                EvFetchResult
                  {| Response := None; fr_Err := Some (OtherError "broken pipe") |}
                  9000000000 true]
               (samples.sampleStart samples.sampleConfig) = Some (st, trace)
             /\ assignedFetchRequestCh st = None).
  { eexists _, _. vm_compute. repeat split; reflexivity. }
  destruct Hrun as (st & trace & Hrun & Hnone).
  exists st, trace. split; [exact Hrun|]. split; [exact Hnone|].
  destruct (pullMessages_broker_or_timer samples.sampleConfig _ _ _ _ _ _ Hrun)
    as [[_ Hserved]|[Hclosing _]].
  - apply Hserved. exact Hnone.
  - discriminate.
Defined.

Lemma pullMessages_errors_only_when_asked_witness :
  exists st trace,
    run samples.quietConfig samples.outOfRangeRun (samples.sampleStart samples.quietConfig)
      = Some (st, trace)
    /\ exited st = true
    /\ errorsSent trace = [].
Proof.
  assert (Hrun : exists st trace,
             run samples.quietConfig samples.outOfRangeRun
               (samples.sampleStart samples.quietConfig) = Some (st, trace)
             /\ exited st = true).
  { eexists _, _. vm_compute. repeat split; reflexivity. }
  destruct Hrun as (st & trace & Hrun & Hx).
  exists st, trace. split; [exact Hrun|]. split; [exact Hx|].
  destruct (pullMessages_errors_only_when_asked samples.quietConfig _ _ _ _ Hrun)
    as [_ Hquiet].
  apply Hquiet. reflexivity.
Defined.

Lemma pullMessages_keeps_its_labels_witness :
  exists st trace,
    run samples.sampleConfig samples.deliveryRun (samples.sampleStart samples.sampleConfig)
      = Some (st, trace)
    /\ length (pushed trace) = 3%nat
    /\ Forall (fun m => cm_Topic m = "t" /\ cm_Partition m = 0) (pushed trace)
    /\ Forall (fun rq => rq_Topic rq = "t" /\ rq_Partition rq = 0
                         /\ ReplyToCh rq = 1%nat) (requestsSent trace).
Proof.
  assert (Hrun : exists st trace,
             run samples.sampleConfig samples.deliveryRun
               (samples.sampleStart samples.sampleConfig) = Some (st, trace)
             /\ length (pushed trace) = 3%nat).
  { eexists _, _. vm_compute. repeat split; reflexivity. }
  destruct Hrun as (st & trace & Hrun & Hlen).
  exists st, trace. split; [exact Hrun|]. split; [exact Hlen|].
  destruct (pullMessages_keeps_its_labels samples.sampleConfig _ _ _ _ _ Hrun)
    as (Hreq & Hmsg & _).
  split; [exact Hmsg|exact Hreq].
Defined.

Lemma fetched_messages_are_all_pushed_witness :
  exists st1 acts st2,
    step samples.sampleConfig
      (EvFetchResult (samples.resultOf (samples.blockOf 20 [10; 11; 12])) 0 true)
      (samples.waitingPump samples.sampleConfig) = Some (st1, acts)
    /\ run samples.sampleConfig (replicate 3 EvPushMessage) st1
         = Some (st2, map APush
                        (p_messages
                           (parseFetchResult samples.sampleConfig
                              (samples.workerAt 10 1024)
                              (samples.resultOf (samples.blockOf 20 [10; 11; 12])))))
    /\ nilOrMessagesCh st2 = false
    /\ offset (worker st2) = 13
    /\ step samples.sampleConfig EvPushMessage st2 = None.
Proof.
  assert (Hstep : exists st1 acts,
             step samples.sampleConfig
               (EvFetchResult (samples.resultOf (samples.blockOf 20 [10; 11; 12])) 0 true)
               (samples.waitingPump samples.sampleConfig) = Some (st1, acts))
    by (eexists _, _; vm_compute; reflexivity).
  destruct Hstep as (st1 & acts & Hstep).
  assert (Hne : p_messages
                  (parseFetchResult samples.sampleConfig
                     (worker (samples.waitingPump samples.sampleConfig))
                     (samples.resultOf (samples.blockOf 20 [10; 11; 12]))) <> [])
    by (vm_compute; discriminate).
  destruct (fetched_messages_are_all_pushed samples.sampleConfig _ _ _ _ _ _ Hstep Hne)
    as (st2 & Hrun & _ & Hoff' & _ & _ & Hoff & Hdone).
  exists st1, acts, st2. split; [exact Hstep|]. split; [exact Hrun|].
  split; [exact Hoff'|]. split; [|exact Hdone].
  rewrite (Hoff (toConsumerMessage (mkTopicPartition "t" 0)
                   (samples.blockOf 20 [10; 11; 12]) (samples.plainMessage 12)))
    by reflexivity.
  reflexivity.
Defined.

End FurtherSamples.
